(** * akeo-slicer: the image-processing core of [akeo_slicer.py]

    A shallow embedding of the decode cache, the slicer, the two merge
    paths and the encoder, and the properties of the design document that
    can be stated over it.

    Pixel buffers are lists of rows, Python integers are [Z], Python
    dictionaries whose iteration order matters are association lists in
    insertion order, and Python sets are [gset].  Everything the program
    obtains from outside itself (the file system, Pillow's decoders,
    resampling and colour conversion, floating-point scaling, [pathlib],
    and the [PLATFORM_SPECS] table, which the module uses without
    defining) is a field of the record [Env]. *)

From Stdlib Require Import ZArith QArith Lia Lqa Ascii String.
From stdpp Require Import base tactics option list list_numbers sorting strings pretty gmap.

Local Open Scope Z_scope.

(** ** Pixel buffers (PIL.Image) *)

Inductive Mode := M_1 | M_L | M_LA | M_P | M_RGB | M_RGBA | M_CMYK.

Global Instance Mode_eq_dec : EqDecision Mode.
Proof. solve_decision. Defined.

(** [len(img.getbands())] *)
Definition getbands (m : Mode) : nat :=
  match m with
  | M_1 | M_L | M_P => 1
  | M_LA => 2
  | M_RGB => 3
  | M_RGBA | M_CMYK => 4
  end%nat.

(** A pixel is the tuple of its band values. *)
Definition pixel := list Z.

Record Image := mkImage {
  mode : Mode;
  width : nat;
  rows : list (list pixel)
}.

Definition height (im : Image) : nat := length (rows im).

(** Every row of a decoded buffer has [width] pixels. *)
Definition well_formed (im : Image) : Prop :=
  Forall (fun r => length r = width im) (rows im).

Global Instance well_formed_dec im : Decision (well_formed im).
Proof. unfold well_formed. apply _. Defined.

Definition zero_pixel (m : Mode) : pixel := replicate (getbands m) 0.

(** [Image.new(mode, (w, h), color)]; Pillow raises [ValueError] on a
    negative size ([None]). *)
Definition Image_new (m : Mode) (size : Z * Z) (color : pixel) : option Image :=
  let '(w, h) := size in
  if decide (w < 0 \/ h < 0) then None
  else Some (mkImage m (Z.to_nat w)
               (replicate (Z.to_nat h) (replicate (Z.to_nat w) color))).

Definition lookupZ {A} (l : list A) (z : Z) : option A :=
  if decide (0 <= z) then l !! Z.to_nat z else None.

Definition pixel_at (im : Image) (x y : Z) : pixel :=
  match lookupZ (rows im) y with
  | Some r => default (zero_pixel (mode im)) (lookupZ r x)
  | None => zero_pixel (mode im)
  end.

(** [img.crop((left, upper, right, lower))]: the box may reach outside the
    buffer, where Pillow fills with zeros; an inverted box raises
    [ValueError] ([None]). *)
Definition crop (im : Image) (box : Z * Z * Z * Z) : option Image :=
  let '(x0, upper, x1, lower) := box in
  if decide (x1 < x0 \/ lower < upper) then None
  else Some (mkImage (mode im) (Z.to_nat (x1 - x0))
               ((fun y => (fun x => pixel_at im x y) <$> seqZ x0 (x1 - x0))
                  <$> seqZ upper (lower - upper))).

(** [dest.paste(src, (x, y))] on buffers of one mode: the source rectangle
    is copied to [(x, y)], clipped to the destination. *)
Definition paste_row (x : Z) (srow drow : list pixel) : list pixel :=
  imap (fun X p => default p (lookupZ srow (Z.of_nat X - x))) drow.

Definition paste_rows (x y : Z) (srows drows : list (list pixel))
  : list (list pixel) :=
  imap (fun Y r => match lookupZ srows (Z.of_nat Y - y) with
                   | Some s => paste_row x s r
                   | None => r
                   end) drows.

Definition paste_raw (dest src : Image) (xy : Z * Z) : Image :=
  mkImage (mode dest) (width dest) (paste_rows xy.1 xy.2 (rows src) (rows dest)).

(** Vertical concatenation of buffers, top to bottom. *)
Definition vconcat (ims : list Image) : list (list pixel) :=
  concat (rows <$> ims).

(** ** Errors, the environment and the effects of a run *)

(** Python exceptions, by class; [Wrapped text cause] is
    [Exception(f"text{cause}")]. *)
Inductive exn :=
| FileNotFoundError (text : string)
| PermissionError (text : string)
| ValueError (text : string)
| IndexError
| MemoryError
| OSError (text : string)
| Exception (text : string)
| Wrapped (text : string) (cause : exn).

Definition is_PermissionError (e : exn) : bool :=
  match e with PermissionError _ => true | _ => false end.

(** The [quality] argument is a name of the quality table or a number. *)
Inductive Quality := QualityName (name : string) | QualityValue (q : Z).

(** Keyword arguments of [img.save]. *)
Record SaveArgs := mkSaveArgs {
  sa_format : string;
  sa_optimize : bool;
  sa_quality : option Z;
  sa_subsampling : option Z;
  sa_dpi : option (Z * Z)
}.

(** An entry of [PLATFORM_SPECS]; ['quality'] is read with
    [spec.get('quality', 90)]. *)
Record PlatformSpec := mkPlatformSpec {
  spec_max_width : Z;
  spec_max_height : Z;
  spec_format : string;
  spec_quality : option Z
}.

(** What the module takes from outside itself. *)
Record Env := mkEnv {
  (** [PLATFORM_SPECS], used by the module but not defined in it *)
  PLATFORM_SPECS : string -> option PlatformSpec;
  (** pathlib *)
  path_exists : string -> bool;
  path_is_file : string -> bool;
  path_st_size : string -> Z;
  path_suffix : string -> string;
  path_stem : string -> string;
  path_name : string -> string;
  path_parent : string -> string;
  path_with_suffix : string -> string -> string;
  path_join : string -> string -> string;
  str_lower : string -> string;
  (** [out.mkdir(...)] followed by the write-and-delete probe: the
      exception it raises, if any *)
  probe_error : string -> option exn;
  (** [path.parent.mkdir(parents=True, exist_ok=True)] *)
  mkdir_error : string -> option exn;
  (** [Image.open(path)], [None] when it raises *)
  Image_open : string -> option Image;
  (** whether [psd_tools] could be imported *)
  PSDImage : bool;
  (** [PSDImage.open(path)] and the compose fall-backs, [None] when they
      raise or yield nothing *)
  psd_compose : string -> option Image;
  (** [img.format] of the file at a path *)
  file_format : string -> string;
  (** [img.save(dst, ...)]: the exception it raises, if any *)
  save_error : string -> Image -> option exn;
  (** [Image.new(mode, size, color)]: the exception it raises for want of
      memory, if any *)
  new_error : Z * Z -> option exn;
  (** [img.resize(size, Image.Resampling.LANCZOS)] *)
  resize : Image -> Z * Z -> Image;
  (** [img.convert(mode)] *)
  convert : Image -> Mode -> Image;
  (** [bg.paste(img, mask=alpha)] on a white RGB background of [img]'s size *)
  flatten_on_white : Image -> Image;
  (** the conversion [paste] applies to a source of another mode *)
  paste_convert : Mode -> Image -> Image;
  (** [int(len * (num / den))] in floating point *)
  scale_int : Z -> Z -> Z -> Z
}.

(** Buffers whose release the program manages by hand. *)
Inductive handle :=
| HSource (path : string)
| HCrop (i : nat)
| HComposite.

Global Instance handle_eq_dec : EqDecision handle.
Proof. solve_decision. Defined.

(** The places where the merge polls the cancellation flag: before
    reading the size of file [i], before compositing file [i], before
    spilling file [i], and before pasting back the chunk stored under a
    temporary name. *)
Inductive poll_site :=
| BeforeInfo (i : nat)
| BeforeFile (i : nat)
| BeforeSpill (i : nat)
| BeforeChunk (name : nat).

(** What a run does to the outside, in order. *)
Inductive event :=
| EvProgress (percent : Q)
| EvIsSet (site : poll_site) (b : bool)
| EvMkdir (dir : string)
| EvSave (dst : string) (args : SaveArgs) (img : Image)
| EvShowError (title : string) (e : exn).

Record World := mkWorld {
  trace : list event;
  live : list handle;
  tmp_files : list (nat * Image);
  tmp_created : nat
}.

Definition empty_world : World := mkWorld [] [] [] 0%nat.

(** The output files written so far. *)
Definition saved (tr : list event) : list (string * SaveArgs * Image) :=
  omap (fun e => match e with
                 | EvSave dst args img => Some (dst, args, img)
                 | _ => None
                 end) tr.

Definition progress_values (tr : list event) : list Q :=
  omap (fun e => match e with EvProgress p => Some p | _ => None end) tr.

(** A statement falls through with a value, leaves the function by
    [return], or raises. *)
Inductive outcome (A : Type) :=
| Normal (a : A)
| Returned
| Raised (e : exn).
Arguments Normal {A} a.
Arguments Returned {A}.
Arguments Raised {A} e.

Definition M (A : Type) : Type := World -> outcome A * World.

Definition ret {A} (a : A) : M A := fun w => (Normal a, w).
Definition bind {A B} (m : M A) (k : A -> M B) : M B :=
  fun w => match m w with
           | (Normal a, w') => k a w'
           | (Returned, w') => (Returned, w')
           | (Raised e, w') => (Raised e, w')
           end.
Definition raise {A} (e : exn) : M A := fun w => (Raised e, w).
Definition return_ {A} : M A := fun w => (Returned, w).

Declare Scope py_scope.
Delimit Scope py_scope with py.
Notation "x <- m ;; k" := (bind m (fun x => k))
  (at level 100, m at next level, right associativity) : py_scope.
Notation "m ;; k" := (bind m (fun _ => k))
  (at level 100, right associativity) : py_scope.
Local Open Scope py_scope.

(** A call: the callee's [return] ends the callee only. *)
Definition call (body : M unit) : M unit :=
  fun w => match body w with
           | (Returned, w') => (Normal tt, w')
           | r => r
           end.

(** [try: body except Exception as e: handler e] *)
Definition try_except {A} (body : M A) (handler : exn -> M A) : M A :=
  fun w => match body w with
           | (Raised e, w') => handler e w'
           | r => r
           end.

(** [try: body finally: fin] *)
Definition try_finally {A} (body : M A) (fin : M unit) : M A :=
  fun w => match body w with
           | (r, w') => match fin w' with
                        | (Normal _, w'') => (r, w'')
                        | (Returned, w'') => (Returned, w'')
                        | (Raised e, w'') => (Raised e, w'')
                        end
           end.

(** The world after some more events. *)
Definition log (evs : list event) (w : World) : World :=
  mkWorld (trace w ++ evs) (live w) (tmp_files w) (tmp_created w).

Definition emit (e : event) : M unit := fun w => (Normal tt, log [e] w).

Definition acquire (h : handle) : M unit :=
  fun w => (Normal tt, mkWorld (trace w) (h :: live w) (tmp_files w) (tmp_created w)).

Fixpoint remove_first (h : handle) (l : list handle) : list handle :=
  match l with
  | [] => []
  | h' :: l' => if decide (h' = h) then l' else h' :: remove_first h l'
  end.

(** [buffer.close()] *)
Definition release (h : handle) : M unit :=
  fun w => (Normal tt,
            mkWorld (trace w) (remove_first h (live w))
              (tmp_files w) (tmp_created w)).

Definition when (b : bool) (m : M unit) : M unit := if b then m else ret tt.

Fixpoint for_ {A} (l : list A) (body : A -> M unit) : M unit :=
  match l with
  | [] => ret tt
  | a :: l' => body a ;; for_ l' body
  end.

Fixpoint foldM {A S} (l : list A) (body : S -> A -> M S) (s : S) : M S :=
  match l with
  | [] => ret s
  | a :: l' => s' <- body s a ;; foldM l' body s'
  end.

(** [progress_callback] is [None] ([false]) or a function that records the
    value it is given. *)
Definition progress (progress_callback : bool) (percent : Q) : M unit :=
  when progress_callback (emit (EvProgress percent)).

(** [cancel_event] is [None] or a [threading.Event] that another thread
    sets; what [is_set()] answers may depend on what has happened so far. *)
Definition CancelEvent := option (list event -> bool).

(** [cancel_event and cancel_event.is_set()], at a given place *)
Definition is_set (cancel_event : CancelEvent) (site : poll_site) : M bool :=
  match cancel_event with
  | None => ret false
  | Some ev => fun w => let b := ev (trace w) in
                        (emit (EvIsSet site b) ;; ret b) w
  end.

(** [l[i]] *)
Definition getitem {A} (l : list A) (i : nat) : M A :=
  match l !! i with
  | Some a => ret a
  | None => raise IndexError
  end.

Definition of_option {A} (o : option A) (e : exn) : M A :=
  match o with Some a => ret a | None => raise e end.

(** ** Constants and formatting *)

Definition PIL_MAX_PIXELS : Z := 2 ^ 31 - 1.
Definition MiB : Z := 1024 * 1024.

Fixpoint zeros (k : nat) : string :=
  match k with O => "" | S k' => "0" +:+ zeros k' end.

(** [f"{n:03d}"]: the sign counts towards the width. *)
Definition format_03d (n : Z) : string :=
  let digits := pretty (Z.abs n) in
  let sign := if decide (n < 0) then "-" else "" in
  sign +:+ zeros (3 - String.length sign - String.length digits) +:+ digits.

(** [sorted(list(set(points)))] *)
Definition sorted (l : list Z) : list Z := merge_sort Z.le l.
Definition set_ (l : list Z) : gset Z := list_to_set l.
Definition normalize (points : list Z) : list Z := sorted (elements (set_ points)).

(** [quality_map] of [save_image_with_quality], as (quality, subsampling);
    a name outside the table reads the ['Medium'] entry. *)
Definition quality_map (name : string) : option (Z * option Z) :=
  if decide (name = "무손실") then Some (100, Some 0)
  else if decide (name = "High") then Some (95, Some 0)
  else if decide (name = "Medium") then Some (85, None)
  else if decide (name = "Low") then Some (70, None)
  else None.

Definition quality_opts (quality : Quality) : Z * option Z :=
  match quality with
  | QualityValue q => (q, None)
  | QualityName name => default (85, None) (quality_map name)
  end.

Section Program.
Context (E : Env).

(** [platform and platform in PLATFORM_SPECS], then [PLATFORM_SPECS[platform]] *)
Definition platform_spec (platform : option string) : option PlatformSpec :=
  match platform with
  | Some p => if decide (p = "") then None else PLATFORM_SPECS E p
  | None => None
  end.

(** [img.save(dst, **save_kwargs)] *)
Definition img_save (img : Image) (dst : string) (args : SaveArgs) : M unit :=
  match save_error E dst img with
  | Some e => raise e
  | None => emit (EvSave dst args img)
  end.

(** [save_image_with_quality].  The copies it makes and closes in its
    [finally] clause are its own and are not tracked as handles. *)
Definition save_image_with_quality (img : Image) (dst : string)
    (quality : Quality) (save_as_png : bool) (platform : option string)
    (dpi : option (Z * Z)) : M unit :=
  call (try_except
    (let img_copy := img in
     let '(img_copy, save_as_png, quality) :=
       match platform_spec platform with
       | Some spec =>
           let img_copy :=
             if decide (Z.of_nat (width img_copy) > spec_max_width spec) then
               let new_height :=
                 scale_int E (Z.of_nat (height img_copy)) (spec_max_width spec)
                   (Z.of_nat (width img_copy)) in
               resize E img_copy (spec_max_width spec, new_height)
             else img_copy in
           if decide (spec_format spec = "jpg")
           then (img_copy, false, QualityValue (default 90 (spec_quality spec)))
           else (img_copy, save_as_png, quality)
       | None => (img_copy, save_as_png, quality)
       end in
     if save_as_png then
       let dst := path_with_suffix E dst ".png" in
       let img_copy :=
         if decide (mode img_copy <> M_RGBA) then convert E img_copy M_RGBA
         else img_copy in
       img_save img_copy dst (mkSaveArgs "PNG" true None None dpi) ;;
       return_
     else
       let img_copy :=
         if decide (mode img_copy = M_RGBA \/ mode img_copy = M_LA)
         then flatten_on_white E img_copy
         else if decide (mode img_copy <> M_RGB) then convert E img_copy M_RGB
         else img_copy in
       let dst := path_with_suffix E dst ".jpg" in
       let opts := quality_opts quality in
       img_save img_copy dst (mkSaveArgs "JPEG" true (Some opts.1) opts.2 dpi))
    (fun e => raise (Wrapped "이미지 저장 실패: " e))).

(** [load_psd_image(path, memory_limit)]: returns a buffer or raises. *)
Definition load_psd_image (path : string) (memory_limit : Z) : M (option Image) :=
  try_except
    (when (bool_decide (path_st_size E path > memory_limit * MiB))
       (raise (Exception "파일이 너무 큽니다")) ;;
     img <- of_option (psd_compose E path) (Exception "이미지를 추출할 수 없습니다") ;;
     let total_pixels := Z.of_nat (width img) * Z.of_nat (height img) in
     when (bool_decide (total_pixels > PIL_MAX_PIXELS))
       (raise (Exception "이미지 픽셀 수 초과")) ;;
     when (bool_decide (total_pixels * Z.of_nat (getbands (mode img)) * 4
                        > memory_limit * MiB))
       (raise (Exception "예상 메모리 사용량 초과")) ;;
     ret (Some img))
    (fun e => raise (Wrapped "PSD 파일 로드 실패: " e)).

Definition is_psd (path : string) : bool :=
  let s := str_lower E (path_suffix E path) in
  bool_decide (s = ".psd" \/ s = ".psb").

(** The decode step shared by the split functions. *)
Definition open_source (src : string) : M Image :=
  img <- (if is_psd src then
            when (negb (PSDImage E))
              (raise (Exception "PSD 지원 라이브러리가 설치되지 않았습니다")) ;;
            img <- load_psd_image src 2048 ;;
            of_option img (Exception "PSD 파일을 열 수 없습니다")
          else of_option (Image_open E src) (OSError "Image.open")) ;;
  acquire (HSource src) ;;
  ret img.

(** The file name of slice [i]. *)
Definition slice_name (base ext : string) (version : Z) (i : nat) : string :=
  if decide (version = 0)
  then base +:+ "_" +:+ format_03d (Z.of_nat i) +:+ ext
  else base +:+ "_v" +:+ format_03d version +:+ "_"
            +:+ format_03d (Z.of_nat i) +:+ ext.

(** One turn of the slicing loop. *)
Definition split_slice (img : Image) (w : Z) (seq : list Z) (total_slices : nat)
    (base ext out : string) (quality : Quality) (version : Z)
    (save_as_png : bool) (platform : option string) (progress_callback : bool)
    (i : nat) : M unit :=
  progress progress_callback
    (inject_Z (Z.of_nat i) / inject_Z (Z.of_nat total_slices) * 100)%Q ;;
  try_except
    (upper <- getitem seq i ;;
     lower <- getitem seq (i + 1) ;;
     crop <- of_option (crop img (0, upper, w, lower)) (ValueError "crop") ;;
     acquire (HCrop i) ;;
     let name := slice_name base ext version i in
     save_image_with_quality crop (path_join E out name) quality save_as_png
       platform None ;;
     release (HCrop i))
    (fun e => raise (Wrapped ("분할 " +:+ pretty (Z.of_nat i + 1) +:+ "/"
                                +:+ pretty (Z.of_nat total_slices)
                                +:+ " 처리 중 오류: ") e)).

(** [split_image_at_points] *)
Definition split_image_at_points (src : string) (points : list Z) (out : string)
    (quality : Quality) (version : Z) (save_as_png : bool)
    (platform : option string) (progress_callback : bool) : M unit :=
  call (try_except
    (when (negb (path_exists E src))
       (raise (FileNotFoundError "입력 파일이 존재하지 않습니다")) ;;
     when (negb (path_is_file E src))
       (raise (ValueError "입력 경로가 파일이 아닙니다")) ;;
     when (bool_decide (path_st_size E src = 0))
       (raise (ValueError "빈 파일입니다")) ;;
     match probe_error E out with
     | None => emit (EvMkdir out)
     | Some e =>
         if is_PermissionError e
         then raise (PermissionError "출력 폴더에 쓰기 권한이 없습니다")
         else raise (Wrapped "출력 폴더 생성 실패: " e)
     end ;;
     img <- open_source src ;;
     let w := Z.of_nat (width img) in
     let h := Z.of_nat (height img) in
     let points := normalize points in
     when (existsb (fun p => (p <=? 0) || (p >=? h)) points)
       (raise (ValueError "분할점이 이미지 범위를 벗어났습니다")) ;;
     let seq := [0] ++ points ++ [h] in
     let base := path_stem E src in
     let ext := path_suffix E src in
     let total_slices := (length seq - 1)%nat in
     for_ (List.seq 0 total_slices)
       (split_slice img w seq total_slices base ext out quality version
          save_as_png platform progress_callback) ;;
     release (HSource src) ;;
     progress progress_callback 100%Q)
    (fun e => emit (EvShowError "분할 실패" e))).

(** ** Merging *)

Record ImageInfo := mkImageInfo {
  info_path : string;
  info_width : Z;
  info_height : Z;
  info_size_bytes : Z;
  info_format : string
}.

Record MergeTask := mkMergeTask {
  files : list string;
  output_path : string;
  quality : Quality;
  platform : option string;
  save_as_png : bool
}.

(** [get_image_info]: [None] when the file cannot be opened. *)
Definition get_image_info (path : string) : option ImageInfo :=
  match Image_open E path with
  | Some img =>
      Some (mkImageInfo path (Z.of_nat (width img)) (Z.of_nat (height img))
              (path_st_size E path) (file_format E path))
  | None => None
  end.

Definition enumerate {A} (l : list A) : list (nat * A) :=
  zip (List.seq 0 (length l)) l.

(** [dest.paste(src, xy)]: a source of another mode is converted first. *)
Definition paste (dest src : Image) (xy : Z * Z) : Image :=
  paste_raw dest
    (if decide (mode dest = mode src) then src
     else paste_convert E (mode dest) src) xy.

Definition composite_mode (save_as_png : bool) : Mode :=
  if save_as_png then M_RGBA else M_RGB.

Definition bg_color (m : Mode) : pixel :=
  if decide (m = M_RGBA) then [0; 0; 0; 0] else [255; 255; 255].

(** The first loop of [merge_images_advanced]: sizes only. *)
Definition collect_info (task : MergeTask) (progress_callback : bool)
    (cancel_event : CancelEvent)
    (st : list ImageInfo * Z * Z) (ifp : nat * string)
  : M (list ImageInfo * Z * Z) :=
  let '(images_info, total_height, max_width) := st in
  let '(i, fp) := ifp in
  c <- is_set cancel_event (BeforeInfo i) ;;
  if c : bool then return_
  else
    match get_image_info fp with
    | None => raise (Exception ("이미지 정보를 읽을 수 없습니다: " +:+ fp))
    | Some info =>
        progress progress_callback
          (inject_Z (Z.of_nat i) / inject_Z (Z.of_nat (length (files task))) * 20)%Q ;;
        ret (images_info ++ [info], total_height + info_height info,
             Z.max max_width (info_width info))
    end.

(** The platform step of the compositing loop: a source wider than the
    platform allows is scaled down. *)
Definition platform_resize (platform : option string) (img : Image) : Image :=
  match platform_spec platform with
  | Some spec =>
      if decide (Z.of_nat (width img) > spec_max_width spec) then
        resize E img
          (spec_max_width spec,
           scale_int E (Z.of_nat (height img)) (spec_max_width spec)
             (Z.of_nat (width img)))
      else img
  | None => img
  end.

(** The mode step of the compositing loop. *)
Definition convert_for (m : Mode) (img : Image) : Image :=
  if decide (mode img <> m) then
    if decide (m = M_RGBA) then convert E img M_RGBA
    else if decide (mode img = M_RGBA) then flatten_on_white E img
    else if decide (mode img <> M_RGB) then convert E img M_RGB
    else img
  else img.

(** The body of the compositing loop, up to its [finally]: [None] is
    [continue]. *)
Definition composite_one (task : MergeTask) (m : Mode) (max_width : Z)
    (merged : Image) (y_offset : Z) (fp : string) : M (option (Image * Z)) :=
  try_finally
    (try_except
       (img <- (if is_psd fp then load_psd_image fp 2048
                else img <- of_option (Image_open E fp) (OSError "Image.open") ;;
                     ret (Some img)) ;;
        match img with
        | None => ret None
        | Some img =>
            acquire (HSource fp) ;;
            let img := platform_resize (platform task) img in
            let img := convert_for m img in
            let x_offset := (max_width - Z.of_nat (width img)) `div` 2 in
            let merged := paste merged img (x_offset, y_offset) in
            ret (Some (merged, y_offset + Z.of_nat (height img)))
        end)
       (fun e => release HComposite ;;
                 raise (Wrapped ("이미지 처리 실패 (" +:+ path_name E fp +:+ "): ") e)))
    (release (HSource fp)).

Definition composite_step (task : MergeTask) (m : Mode) (max_width : Z)
    (progress_callback : bool) (cancel_event : CancelEvent)
    (st : Image * Z) (item : nat * (string * ImageInfo)) : M (Image * Z) :=
  let '(merged, y_offset) := st in
  let '(i, (fp, info)) := item in
  c <- is_set cancel_event (BeforeFile i) ;;
  if c : bool then release HComposite ;; return_
  else
    r <- composite_one task m max_width merged y_offset fp ;;
    match r with
    | None => ret (merged, y_offset)
    | Some st' =>
        progress progress_callback
          (20 + inject_Z (Z.of_nat i + 1) / inject_Z (Z.of_nat (length (files task))) * 70)%Q ;;
        ret st'
    end.

(** [Image.new] as the merge paths call it. *)
Definition new_image (m : Mode) (size : Z * Z) : M Image :=
  match new_error E size with
  | Some e => raise e
  | None => of_option (Image_new m size (bg_color m))
              (ValueError "Width and height must be >= 0")
  end.

(** [dir.mkdir(parents=True, exist_ok=True)] *)
Definition mkdir (dir : string) : M unit :=
  match mkdir_error E dir with
  | Some e => raise e
  | None => emit (EvMkdir dir)
  end.

(** The last step of both merge paths. *)
Definition save_composite (task : MergeTask) (composite : Image) : M unit :=
  mkdir (path_parent E (output_path task)) ;;
  save_image_with_quality composite (output_path task) (quality task)
    (save_as_png task) (platform task) None.

(** The part of [merge_images_advanced] after the choice of path. *)
Definition merge_in_memory (task : MergeTask) (images_info : list ImageInfo)
    (max_width total_height : Z)
    (progress_callback : bool) (cancel_event : CancelEvent) : M unit :=
  let '(max_width, total_height) :=
    match platform_spec (platform task) with
    | Some spec =>
        if decide (max_width > spec_max_width spec)
        then (spec_max_width spec,
              scale_int E total_height (spec_max_width spec) max_width)
        else (max_width, total_height)
    | None => (max_width, total_height)
    end in
  let m := composite_mode (save_as_png task) in
  merged <- try_except (new_image m (max_width, total_height))
              (fun e => match e with
                        | MemoryError => raise (Exception "메모리 부족")
                        | _ => raise (Wrapped "이미지 생성 실패: " e)
                        end) ;;
  acquire HComposite ;;
  st <- foldM (enumerate (zip (files task) images_info))
          (composite_step task m max_width progress_callback cancel_event)
          (merged, 0) ;;
  let merged := st.1 in
  try_finally
    (save_composite task merged ;;
     progress progress_callback 100%Q)
    (release HComposite).

(** [range(0, stop, step)] *)
Definition range_step (stop step : nat) : list nat :=
  (fun k => (k * step)%nat) <$> List.seq 0 ((stop + step - 1) / step)%nat.

Definition chunk_height : nat := 1000.

(** An entry of [temp_files]: name, width, height and target row. *)
Definition TempEntry : Type := nat * Z * Z * Z.

(** [tempfile.NamedTemporaryFile(suffix='.png', delete=False)] followed by
    [chunk.save(temp_file.name, 'PNG')]; PNG has no CMYK. *)
Definition save_temp (chunk : Image) : M nat :=
  fun w =>
    let name := tmp_created w in
    if decide (mode chunk = M_CMYK)
    then (Raised (OSError "cannot write mode CMYK as PNG"),
          mkWorld (trace w) (live w) (tmp_files w) (S name))
    else (Normal name,
          mkWorld (trace w) (live w) (tmp_files w ++ [(name, chunk)]) (S name)).

(** [Image.open(temp_path)] *)
Definition open_temp (name : nat) : M Image :=
  fun w => match list_find (fun e => e.1 = name) (tmp_files w) with
           | Some (_, (_, chunk)) => (Normal chunk, w)
           | None => (Raised (FileNotFoundError "temp"), w)
           end.

(** [Path(temp_path).unlink()] inside [try: ... except: pass] *)
Definition unlink_temp (name : nat) : M unit :=
  fun w => (Normal tt,
            mkWorld (trace w) (live w)
              (filter (fun e => e.1 <> name) (tmp_files w)) (tmp_created w)).

(** The inner loop of the spilling pass, for one row offset [y]. *)
Definition spill_chunk (img : Image) (y_offset : Z)
    (temp_files : list TempEntry) (y : nat) : M (list TempEntry) :=
  let chunk_bottom := Z.min (Z.of_nat y + Z.of_nat chunk_height) (Z.of_nat (height img)) in
  chunk <- of_option (crop img (0, Z.of_nat y, Z.of_nat (width img), chunk_bottom))
             (ValueError "crop") ;;
  name <- save_temp chunk ;;
  ret (temp_files ++ [(name, Z.of_nat (width chunk), Z.of_nat (height chunk),
                       y_offset + Z.of_nat y)]).

(** The spilling pass, for one file. *)
Definition spill_step (task : MergeTask) (progress_callback : bool)
    (cancel_event : CancelEvent)
    (st : list TempEntry * Z) (item : nat * (string * ImageInfo))
  : M (list TempEntry * Z) :=
  let '(temp_files, y_offset) := st in
  let '(i, (fp, info)) := item in
  c <- is_set cancel_event (BeforeSpill i) ;;
  if c : bool then return_
  else
    img <- of_option (Image_open E fp) (OSError "Image.open") ;;
    acquire (HSource fp) ;;
    temp_files <- try_finally
                    (foldM (range_step (height img) chunk_height)
                       (spill_chunk img y_offset) temp_files)
                    (release (HSource fp)) ;;
    progress progress_callback
      (20 + inject_Z (Z.of_nat i + 1) / inject_Z (Z.of_nat (length (files task))) * 60)%Q ;;
    ret (temp_files, y_offset + Z.of_nat (height img)).

(** The reassembly loop; on cancellation it executes [break]. *)
Fixpoint reassemble (max_width : Z) (cancel_event : CancelEvent)
    (temp_files : list TempEntry) (final_img : Image) : M Image :=
  match temp_files with
  | [] => ret final_img
  | (temp_path, w, h, y_pos) :: rest =>
      c <- is_set cancel_event (BeforeChunk temp_path) ;;
      if c : bool then ret final_img
      else
        chunk <- open_temp temp_path ;;
        let x_offset := (max_width - w) `div` 2 in
        reassemble max_width cancel_event rest
          (paste final_img chunk (x_offset, y_pos))
  end.

(** The [finally] clause of the streaming path: every temporary file
    created and recorded so far is removed. *)
Definition cleanup_temp : M unit :=
  fun w => for_ (fst <$> tmp_files w) unlink_temp w.

(** [_merge_images_streaming] *)
Definition _merge_images_streaming (task : MergeTask)
    (images_info : list ImageInfo) (max_width total_height : Z)
    (progress_callback : bool) (cancel_event : CancelEvent) : M unit :=
  call (
    let m := composite_mode (save_as_png task) in
    try_finally
      (st <- foldM (enumerate (zip (files task) images_info))
               (spill_step task progress_callback cancel_event) ([], 0) ;;
       let temp_files := st.1 in
       final_img <- new_image m (max_width, total_height) ;;
       acquire HComposite ;;
       final_img <- reassemble max_width cancel_event temp_files final_img ;;
       save_composite task final_img ;;
       release HComposite ;;
       progress progress_callback 100%Q)
      cleanup_temp).

(** [merge_images_advanced], with the streaming threshold (in MiB, 1000 in
    the source) as a parameter. *)
Definition merge_images_advanced_with (threshold_mb : Z) (task : MergeTask)
    (progress_callback : bool) (cancel_event : CancelEvent) : M unit :=
  call (
    match files task with
    | [] => return_
    | _ =>
        st <- foldM (enumerate (files task))
                (collect_info task progress_callback cancel_event) ([], 0, 0) ;;
        let '(images_info, total_height, max_width) := st in
        let total_pixels := max_width * total_height in
        when (bool_decide (total_pixels > PIL_MAX_PIXELS))
          (raise (Exception "이미지 크기 초과")) ;;
        let use_streaming := bool_decide (total_pixels * 4 > threshold_mb * MiB) in
        if use_streaming
        then _merge_images_streaming task images_info max_width total_height
               progress_callback cancel_event ;;
             return_
        else merge_in_memory task images_info max_width total_height
               progress_callback cancel_event
    end).

Definition merge_images_advanced : MergeTask -> bool -> CancelEvent -> M unit :=
  merge_images_advanced_with 1000.

End Program.

(** ** The decode cache ([ImageCache])

    Sizes are in MiB, as exact rationals: every size the program computes
    is a multiple of [2^-18], which a Python float holds exactly far beyond
    any budget in use. *)

(** [(img.width * img.height * len(img.getbands()) * 4) / (1024 * 1024)] *)
Definition image_size_mb (img : Image) : Q :=
  (inject_Z (Z.of_nat (width img) * Z.of_nat (height img)
             * Z.of_nat (getbands (mode img)) * 4) / inject_Z MiB)%Q.

(** [self.cache] is a [dict]: it iterates in insertion order, and assigning
    to a key that is present keeps the key's position. *)
Definition Dict : Type := list (string * Image).

Fixpoint dict_get (d : Dict) (key : string) : option Image :=
  match d with
  | [] => None
  | (k, v) :: d' => if decide (k = key) then Some v else dict_get d' key
  end.

Fixpoint dict_set (d : Dict) (key : string) (img : Image) : Dict :=
  match d with
  | [] => [(key, img)]
  | (k, v) :: d' =>
      if decide (k = key) then (k, img) :: d' else (k, v) :: dict_set d' key img
  end.

Record ImageCache := mkImageCache {
  cache : Dict;
  max_size_mb : Q;
  current_size_mb : Q
}.

(** [ImageCache(max_size_mb)] *)
Definition ImageCache_init (max_size_mb : Q) : ImageCache :=
  mkImageCache [] max_size_mb 0.

(** The [while] loop of [_add_to_cache]: the oldest entry is popped and
    closed for as long as the new entry does not fit and entries remain.
    Returns the entries left, the size tracked and the entries closed. *)
Fixpoint evict (d : Dict) (current_size_mb size_mb max_size_mb : Q)
  : Dict * Q * list (string * Image) :=
  match d with
  | [] => ([], current_size_mb, [])
  | (oldest_key, old_img) :: rest =>
      if Qlt_le_dec max_size_mb (current_size_mb + size_mb) then
        let old_size := image_size_mb old_img in
        let '(d', cur, closed) :=
          evict rest (current_size_mb - old_size)%Q size_mb max_size_mb in
        (d', cur, (oldest_key, old_img) :: closed)
      else (d, current_size_mb, [])
  end.

(** [_add_to_cache(key, img, size_mb)], with the entries it closed *)
Definition _add_to_cache (self : ImageCache) (key : string) (img : Image)
    (size_mb : Q) : ImageCache * list (string * Image) :=
  let '(d, cur, closed) :=
    evict (cache self) (current_size_mb self) size_mb (max_size_mb self) in
  (mkImageCache (dict_set d key img) (max_size_mb self) (cur + size_mb)%Q, closed).

(** [clear()] *)
Definition ImageCache_clear (self : ImageCache) : ImageCache :=
  mkImageCache [] (max_size_mb self) 0.

(** [f"{path}_{max_dimension}"] *)
Definition cache_key (path : string) (max_dimension : option Z) : string :=
  path +:+ "_" +:+ match max_dimension with
                   | None => "None"
                   | Some d => pretty d
                   end.

Section Cache.
Context (E : Env).

(** The decode of a cache miss; [None] when anything in the [try] block
    raises. *)
Definition cache_load (path : string) (max_dimension : option Z) : option Image :=
  let opened :=
    if is_psd E path then
      match (load_psd_image E path 2048 empty_world).1 with
      | Normal img => img
      | _ => None
      end
    else Image_open E path in
  match opened with
  | None => None
  | Some img =>
      let longest := Z.max (Z.of_nat (width img)) (Z.of_nat (height img)) in
      match max_dimension with
      | Some d =>
          if decide (d <> 0 /\ longest > d) then
            Some (resize E img (scale_int E (Z.of_nat (width img)) d longest,
                                scale_int E (Z.of_nat (height img)) d longest))
          else Some img
      | None => Some img
      end
  end.

(** [ImageCache.get(path, max_dimension)]: the buffer returned, the cache
    afterwards and the entries closed on the way. *)
Definition ImageCache_get (self : ImageCache) (path : string)
    (max_dimension : option Z)
  : option Image * ImageCache * list (string * Image) :=
  let key := cache_key path max_dimension in
  match dict_get (cache self) key with
  | Some img => (Some img, self, [])
  | None =>
      match cache_load path max_dimension with
      | None => (None, self, [])
      | Some img =>
          let img_size_mb := image_size_mb img in
          if Qlt_le_dec img_size_mb 50 then
            let '(self', closed) := _add_to_cache self key img img_size_mb in
            (Some img, self', closed)
          else (Some img, self, [])
      end
  end.

(** A sequence of [get] calls, with everything closed along the way. *)
Fixpoint run_gets (self : ImageCache) (calls : list (string * option Z))
  : ImageCache * list (string * Image) :=
  match calls with
  | [] => (self, [])
  | (path, max_dimension) :: calls' =>
      let '(_, self', closed) := ImageCache_get self path max_dimension in
      let '(self'', closed') := run_gets self' calls' in
      (self'', closed ++ closed')
  end.

End Cache.

(** ** A small concrete environment, for running the model *)

Definition lookup_file (fs : list (string * Image)) (path : string) : option Image :=
  list_find (fun e => e.1 = path) fs ≫= fun r => Some r.2.2.

Fixpoint has_dot (s : string) : bool :=
  match s with
  | EmptyString => false
  | String c s' => bool_decide (c = "."%char) || has_dot s'
  end.

(** Everything before the last dot. *)
Fixpoint strip_suffix (s : string) : string :=
  match s with
  | EmptyString => EmptyString
  | String c s' =>
      if bool_decide (c = "."%char) && negb (has_dot s')
      then EmptyString
      else String c (strip_suffix s')
  end.

Definition example_env (fs : list (string * Image))
    (save_err : string -> option exn) : Env :=
  {| PLATFORM_SPECS := fun _ => None;
     path_exists := fun p => bool_decide (is_Some (lookup_file fs p));
     path_is_file := fun p => bool_decide (is_Some (lookup_file fs p));
     path_st_size := fun _ => 1;
     path_suffix := fun _ => ".png";
     path_stem := strip_suffix;
     path_name := fun p => p;
     path_parent := fun _ => "out";
     path_with_suffix := fun p s => strip_suffix p +:+ s;
     path_join := fun a b => a +:+ "/" +:+ b;
     str_lower := fun s => s;
     probe_error := fun _ => None;
     mkdir_error := fun _ => None;
     Image_open := lookup_file fs;
     PSDImage := false;
     psd_compose := fun _ => None;
     file_format := fun _ => "PNG";
     save_error := fun dst _ => save_err dst;
     new_error := fun _ => None;
     resize := fun im _ => im;
     convert := fun im m => mkImage m (width im) (rows im);
     flatten_on_white := fun im => mkImage M_RGB (width im) (rows im);
     paste_convert := fun m im => mkImage m (width im) (rows im);
     scale_int := fun len num den => len * num `div` den |}.

(** A buffer [w] wide and [h] tall whose pixel at [(x, y)] is
    [(x, y, tag)]. *)
Definition test_image (m : Mode) (w h : nat) (tag : Z) : Image :=
  mkImage m w ((fun y => (fun x => [Z.of_nat x; Z.of_nat y; tag]) <$> List.seq 0 w)
                 <$> List.seq 0 h).

Definition no_error : string -> option exn := fun _ => None.

(** ** Views of the program used to state its properties *)

Section Views.
Context (E : Env).

(** What [save_image_with_quality] hands to [img.save]: the destination,
    the keyword arguments and the converted buffer. *)
Definition encoded (img : Image) (dst : string) (quality : Quality)
    (save_as_png : bool) (platform : option string) (dpi : option (Z * Z))
  : string * SaveArgs * Image :=
  let img1 :=
    match platform_spec E platform with
    | Some spec =>
        if decide (Z.of_nat (width img) > spec_max_width spec) then
          resize E img (spec_max_width spec,
                        scale_int E (Z.of_nat (height img)) (spec_max_width spec)
                          (Z.of_nat (width img)))
        else img
    | None => img
    end in
  let forced :=
    match platform_spec E platform with
    | Some spec => bool_decide (spec_format spec = "jpg")
    | None => false
    end in
  let png := if forced then false else save_as_png in
  let q := if forced
           then QualityValue (default 90 (platform_spec E platform ≫= spec_quality))
           else quality in
  if png then
    (path_with_suffix E dst ".png",
     mkSaveArgs "PNG" true None None dpi,
     if decide (mode img1 <> M_RGBA) then convert E img1 M_RGBA else img1)
  else
    (path_with_suffix E dst ".jpg",
     mkSaveArgs "JPEG" true (Some (quality_opts q).1) (quality_opts q).2 dpi,
     if decide (mode img1 = M_RGBA \/ mode img1 = M_LA) then flatten_on_white E img1
     else if decide (mode img1 <> M_RGB) then convert E img1 M_RGB
     else img1).


(** The buffer [open_source] yields for a path, if it yields one. *)
Definition decoded (src : string) : option Image :=
  match (open_source E src empty_world).1 with
  | Normal img => Some img
  | _ => None
  end.

(** The checks before the cut points pass: the source exists, is a
    non-empty file and decodes to [img], and the output directory is
    usable. *)
Definition split_ready (src out : string) (img : Image) : Prop :=
  path_exists E src = true /\ path_is_file E src = true /\
  path_st_size E src <> 0 /\ probe_error E out = None /\
  decoded src = Some img.

(** The boundary sequence and the crop of turn [i] of the slicing loop. *)
Definition boundaries (points : list Z) (h : Z) : list Z := [0] ++ points ++ [h].

Definition slice (img : Image) (seq : list Z) (i : nat) : option Image :=
  upper ← seq !! i;
  lower ← seq !! (i + 1)%nat;
  crop img (0, upper, Z.of_nat (width img), lower).

Definition slices (img : Image) (seq : list Z) : list Image :=
  omap (slice img seq) (List.seq 0 (length seq - 1)).

(** Rows [a] to [b] of a buffer, as a buffer. *)
Definition band (img : Image) (a b : Z) : Image :=
  mkImage (mode img) (width img)
    (take (Z.to_nat (b - a)) (drop (Z.to_nat a) (rows img))).

(** The part of [split_image_at_points] that follows the decode. *)
Definition split_body (src : string) (points : list Z) (out : string)
    (quality : Quality) (version : Z) (save_as_png : bool)
    (platform : option string) (progress_callback : bool) (img : Image) : M unit :=
  (let w := Z.of_nat (width img) in
   let h := Z.of_nat (height img) in
   let points := normalize points in
   when (existsb (fun p => (p <=? 0) || (p >=? h)) points)
     (raise (ValueError "분할점이 이미지 범위를 벗어났습니다")) ;;
   let seq := [0] ++ points ++ [h] in
   let base := path_stem E src in
   let ext := path_suffix E src in
   let total_slices := (length seq - 1)%nat in
   for_ (List.seq 0 total_slices)
     (split_slice E img w seq total_slices base ext out quality version
        save_as_png platform progress_callback) ;;
   release (HSource src) ;;
   progress progress_callback 100%Q)%py.


(** [seq[i]] *)
Definition boundary (seq : list Z) (i : nat) : Z := default 0 (seq !! i).

(** The events of turn [i] of the slicing loop when it succeeds. *)
Definition slice_events (img : Image) (seq : list Z) (src out : string)
    (quality : Quality) (version : Z) (save_as_png : bool)
    (platform : option string) (progress_callback : bool) (i : nat)
  : list event :=
  match slice img seq i with
  | Some part =>
      let enc := encoded part
                   (path_join E out
                      (slice_name (path_stem E src) (path_suffix E src) version i))
                   quality save_as_png platform None in
      (if progress_callback
       then [EvProgress (inject_Z (Z.of_nat i)
                         / inject_Z (Z.of_nat (length seq - 1)) * 100)%Q]
       else []) ++ [EvSave enc.1.1 enc.1.2 enc.2]
  | None => []
  end.

(** The sizes of the cached buffers, added up. *)
Fixpoint total_size_mb (d : Dict) : Q :=
  match d with
  | [] => 0
  | (_, img) :: d' => (image_size_mb img + total_size_mb d')%Q
  end.

(** The keys of a dictionary, in insertion order. *)
Definition keys (d : Dict) : list string := fst <$> d.

(** The size tracked is the sum of the sizes of the cached buffers. *)
Definition consistent (self : ImageCache) : Prop :=
  (current_size_mb self == total_size_mb (cache self))%Q.

(** *** Merging *)

(** The cancellation flag is never found set. *)
Definition never_set (cancel_event : CancelEvent) : Prop :=
  match cancel_event with
  | None => True
  | Some ev => forall tr, ev tr = false
  end.

(** A check before a file (not the one before a chunk of the reassembly)
    found the flag set. *)
Definition cancel_seen (evs : list event) : Prop :=
  exists site, EvIsSet site true ∈ evs /\
               match site with BeforeChunk _ => False | _ => True end.

(** The buffer the compositing loop decodes for a path. *)
Definition merge_source (fp : string) : option Image :=
  if is_psd E fp then
    match (load_psd_image E fp 2048 empty_world).1 with
    | Normal img => img
    | _ => None
    end
  else Image_open E fp.

(** The composite laid out as the design describes it: its width is the
    largest source width, its height the sum of the source heights; source
    [i] goes to the horizontal offset [(max_width - width) / 2] and to the
    vertical offset that is the sum of the heights before it. *)
Definition max_width_of (imgs : list Image) : Z :=
  foldr Z.max 0 ((fun img => Z.of_nat (width img)) <$> imgs).

Definition total_height_of (imgs : list Image) : Z :=
  foldr Z.add 0 ((fun img => Z.of_nat (height img)) <$> imgs).

Definition x_offset_in (max_width : Z) (img : Image) : Z :=
  (max_width - Z.of_nat (width img)) `div` 2.

Definition y_offset_of (imgs : list Image) (i : nat) : Z :=
  total_height_of (take i imgs).

Definition placements (imgs : list Image) : list (Image * (Z * Z)) :=
  imap (fun i img => (img, (x_offset_in (max_width_of imgs) img, y_offset_of imgs i)))
    imgs.

(** [Image.new(mode, (w, h), bg)] for sizes that are not negative. *)
Definition blank (m : Mode) (w h : Z) : Image :=
  mkImage m (Z.to_nat w) (replicate (Z.to_nat h) (replicate (Z.to_nat w) (bg_color m))).

Definition stacked (m : Mode) (imgs : list Image) : Image :=
  foldl (fun acc p => paste E acc p.1 p.2)
    (blank m (max_width_of imgs) (total_height_of imgs)) (placements imgs).

(** Conversion to another mode keeps the size of a buffer. *)
Definition conversions_keep_size : Prop :=
  forall img m,
    width (convert E img m) = width img /\ height (convert E img m) = height img /\
    width (flatten_on_white E img) = width img /\
    height (flatten_on_white E img) = height img.

(** What one turn of the first pass computes. *)
Definition info_step (st : list ImageInfo * Z * Z) (item : nat * string)
  : list ImageInfo * Z * Z :=
  match get_image_info E item.2 with
  | Some info => (st.1.1 ++ [info], st.1.2 + info_height info,
                  Z.max st.2 (info_width info))
  | None => st
  end.


(** What one turn of the compositing loop computes. *)
Definition composite_fun (task : MergeTask) (m : Mode) (max_width : Z)
    (st : Image * Z) (item : nat * (string * ImageInfo)) : Image * Z :=
  match merge_source item.2.1 with
  | Some img =>
      let img' := convert_for E m (platform_resize E (platform task) img) in
      (paste E st.1 img' (x_offset_in max_width img', st.2),
       st.2 + Z.of_nat (height img'))
  | None => st
  end.

(** The placements of the compositing loop: the vertical offset runs. *)
Fixpoint place_from (max_width : Z) (y : Z) (imgs : list Image)
  : list (Image * (Z * Z)) :=
  match imgs with
  | [] => []
  | img :: rest =>
      (img, (x_offset_in max_width img, y))
        :: place_from max_width (y + Z.of_nat (height img)) rest
  end.

(** How the last step of a merge ends for a composite, and the file it
    writes. *)
Definition save_outcome (task : MergeTask) (composite : Image)
  : outcome unit * list (string * SaveArgs * Image) :=
  match mkdir_error E (path_parent E (output_path task)) with
  | Some e => (Raised e, [])
  | None =>
      let enc := encoded composite (output_path task) (quality task)
                   (save_as_png task) (platform task) None in
      match save_error E enc.1.1 enc.2 with
      | None => (Normal tt, [enc])
      | Some e => (Raised (Wrapped "이미지 저장 실패: " e), [])
      end
  end.

(** Every file of the task decodes, for its size and for compositing, to
    the corresponding buffer of [imgs]. *)
Definition merge_sources (task : MergeTask) (imgs : list Image) : Prop :=
  Forall2 (fun fp img => Image_open E fp = Some img /\ merge_source fp = Some img)
    (files task) imgs.

(** *** Cancellation *)

(** A computation that adds no event. *)
Definition silent {A} (m : M A) : Prop := forall w, trace (m w).2 = trace w.

(** A computation that adds no event and always falls through. *)
Definition harmless (m : M unit) : Prop :=
  forall w, (m w).1 = Normal tt /\ trace (m w).2 = trace w.

(** A computation that adds no event and always executes [return]. *)
Definition returns {A} (m : M A) : Prop :=
  forall w, (m w).1 = Returned /\ trace (m w).2 = trace w.

(** A computation that writes no file and that, if a check before a file
    finds the flag set, executes [return]. *)
Definition stops_when_cancelled {A} (m : M A) : Prop :=
  forall w, exists evs,
    trace (m w).2 = trace w ++ evs /\ saved evs = [] /\
    (cancel_seen evs -> (m w).1 = Returned).


(** An outcome other than an exception. *)
Definition not_raised {A} (o : outcome A) : Prop :=
  match o with Raised _ => False | _ => True end.

(** A computation that, if a check before a file finds the flag set, ends
    without an exception and without having written a file. *)
Definition cancels_cleanly {A} (m : M A) : Prop :=
  forall w, exists evs,
    trace (m w).2 = trace w ++ evs /\
    (cancel_seen evs -> not_raised (m w).1 /\ saved evs = []).

(** *** The streaming path *)



(** The entries of [temp_files] for a plan whose first chunk gets the
    temporary name [base]. *)
Definition entries_for (base : nat) (plan : list (Image * Z)) : list TempEntry :=
  imap (fun k c => ((base + k)%nat, Z.of_nat (width c.1), Z.of_nat (height c.1), c.2))
    plan.

(** The world after the chunks [cs] have been written to temporary files. *)
Definition store_chunks (cs : list Image) (w : World) : World :=
  mkWorld (trace w) (live w)
    (tmp_files w ++ imap (fun k c => ((tmp_created w + k)%nat, c)) cs)
    (tmp_created w + length cs).



End Views.

(** ** Worked examples *)

(** The strip of the slicing example: 5000 rows. *)
Definition strip_5000 : Image := test_image M_RGB 1 5000 0.

Definition strip_env : Env := example_env [("strip.png", strip_5000)] no_error.

(** A small source, ten rows tall, and an environment in which the second
    slice cannot be written. *)
Definition small_source : Image := test_image M_RGB 2 10 7.

Definition small_env : Env := example_env [("a.png", small_source)] no_error.

Definition disk_full_on_second_slice (dst : string) : option exn :=
  if decide (dst = "out/a_001.jpg") then Some (OSError "disk full") else None.

Definition failing_env : Env :=
  example_env [("a.png", small_source)] disk_full_on_second_slice.

(** A buffer of a little over one MiB, and three small ones of 48 bytes. *)
Definition big_image : Image := test_image M_RGB 300 300 0.

Definition cache_env : Env :=
  example_env [("big.png", big_image);
               ("a.png", test_image M_RGB 2 2 1);
               ("b.png", test_image M_RGB 2 2 2);
               ("c.png", test_image M_RGB 2 2 3)] no_error.

(** A budget of 100 bytes. *)
Definition tiny_budget : Q := 100 # 1048576.

Definition preview_calls : list (string * option Z) :=
  [("a.png", Some 2000); ("big.png", None); ("a.png", Some 2000)].

Definition hits_on_a_and_b : list (string * option Z) :=
  [("a.png", None); ("b.png", None); ("a.png", None); ("a.png", None)].

(** The three pages of the merging example. *)
Definition page1 : Image := test_image M_RGB 600 1000 1.
Definition page2 : Image := test_image M_RGB 800 1500 2.
Definition page3 : Image := test_image M_RGB 600 800 3.

Definition pages_env : Env :=
  example_env [("1.png", page1); ("2.png", page2); ("3.png", page3)] no_error.

Definition pages_task : MergeTask :=
  mkMergeTask ["1.png"; "2.png"; "3.png"] "out/merged.jpg" (QualityName "High")
    None false.

(** Five small files to merge, and a flag that another thread sets once
    the run has produced [t] events. *)
Definition five_env : Env :=
  example_env [("1.png", test_image M_RGB 2 1 1); ("2.png", test_image M_RGB 2 1 2);
               ("3.png", test_image M_RGB 2 1 3); ("4.png", test_image M_RGB 2 1 4);
               ("5.png", test_image M_RGB 2 1 5)] no_error.

Definition five_task : MergeTask :=
  mkMergeTask ["1.png"; "2.png"; "3.png"; "4.png"; "5.png"] "out/merged.jpg"
    (QualityName "High") None false.

Definition set_at (t : nat) : CancelEvent :=
  Some (fun tr => bool_decide (t <= length tr)%nat).



(** * Further parts of the program *)

(** ** Strings

    A Python [str] is held as the bytes of its UTF-8 encoding.  The
    characters the program searches for, replaces and strips are ASCII
    apart from the white space of [str.strip()], and in UTF-8 no byte of a
    longer character is an ASCII byte or starts another character; so the
    operations below, which work on bytes, do to the encoding what Python
    does to the characters. *)

Definition list_of_string (s : string) : list ascii := String.list_ascii_of_string s.
Definition string_of_list (l : list ascii) : string := String.string_of_list_ascii l.

(** [s.replace(old, new)] for one-character [old] and [new] *)
Fixpoint replace_char (old new : ascii) (s : string) : string :=
  match s with
  | EmptyString => EmptyString
  | String c s' =>
      String (if decide (c = old) then new else c) (replace_char old new s')
  end.

(** [s.lstrip(chars)] and [s.rstrip(chars)] for ASCII [chars] *)
Fixpoint lstrip_chars (chars : list ascii) (s : string) : string :=
  match s with
  | EmptyString => EmptyString
  | String c s' => if bool_decide (c ∈ chars) then lstrip_chars chars s' else s
  end.

Fixpoint rstrip_chars (chars : list ascii) (s : string) : string :=
  match s with
  | EmptyString => EmptyString
  | String c s' =>
      match rstrip_chars chars s' with
      | EmptyString =>
          if bool_decide (c ∈ chars) then EmptyString else String c EmptyString
      | r => String c r
      end
  end.

(** [s.strip(chars)] *)
Definition strip_chars (chars : list ascii) (s : string) : string :=
  rstrip_chars chars (lstrip_chars chars s).

(** The characters for which [str.isspace()] holds, each as its UTF-8
    encoding: U+0009 to U+000D, U+001C to U+0020, U+0085, U+00A0, U+1680,
    U+2000 to U+200A, U+2028, U+2029, U+202F, U+205F and U+3000. *)
Definition whitespace : list (list ascii) :=
  (fun bytes : list nat => ascii_of_nat <$> bytes) <$>
    ([[9]; [10]; [11]; [12]; [13]; [28]; [29]; [30]; [31]; [32];
     [194; 133]; [194; 160]; [225; 154; 128];
     [226; 128; 128]; [226; 128; 129]; [226; 128; 130]; [226; 128; 131];
     [226; 128; 132]; [226; 128; 133]; [226; 128; 134]; [226; 128; 135];
     [226; 128; 136]; [226; 128; 137]; [226; 128; 138];
     [226; 128; 168]; [226; 128; 169]; [226; 128; 175]; [226; 129; 159];
     [227; 128; 128]]%nat : list (list nat)).

(** Removes leading occurrences of the given byte sequences, at most
    [fuel] of them. *)
Fixpoint strip_prefixes (fuel : nat) (pats : list (list ascii)) (l : list ascii)
  : list ascii :=
  match fuel with
  | O => l
  | S fuel' =>
      match list_find (fun p => p `prefix_of` l) pats with
      | Some (_, p) => strip_prefixes fuel' pats (drop (length p) l)
      | None => l
      end
  end.

(** [s.strip()] *)
Definition strip (s : string) : string :=
  let l := list_of_string s in
  let l := strip_prefixes (length l) whitespace l in
  let r := strip_prefixes (length l) (reverse <$> whitespace) (reverse l) in
  string_of_list (reverse r).

(** [forbidden_chars] of the file-name clean-up *)
Definition forbidden_chars : list ascii :=
  ["<"; ">"; ":"; ascii_of_nat 34; "/"; "\"; "|"; "?"; "*"]%char.

(** [for char in forbidden_chars: name = name.replace(char, '_')] *)
Definition replace_forbidden (name : string) : string :=
  foldl (fun s c => replace_char c "_" s) name forbidden_chars.

(** [FileRow._clean_split_filename] *)
Definition _clean_split_filename (filename : string) : string :=
  let filename := replace_forbidden filename in
  let filename := replace_char " " "_" filename in
  let filename := strip_chars [" "; "."; "_"]%char filename in
  if decide (filename = "") then "image" else filename.

(** The base name [split_image_at_points_custom] gives its slices. *)
Definition custom_base_name (custom_filename stem : string) : string :=
  if decide (strip custom_filename <> "") then
    let base_name := strip custom_filename in
    let base_name := replace_forbidden base_name in
    let base_name :=
      strip_chars [" "; "."; "_"]%char (replace_char " " "_" base_name) in
    if decide (base_name = "") then stem else base_name
  else stem.

(** The base name [FileRow._update_filename_example] shows for a custom
    file name, [None] when it shows the name of the source instead. *)
Definition example_base_name (split_filename : string) : option string :=
  let filename := strip split_filename in
  if decide (filename <> "") then Some (_clean_split_filename filename) else None.

(** [f"{n:0{digits}d}"]; a negative [digits] gives a format specifier that
    Python rejects with [ValueError] ([None]). *)
Definition format_0d (digits : Z) (n : Z) : option string :=
  if decide (digits < 0) then None
  else
    let ds := pretty (Z.abs n) in
    let sign := if decide (n < 0) then "-" else "" in
    Some (sign +:+ zeros (Z.to_nat digits - String.length sign - String.length ds)
               +:+ ds).

(** The file name of slice [i] in [split_image_at_points_custom]. *)
Definition slice_name_custom (base_name ext : string) (version digits : Z)
    (i : nat) : option string :=
  idx ← format_0d digits (Z.of_nat i);
  Some (if decide (version = 0)
        then base_name +:+ "_" +:+ idx +:+ ext
        else base_name +:+ "_v" +:+ format_03d version +:+ "_" +:+ idx +:+ ext).

(** [range(start, stop, step)] *)
Definition range (start stop step : Z) : list Z :=
  if decide (0 < step)
  then (fun k => start + k * step) <$> seqZ 0 ((stop - start + step - 1) `div` step)
  else if decide (step < 0)
  then (fun k => start + k * step)
         <$> seqZ 0 ((start - stop - step - 1) `div` (- step))
  else [].

Section MoreSplitting.
Context (E : Env).

(** One turn of the loop of [split_image_at_points_custom]. *)
Definition split_slice_custom (img : Image) (w : Z) (seq : list Z)
    (total_slices : nat) (base_name ext out : string) (quality : Quality)
    (version : Z) (save_as_png : bool) (platform : option string)
    (progress_callback : bool) (digits : Z) (i : nat) : M unit :=
  progress progress_callback
    (inject_Z (Z.of_nat i) / inject_Z (Z.of_nat total_slices) * 100)%Q ;;
  try_except
    (upper <- getitem seq i ;;
     lower <- getitem seq (i + 1) ;;
     crop <- of_option (crop img (0, upper, w, lower)) (ValueError "crop") ;;
     acquire (HCrop i) ;;
     name <- of_option (slice_name_custom base_name ext version digits i)
               (ValueError "Invalid format specifier") ;;
     save_image_with_quality E crop (path_join E out name) quality save_as_png
       platform None ;;
     release (HCrop i))
    (fun e => raise (Wrapped ("분할 " +:+ pretty (Z.of_nat i + 1) +:+ "/"
                                +:+ pretty (Z.of_nat total_slices)
                                +:+ " 처리 중 오류: ") e)).

(** [split_image_at_points_custom] *)
Definition split_image_at_points_custom (src : string) (points : list Z)
    (out : string) (quality : Quality) (version : Z) (save_as_png : bool)
    (platform : option string) (progress_callback : bool)
    (custom_filename : string) (digits : Z) : M unit :=
  call (try_except
    (when (negb (path_exists E src))
       (raise (FileNotFoundError "입력 파일이 존재하지 않습니다")) ;;
     when (negb (path_is_file E src))
       (raise (ValueError "입력 경로가 파일이 아닙니다")) ;;
     when (bool_decide (path_st_size E src = 0))
       (raise (ValueError "빈 파일입니다")) ;;
     match probe_error E out with
     | None => emit (EvMkdir out)
     | Some e =>
         if is_PermissionError e
         then raise (PermissionError "출력 폴더에 쓰기 권한이 없습니다")
         else raise (Wrapped "출력 폴더 생성 실패: " e)
     end ;;
     img <- open_source E src ;;
     let w := Z.of_nat (width img) in
     let h := Z.of_nat (height img) in
     let points := normalize points in
     when (existsb (fun p => (p <=? 0) || (p >=? h)) points)
       (raise (ValueError "분할점이 이미지 범위를 벗어났습니다")) ;;
     let seq := [0] ++ points ++ [h] in
     let base_name := custom_base_name custom_filename (path_stem E src) in
     let ext := path_suffix E src in
     let total_slices := (length seq - 1)%nat in
     for_ (List.seq 0 total_slices)
       (split_slice_custom img w seq total_slices base_name ext out quality
          version save_as_png platform progress_callback digits) ;;
     release (HSource src) ;;
     progress progress_callback 100%Q)
    (fun e => emit (EvShowError "분할 실패" e))).

(** [split_image_by_interval] *)
Definition split_image_by_interval (src : string) (interval : Z) (out : string)
    (quality : Quality) (version : Z) (save_as_png : bool)
    (platform : option string) (progress_callback : bool) : M unit :=
  call (try_except
    (when (bool_decide (interval <= 0))
       (raise (ValueError "간격은 0보다 커야 합니다")) ;;
     mkdir E out ;;
     img <- open_source E src ;;
     let h := Z.of_nat (height img) in
     when (bool_decide (interval >= h))
       (raise (ValueError "간격이 이미지 높이보다 큽니다")) ;;
     let points := range interval h interval in
     release (HSource src) ;;
     split_image_at_points E src points out quality version save_as_png platform
       progress_callback)
    (fun e => emit (EvShowError "분할 실패" e))).

(** [unique_dir(base)]: the candidates [base], [base_001], [base_002], ...
    are tried in order; [fuel] bounds the number of candidates tried after
    [base]. *)
Fixpoint unique_dir_from (fuel : nat) (base : string) (i : Z) : option string :=
  match fuel with
  | O => None
  | S fuel' =>
      let cand := base +:+ "_" +:+ format_03d i in
      if negb (path_exists E cand) then Some cand
      else unique_dir_from fuel' base (i + 1)
  end.

Definition unique_dir (fuel : nat) (base : string) : option string :=
  if negb (path_exists E base) then Some base
  else unique_dir_from fuel base 1.

(** The encoding of slice [i] of [parts] under its name. *)
Definition slice_file (src out : string) (quality : Quality) (version : Z)
    (save_as_png : bool) (platform : option string) (i : nat) (part : Image)
  : string * SaveArgs * Image :=
  encoded E part
    (path_join E out (slice_name (path_stem E src) (path_suffix E src) version i))
    quality save_as_png platform None.

End MoreSplitting.

(** The candidate [unique_dir] tries in turn [i]. *)
Definition candidate (base : string) (i : nat) : string :=
  match i with
  | O => base
  | S _ => base +:+ "_" +:+ format_03d (Z.of_nat i)
  end.

(** The characters of a string. *)
Definition chars (s : string) : list ascii := list_of_string s.

(** A name that has been through the replacements and [strip(' ._')]. *)
Definition clean_name (name : string) : Prop :=
  name <> "" /\
  (forall c, c ∈ forbidden_chars -> c ∉ chars name) /\
  (" "%char ∉ chars name) /\
  (forall c, head (chars name) = Some c \/ last (chars name) = Some c ->
             c ∉ [" "; "."; "_"]%char).

(** A file system in which [slices] and [slices_001] are taken. *)
Definition taken_env : Env :=
  example_env [("slices", test_image M_RGB 1 1 0);
               ("slices_001", test_image M_RGB 1 1 0)] no_error.

(** ** Views of the merge *)

(** A computation that writes no file. *)
Definition writes_nothing {A} (m : M A) : Prop :=
  forall w, exists evs, trace (m w).2 = trace w ++ evs /\ saved evs = [].

(** A computation that writes no file at all, or writes one file, the
    encoding of some composite at the output path of the task, and then
    ends without an exception. *)
Definition writes_output (E : Env) (task : MergeTask) {A} (m : M A) : Prop :=
  forall w, exists evs,
    trace (m w).2 = trace w ++ evs /\
    (saved evs = [] \/
     (not_raised (m w).1 /\
      exists composite,
        saved evs = [encoded E composite (output_path task) (quality task)
                       (save_as_png task) (platform task) None])).

(** A source of 50000 by 50000 pixels. *)
Definition huge_image : Image :=
  test_image M_RGB (Z.to_nat 50000) (Z.to_nat 50000) 0.

Definition huge_env : Env := example_env [("huge.png", huge_image)] no_error.

Definition huge_task : MergeTask :=
  mkMergeTask ["huge.png"] "out/merged.jpg" (QualityName "High") None false.

(** Pillow's conversions give the mode asked for. *)
Definition conversions_give_mode (E : Env) : Prop :=
  (forall img m, mode (convert E img m) = m) /\
  (forall img, mode (flatten_on_white E img) = M_RGB).

(** A computation that writes no file and always falls through. *)
Definition calm (m : M unit) : Prop :=
  forall w, (m w).1 = Normal tt /\
            exists evs, trace (m w).2 = trace w ++ evs /\ saved evs = [].
(** * Properties *)

(** ** Running the effects *)

Lemma log_nil w : log [] w = w.
Proof. destruct w; unfold log; simpl; by rewrite app_nil_r. Qed.

Lemma log_log evs1 evs2 w : log evs2 (log evs1 w) = log (evs1 ++ evs2) w.
Proof. unfold log; simpl; by rewrite app_assoc. Qed.

Lemma saved_app tr1 tr2 : saved (tr1 ++ tr2) = saved tr1 ++ saved tr2.
Proof. unfold saved. apply omap_app. Qed.

Lemma trace_log evs w : trace (log evs w) = trace w ++ evs.
Proof. reflexivity. Qed.

Lemma live_log evs w : live (log evs w) = live w.
Proof. reflexivity. Qed.


Lemma progress_run cb p w :
  progress cb p w = (Normal tt, log (if cb then [EvProgress p] else []) w).
Proof. destruct cb; simpl; [done|]. by rewrite log_nil. Qed.

(** A loop whose every turn only adds events adds them in order. *)
Lemma for_log {A} (l : list A) (body : A -> M unit) (evs : A -> list event) w :
  (forall a w', a ∈ l -> body a w' = (Normal tt, log (evs a) w')) ->
  for_ l body w = (Normal tt, log (concat (evs <$> l)) w).
Proof.
  revert w. induction l as [|a l IH]; intros w Hbody; simpl.
  - by rewrite log_nil.
  - unfold bind. rewrite Hbody by set_solver.
    rewrite IH by (intros; apply Hbody; set_solver).
    by rewrite log_log.
Qed.

(** ** The encoder *)

Lemma save_image_with_quality_run E img dst quality save_as_png platform dpi w :
  save_image_with_quality E img dst quality save_as_png platform dpi w =
  let '(dst', args, img') := encoded E img dst quality save_as_png platform dpi in
  match save_error E dst' img' with
  | None => (Normal tt, log [EvSave dst' args img'] w)
  | Some e => (Raised (Wrapped "이미지 저장 실패: " e), w)
  end.
Proof.
  unfold save_image_with_quality, encoded, call, try_except, img_save, bind,
    return_, emit, raise.
  destruct (platform_spec E platform) as [spec|]; simpl.
  - destruct (decide (spec_format spec = "jpg")) as [Hf|Hf].
    + rewrite bool_decide_eq_true_2 by done. simpl.
      by destruct (save_error E _ _).
    + rewrite bool_decide_eq_false_2 by done. simpl.
      destruct save_as_png; simpl; by destruct (save_error E _ _).
  - destruct save_as_png; simpl; by destruct (save_error E _ _).
Qed.

(** C8. On the JPEG path the quality policy becomes exactly these
    [img.save] parameters: ['무손실'] (lossless) is quality 100 with
    subsampling 0 (chroma subsampling off), ['High'] is 95 with
    subsampling 0, ['Medium'] is 85 and ['Low'] is 70, both without a
    subsampling argument, and a number is passed on as the quality
    unchanged; and the JPEG written by [save_image_with_quality] carries
    the parameters of the policy it was called with. *)
Theorem jpeg_quality_parameters :
  quality_opts (QualityName "무손실") = (100, Some 0) /\
  quality_opts (QualityName "High") = (95, Some 0) /\
  quality_opts (QualityName "Medium") = (85, None) /\
  quality_opts (QualityName "Low") = (70, None) /\
  (forall q, quality_opts (QualityValue q) = (q, None)) /\
  (forall E img dst quality dpi w,
     exists dst' img',
       save_image_with_quality E img dst quality false None dpi w =
       match save_error E dst' img' with
       | None =>
           (Normal tt,
            log [EvSave dst'
                   (mkSaveArgs "JPEG" true (Some (quality_opts quality).1)
                      (quality_opts quality).2 dpi) img'] w)
       | Some e => (Raised (Wrapped "이미지 저장 실패: " e), w)
       end).
Proof.
  repeat split; try reflexivity.
  intros E img dst quality dpi w.
  rewrite save_image_with_quality_run. unfold encoded. simpl.
  eexists _, _. reflexivity.
Qed.

(** ** Merging nothing *)

(** C10. A merge task with no files returns at once: nothing is raised,
    the progress callback is not called, and no file is written; the
    world is left exactly as it was. *)
Theorem merge_of_no_files_does_nothing E (task : MergeTask)
    (progress_callback : bool) (cancel_event : CancelEvent) (w : World) :
  files task = [] ->
  merge_images_advanced E task progress_callback cancel_event w = (Normal tt, w).
Proof.
  intros Hfiles. unfold merge_images_advanced, merge_images_advanced_with, call.
  by rewrite Hfiles.
Qed.

Lemma merge_of_no_files_does_nothing_witness :
  files (mkMergeTask [] "out/merged.jpg" (QualityName "High") None false) = [] /\
  merge_images_advanced (example_env [] no_error)
    (mkMergeTask [] "out/merged.jpg" (QualityName "High") None false)
    true (Some (fun _ => false)) empty_world = (Normal tt, empty_world).
Proof.
  split; [reflexivity|].
  apply (merge_of_no_files_does_nothing (example_env [] no_error)
           (mkMergeTask [] "out/merged.jpg" (QualityName "High") None false)).
  reflexivity.
Defined.

(** ** Normalising cut points *)

Lemma StronglySorted_le_lt (l : list Z) :
  StronglySorted Z.le l -> NoDup l -> StronglySorted Z.lt l.
Proof.
  induction 1 as [|x l Hs IH Hx]; intros Hnd; [constructor|].
  apply NoDup_cons in Hnd as [Hnotin Hnd].
  constructor; [by apply IH|].
  rewrite Forall_forall in Hx |- *. intros y Hy.
  specialize (Hx y Hy). assert (x <> y) by (intros ->; done). lia.
Qed.

Lemma StronglySorted_lt_le (l : list Z) :
  StronglySorted Z.lt l -> StronglySorted Z.le l.
Proof.
  induction 1 as [|x l Hs IH Hx]; constructor; [done|].
  eapply Forall_impl; [exact Hx|]. intros; simpl in *; lia.
Qed.

Lemma StronglySorted_lt_NoDup (l : list Z) : StronglySorted Z.lt l -> NoDup l.
Proof.
  induction 1 as [|x l Hs IH Hx]; constructor; [|done].
  rewrite Forall_forall in Hx. intros Hin. specialize (Hx x Hin). lia.
Qed.

Lemma elem_of_normalize (points : list Z) p : p ∈ normalize points <-> p ∈ points.
Proof.
  unfold normalize, sorted, set_.
  rewrite merge_sort_Permutation, elem_of_elements, elem_of_list_to_set. done.
Qed.

Lemma normalize_sorted (points : list Z) : StronglySorted Z.lt (normalize points).
Proof.
  apply StronglySorted_le_lt.
  - unfold normalize, sorted. apply StronglySorted_merge_sort; apply _.
  - unfold normalize, sorted. rewrite merge_sort_Permutation. apply NoDup_elements.
Qed.

(** A cut plan that is already strictly ascending is left as it is. *)
Lemma normalize_id (points : list Z) :
  StronglySorted Z.lt points -> normalize points = points.
Proof.
  intros Hs. apply (StronglySorted_unique Z.le).
  - apply StronglySorted_lt_le, normalize_sorted.
  - by apply StronglySorted_lt_le.
  - unfold normalize, sorted, set_. rewrite merge_sort_Permutation.
    apply elements_list_to_set. by apply StronglySorted_lt_NoDup.
Qed.

(** ** Crops of whole rows *)

Lemma lookupZ_of_nat {A} (l : list A) (i : nat) : lookupZ l (Z.of_nat i) = l !! i.
Proof. unfold lookupZ. rewrite decide_True by lia. by rewrite Nat2Z.id. Qed.

Lemma crop_band img a b :
  well_formed img -> 0 <= a -> a <= b -> b <= Z.of_nat (height img) ->
  crop img (0, a, Z.of_nat (width img), b) = Some (band img a b).
Proof.
  intros Hwf Ha Hab Hb. unfold crop, band.
  rewrite decide_False by lia. f_equal.
  rewrite Z.sub_0_r, Nat2Z.id. f_equal.
  apply list_eq. intros i.
  rewrite list_lookup_fmap.
  destruct (decide (Z.of_nat i < b - a)) as [Hi|Hi].
  - rewrite lookup_seqZ_lt by done. simpl.
    rewrite lookup_take_lt by lia. rewrite lookup_drop.
    unfold height in Hb.
    destruct (lookup_lt_is_Some_2 (rows img) (Z.to_nat a + i)) as [r Hr]; [lia|].
    rewrite Hr. f_equal.
    assert (Hlen : length r = width img).
    { unfold well_formed in Hwf. rewrite Forall_forall in Hwf.
      apply Hwf. by eapply list_elem_of_lookup_2. }
    apply list_eq. intros j. rewrite list_lookup_fmap.
    destruct (decide (j < width img)%nat) as [Hj|Hj].
    + rewrite lookup_seqZ_lt by lia. simpl.
      unfold pixel_at. replace (a + Z.of_nat i) with (Z.of_nat (Z.to_nat a + i)) by lia.
      rewrite lookupZ_of_nat, Hr. rewrite Z.add_0_l, lookupZ_of_nat.
      destruct (lookup_lt_is_Some_2 r j) as [p Hp]; [lia|]. by rewrite Hp.
    + rewrite lookup_seqZ_ge by lia. simpl. symmetry. apply lookup_ge_None_2. lia.
  - rewrite lookup_seqZ_ge by lia. simpl. symmetry.
    apply lookup_ge_None_2. rewrite length_take. lia.
Qed.

Lemma height_band img a b :
  0 <= a -> a <= b -> b <= Z.of_nat (height img) ->
  Z.of_nat (height (band img a b)) = b - a.
Proof.
  intros. unfold height, band in *. simpl. rewrite length_take, length_drop. lia.
Qed.

(** ** The slicer *)

Local Arguments crop : simpl never.

Section Slicer.
Context (E : Env).

(** Decoding a layered document touches nothing outside. *)
Lemma load_psd_image_pure path limit w :
  load_psd_image E path limit w = ((load_psd_image E path limit empty_world).1, w).
Proof.
  unfold load_psd_image, try_except, bind, when, raise, of_option, ret.
  destruct (bool_decide (path_st_size E path > limit * MiB)); simpl; [done|].
  destruct (psd_compose E path) as [img|]; simpl; [|done].
  destruct (bool_decide (_ > PIL_MAX_PIXELS)); simpl; [done|].
  destruct (bool_decide (_ > limit * MiB)); simpl; done.
Qed.

Lemma open_source_decoded src img w :
  decoded E src = Some img ->
  open_source E src w =
    (Normal img, mkWorld (trace w) (HSource src :: live w) (tmp_files w) (tmp_created w)).
Proof.
  unfold decoded, open_source, bind. intros Hdec.
  destruct (is_psd E src).
  - unfold when, raise, ret, bind, of_option, acquire in *.
    destruct (PSDImage E); simpl in *; [|done].
    rewrite load_psd_image_pure.
    destruct (load_psd_image E src 2048 empty_world) as [[[im|]| |e] w0]; simpl in *;
      simplify_eq; done.
  - unfold of_option, raise, ret, acquire in *.
    destruct (Image_open E src); simpl in *; simplify_eq; done.
Qed.

Lemma split_image_at_points_ready src points out quality version save_as_png
    platform progress_callback img w :
  split_ready E src out img ->
  split_image_at_points E src points out quality version save_as_png platform
    progress_callback w =
  call (try_except
          (split_body E src points out quality version save_as_png platform
             progress_callback img)
          (fun e => emit (EvShowError "분할 실패" e)))
    (mkWorld (trace w ++ [EvMkdir out]) (HSource src :: live w)
       (tmp_files w) (tmp_created w)).
Proof.
  intros (Hex & Hfile & Hsize & Hprobe & Hdec).
  unfold split_image_at_points, split_body, call, try_except, bind, when.
  rewrite Hex, Hfile, Hprobe. simpl.
  rewrite bool_decide_eq_false_2 by done. simpl.
  unfold ret, emit. rewrite (open_source_decoded _ _ _ Hdec). simpl. done.
Qed.

Lemma existsb_out_of_range (points : list Z) h :
  existsb (fun p => (p <=? 0) || (p >=? h)) points = true <->
  Exists (fun p => p <= 0 \/ p >= h) points.
Proof.
  rewrite existsb_exists, Exists_exists. split.
  - intros (p & Hin & Hp). exists p. rewrite list_elem_of_In. split; [done|].
    apply orb_true_iff in Hp as [Hp|Hp]; [left|right]; lia.
  - intros (p & Hin & Hp). exists p. rewrite <- list_elem_of_In. split; [done|].
    apply orb_true_iff. destruct Hp; [left|right]; lia.
Qed.

Lemma split_slice_ok img seq total base ext out quality version save_as_png
    platform progress_callback i part w :
  slice img seq i = Some part ->
  let enc := encoded E part (path_join E out (slice_name base ext version i))
               quality save_as_png platform None in
  save_error E enc.1.1 enc.2 = None ->
  split_slice E img (Z.of_nat (width img)) seq total base ext out quality version
    save_as_png platform progress_callback i w =
  (Normal tt,
   log ((if progress_callback
         then [EvProgress (inject_Z (Z.of_nat i) / inject_Z (Z.of_nat total) * 100)%Q]
         else []) ++ [EvSave enc.1.1 enc.1.2 enc.2]) w).
Proof.
  intros Hslice enc Hsave. unfold slice in Hslice.
  destruct (seq !! i) as [upper|] eqn:Hup; simpl in Hslice; [|done].
  destruct (seq !! (i + 1)%nat) as [lower|] eqn:Hlo; simpl in Hslice; [|done].
  unfold split_slice, bind. rewrite progress_run.
  unfold try_except, bind, getitem. rewrite Hup, Hlo. simpl.
  rewrite Hslice. simpl. rewrite save_image_with_quality_run.
  fold enc. destruct enc as [[dst' args] img'] eqn:Henc. simpl in *.
  rewrite Hsave. unfold release, log. simpl.
  rewrite decide_True by done. by rewrite <- app_assoc.
Qed.

End Slicer.

Lemma StronglySorted_lookup {A} (R : relation A) (l : list A) i j a b :
  StronglySorted R l -> l !! i = Some a -> l !! j = Some b -> (i < j)%nat -> R a b.
Proof.
  intros Hs. revert i j. induction Hs as [|x l Hs IH Hx]; intros i j Hi Hj Hlt.
  - done.
  - destruct j as [|j]; [lia|]. destruct i as [|i]; simpl in *.
    + simplify_eq. rewrite Forall_forall in Hx. apply Hx.
      by eapply list_elem_of_lookup_2.
    + eapply IH; eauto. lia.
Qed.

Lemma boundaries_sorted (points : list Z) h :
  StronglySorted Z.lt points -> Forall (fun p => 0 < p < h) points -> 0 <= h ->
  StronglySorted Z.le (boundaries points h) /\
  Forall (fun p => 0 <= p <= h) (boundaries points h).
Proof.
  intros Hs Hr Hh. unfold boundaries. simpl. rewrite Forall_forall in Hr. split.
  - apply StronglySorted_cons. split.
    + apply Forall_forall. intros x [Hx|Hx]%elem_of_app.
      * specialize (Hr x Hx). simpl. lia.
      * apply list_elem_of_singleton in Hx as ->. done.
    + apply StronglySorted_app. split_and!.
      * intros x1 x2 Hx1 ->%list_elem_of_singleton. specialize (Hr x1 Hx1). lia.
      * by apply StronglySorted_lt_le.
      * repeat constructor.
  - apply Forall_cons. split; [lia|].
    apply Forall_app. split.
    + apply Forall_forall. intros x Hx. specialize (Hr x Hx). lia.
    + repeat constructor; lia.
Qed.

Lemma omap_Some_fmap {A B} (f : A -> option B) (g : A -> B) (l : list A) :
  (forall a, a ∈ l -> f a = Some (g a)) -> omap f l = g <$> l.
Proof.
  induction l as [|a l IH]; intros Hf; [done|]. simpl.
  rewrite Hf by set_solver. simpl. f_equal. apply IH. intros; apply Hf; set_solver.
Qed.

Section Slices.
Context (img : Image) (seq : list Z).
Hypothesis Hwf : well_formed img.
Hypothesis Hsorted : StronglySorted Z.le seq.
Hypothesis Hrange : Forall (fun p => 0 <= p <= Z.of_nat (height img)) seq.

Lemma slice_band i upper lower :
  seq !! i = Some upper -> seq !! (i + 1)%nat = Some lower ->
  slice img seq i = Some (band img upper lower) /\
  0 <= upper /\ upper <= lower /\ lower <= Z.of_nat (height img).
Proof.
  intros Hup Hlo. unfold slice. rewrite Hup, Hlo. simpl.
  assert (upper <= lower).
  { eapply (StronglySorted_lookup Z.le seq i (i + 1)); eauto. lia. }
  rewrite Forall_forall in Hrange.
  pose proof (Hrange upper (list_elem_of_lookup_2 _ _ _ Hup)).
  pose proof (Hrange lower (list_elem_of_lookup_2 _ _ _ Hlo)).
  split; [|lia]. apply crop_band; [done|lia..].
Qed.

Lemma slices_bands :
  slices img seq =
  (fun i => band img (boundary seq i) (boundary seq (i + 1))) <$> List.seq 0 (length seq - 1).
Proof.
  unfold slices. apply omap_Some_fmap. intros i Hi.
  apply list_elem_of_lookup in Hi as (k & Hk). apply lookup_seq in Hk as [Heq Hk].
  simpl in Heq. subst k.
  destruct (lookup_lt_is_Some_2 seq i) as [upper Hup]; [lia|].
  destruct (lookup_lt_is_Some_2 seq (i + 1)) as [lower Hlo]; [lia|].
  unfold boundary. rewrite Hup, Hlo. simpl. by apply slice_band.
Qed.

Lemma boundary_range i :
  (i < length seq)%nat -> 0 <= boundary seq i <= Z.of_nat (height img).
Proof.
  intros Hi. destruct (lookup_lt_is_Some_2 seq i) as [b Hb]; [lia|].
  unfold boundary. rewrite Hb. simpl.
  rewrite Forall_forall in Hrange. apply Hrange. by eapply list_elem_of_lookup_2.
Qed.

Lemma boundary_mono i j :
  (i <= j)%nat -> (j < length seq)%nat -> boundary seq i <= boundary seq j.
Proof.
  intros Hij Hj.
  destruct (decide (i = j)) as [->|Hne]; [lia|].
  destruct (lookup_lt_is_Some_2 seq i) as [a Ha]; [lia|].
  destruct (lookup_lt_is_Some_2 seq j) as [b Hb]; [lia|].
  unfold boundary. rewrite Ha, Hb. simpl.
  eapply (StronglySorted_lookup Z.le seq i j); eauto. lia.
Qed.

(** The first [k] slices, stacked, are the rows between the first boundary
    and boundary [k]. *)
Lemma vconcat_bands k :
  (k < length seq)%nat ->
  vconcat ((fun i => band img (boundary seq i) (boundary seq (i + 1))) <$> List.seq 0 k) =
  take (Z.to_nat (boundary seq k - boundary seq 0)) (drop (Z.to_nat (boundary seq 0)) (rows img)).
Proof.
  unfold vconcat. induction k as [|k IH]; intros Hk.
  - simpl. by rewrite Z.sub_diag.
  - rewrite seq_S, !fmap_app, concat_app, IH by lia. simpl.
    rewrite app_nil_r.
    pose proof (boundary_range 0 ltac:(lia)).
    pose proof (boundary_range k ltac:(lia)).
    pose proof (boundary_range (S k) ltac:(lia)).
    pose proof (boundary_mono k (S k) ltac:(lia) ltac:(lia)).
    pose proof (boundary_mono 0 k ltac:(lia) ltac:(lia)).
    replace (k + 1)%nat with (S k) in * by lia.
    set (a0 := boundary seq 0) in *. set (ak := boundary seq k) in *.
    set (ak1 := boundary seq (S k)) in *.
    replace (Z.to_nat ak) with (Z.to_nat a0 + Z.to_nat (ak - a0))%nat by lia.
    rewrite <- drop_drop.
    rewrite take_take_drop. f_equal. lia.
Qed.

End Slices.

Lemma slices_valid_plan img (points : list Z) :
  well_formed img ->
  StronglySorted Z.lt points ->
  Forall (fun p => 0 < p < Z.of_nat (height img)) points ->
  let seq := boundaries points (Z.of_nat (height img)) in
  slices img seq =
    (fun i => band img (boundary seq i) (boundary seq (i + 1)))
      <$> List.seq 0 (length seq - 1) /\
  (forall i, (i < length seq - 1)%nat ->
             slice img seq i = Some (band img (boundary seq i) (boundary seq (i + 1)))) /\
  vconcat (slices img seq) = rows img.
Proof.
  intros Hwf Hs Hr seq.
  destruct (boundaries_sorted points (Z.of_nat (height img)) Hs Hr ltac:(lia))
    as [Hsorted Hrange]. fold seq in Hsorted, Hrange.
  split_and!.
  - by apply slices_bands.
  - intros i Hi.
    destruct (lookup_lt_is_Some_2 seq i) as [upper Hup]; [lia|].
    destruct (lookup_lt_is_Some_2 seq (i + 1)) as [lower Hlo]; [lia|].
    unfold boundary. rewrite Hup, Hlo. simpl.
    by apply (slice_band img seq Hwf Hsorted Hrange).
  - rewrite slices_bands by done.
    rewrite (vconcat_bands img seq Hsorted Hrange) by (unfold seq, boundaries;
      simpl; rewrite length_app; simpl; lia).
    assert (boundary seq 0 = 0) as -> by done.
    assert (boundary seq (length seq - 1) = Z.of_nat (height img)) as ->.
    { unfold boundary, seq, boundaries. simpl. rewrite Nat.sub_0_r.
      rewrite length_app. simpl.
      replace (length points + 1)%nat with (S (length points)) by lia.
      rewrite lookup_cons, lookup_app_r by lia.
      by rewrite Nat.sub_diag. }
    simpl. rewrite Z.sub_0_r, Nat2Z.id. unfold height. by rewrite take_ge.
Qed.

(** A valid cut plan on a decodable source whose slices all save: the run
    succeeds, and apart from the events it adds the world is as before; in
    particular the source buffer has been closed. *)
Lemma split_image_at_points_valid E src (points : list Z) out quality version
    save_as_png platform progress_callback img w :
  split_ready E src out img ->
  well_formed img ->
  StronglySorted Z.lt points ->
  Forall (fun p => 0 < p < Z.of_nat (height img)) points ->
  (forall dst im, save_error E dst im = None) ->
  let seq := boundaries points (Z.of_nat (height img)) in
  split_image_at_points E src points out quality version save_as_png platform
    progress_callback w =
  (Normal tt,
   log ([EvMkdir out]
        ++ concat (slice_events E img seq src out quality version save_as_png
                     platform progress_callback <$> List.seq 0 (length seq - 1))
        ++ (if progress_callback then [EvProgress 100%Q] else [])) w).
Proof.
  intros Hready Hwf Hs Hr Hsave seq.
  destruct (slices_valid_plan img points Hwf Hs Hr) as (Hparts & Hslice & Hcat).
  fold seq in Hparts, Hslice, Hcat.
  rewrite (split_image_at_points_ready E _ _ _ _ _ _ _ _ img) by done.
  unfold split_body, call, try_except, bind, when.
  rewrite (normalize_id points Hs).
  assert (existsb (fun p => (p <=? 0) || (p >=? Z.of_nat (height img))) points
          = false) as ->.
  { apply not_true_is_false. rewrite existsb_out_of_range, Exists_exists.
    intros (p & Hin & Hp). rewrite Forall_forall in Hr. specialize (Hr p Hin). lia. }
  unfold ret at 1. fold (boundaries points (Z.of_nat (height img))). fold seq.
  rewrite (for_log _ _ (slice_events E img seq src out quality version save_as_png
                          platform progress_callback)).
  2:{ intros i w' Hi.
      apply list_elem_of_lookup in Hi as (k & Hk).
      apply lookup_seq in Hk as [Heq Hk]. simpl in Heq. subst k.
      unfold slice_events. rewrite (Hslice i Hk).
      apply split_slice_ok; [by apply Hslice|apply Hsave]. }
  unfold release. rewrite progress_run. cbn [live log remove_first].
  rewrite decide_True by done. unfold log. cbn [trace live tmp_files tmp_created].
  by rewrite <- !app_assoc.
Qed.

Lemma saved_slice_events_seq E img seq src out quality version save_as_png
    platform progress_callback (l : list nat) :
  saved (concat (slice_events E img seq src out quality version save_as_png
                   platform progress_callback <$> l))
  = omap (fun i =>
            (fun part =>
               encoded E part
                 (path_join E out
                    (slice_name (path_stem E src) (path_suffix E src) version i))
                 quality save_as_png platform None) <$> slice img seq i) l.
Proof.
  induction l as [|i l IH]; [done|].
  rewrite fmap_cons. simpl concat. rewrite saved_app, IH. simpl omap.
  unfold slice_events at 1.
  destruct (slice img seq i) as [part|]; simpl; [|done].
  rewrite saved_app. destruct progress_callback; simpl;
    by destruct (encoded _ _ _ _ _ _ _) as [[? ?] ?].
Qed.

(** C1. For a well-formed image of height [H] and a valid cut plan
    [points] (strictly ascending offsets, each with [0 < p < H]),
    [split_image_at_points] works on the boundary sequence
    [[0] + points + [H]]: it succeeds, and what it writes is, in order, the
    encoding of each slice under that slice's name.  There are exactly
    [len(points) + 1] slices, the height of each is the difference of its
    two adjacent boundaries, each keeps the mode and width of the image,
    and stacking the slices in order gives back the rows of the image
    exactly. *)
Theorem slices_partition_the_image E src (points : list Z) out quality version
    save_as_png platform progress_callback img w :
  split_ready E src out img ->
  well_formed img ->
  StronglySorted Z.lt points ->
  Forall (fun p => 0 < p < Z.of_nat (height img)) points ->
  (forall dst im, save_error E dst im = None) ->
  let seq := boundaries points (Z.of_nat (height img)) in
  let parts := slices img seq in
  (exists w',
     split_image_at_points E src points out quality version save_as_png platform
       progress_callback w = (Normal tt, w') /\
     saved (trace w') =
       saved (trace w) ++
       imap (fun i part =>
               encoded E part
                 (path_join E out
                    (slice_name (path_stem E src) (path_suffix E src) version i))
                 quality save_as_png platform None) parts) /\
  length parts = S (length points) /\
  (fun part => Z.of_nat (height part)) <$> parts
    = zip_with (fun a b => b - a) seq (tail seq) /\
  Forall (fun part => mode part = mode img /\ width part = width img) parts /\
  vconcat parts = rows img.
Proof.
  intros Hready Hwf Hs Hr Hsave seq parts.
  destruct (slices_valid_plan img points Hwf Hs Hr) as (Hparts & Hslice & Hcat).
  fold seq in Hparts, Hslice, Hcat. fold parts in Hparts, Hcat.
  assert (Hlen : length seq = S (S (length points))).
  { unfold seq, boundaries. simpl. rewrite length_app. simpl. lia. }
  split_and!.
  - rewrite (split_image_at_points_valid E src points out quality version
               save_as_png platform progress_callback img w) by done.
    fold seq. eexists. split; [reflexivity|]. cbn [trace log].
    rewrite !saved_app, saved_slice_events_seq.
    assert (saved (if progress_callback then [EvProgress 100%Q] else []) = []) as ->
      by (by destruct progress_callback).
    simpl. rewrite !app_nil_r. f_equal.
    set (enc := fun i part =>
                  encoded E part
                    (path_join E out
                       (slice_name (path_stem E src) (path_suffix E src) version i))
                    quality save_as_png platform None).
    apply list_eq. intros i. rewrite list_lookup_imap. rewrite Hparts.
    rewrite (omap_Some_fmap _ (fun i => enc i (band img (boundary seq i) (boundary seq (i + 1))))).
    2:{ intros k Hk. apply list_elem_of_lookup in Hk as (j & Hj).
        apply lookup_seq in Hj as [Heq Hj]. simpl in Heq. subst j.
        by rewrite (Hslice k Hj). }
    rewrite !list_lookup_fmap.
    change (length (points ++ [Z.of_nat (height img)]) - 0)%nat
      with (length seq - 1)%nat.
    destruct (List.seq 0 (length seq - 1) !! i) as [k|] eqn:Hk; simpl; [|done].
    apply lookup_seq in Hk as [Heq Hk]. simpl in Heq. by subst k.
  - rewrite Hparts, length_fmap, length_seq. lia.
  - rewrite Hparts. apply list_eq. intros i.
    rewrite !list_lookup_fmap, lookup_zip_with, lookup_tail.
    destruct (decide (i < length seq - 1)%nat) as [Hi|Hi].
    + rewrite lookup_seq_lt by done. simpl.
      destruct (lookup_lt_is_Some_2 seq i) as [upper Hup]; [lia|].
      destruct (lookup_lt_is_Some_2 seq (S i)) as [lower Hlo]; [lia|].
      change ((points ++ [Z.of_nat (height img)]) !! i) with (seq !! S i).
      rewrite Hup, Hlo. simpl. f_equal.
      destruct (boundaries_sorted points (Z.of_nat (height img)) Hs Hr ltac:(lia))
        as [Hsorted Hrange]. fold seq in Hsorted, Hrange.
      replace (S i) with (i + 1)%nat in Hlo by lia.
      destruct (slice_band img seq Hwf Hsorted Hrange i upper lower Hup Hlo)
        as (_ & ? & ? & ?).
      unfold boundary. rewrite Hup, Hlo. simpl. by apply height_band.
    + rewrite lookup_seq_ge by lia. simpl.
      destruct (seq !! i) as [a|]; simpl; [|done].
      change ((points ++ [Z.of_nat (height img)]) !! i) with (seq !! S i).
      rewrite (lookup_ge_None_2 seq (S i)) by lia. done.
  - rewrite Hparts. apply Forall_fmap, Forall_forall. intros i _. done.
  - done.
Qed.

Lemma well_formed_test_image m w h tag : well_formed (test_image m w h tag).
Proof.
  unfold well_formed, test_image. simpl. apply Forall_fmap, Forall_forall.
  intros y _. simpl. by rewrite length_fmap, length_seq.
Qed.

Lemma height_test_image m w h tag : height (test_image m w h tag) = h.
Proof. unfold height, test_image. simpl. by rewrite length_fmap, length_seq. Qed.

(** The worked example: a strip 5000 rows tall cut at 1200, 2400, 3600 and
    4800 gives five slices, 1200, 1200, 1200, 1200 and 200 rows tall, which
    stack back to the strip. *)
Lemma slices_partition_the_image_witness :
  split_ready strip_env "strip.png" "out" strip_5000 /\
  well_formed strip_5000 /\
  StronglySorted Z.lt [1200; 2400; 3600; 4800] /\
  Forall (fun p => 0 < p < Z.of_nat (height strip_5000)) [1200; 2400; 3600; 4800] /\
  length (slices strip_5000 (boundaries [1200; 2400; 3600; 4800] 5000)) = 5%nat /\
  (fun part => Z.of_nat (height part))
    <$> slices strip_5000 (boundaries [1200; 2400; 3600; 4800] 5000)
    = [1200; 1200; 1200; 1200; 200] /\
  vconcat (slices strip_5000 (boundaries [1200; 2400; 3600; 4800] 5000))
    = rows strip_5000.
Proof.
  assert (Hready : split_ready strip_env "strip.png" "out" strip_5000).
  { unfold split_ready. split_and!; try reflexivity; done. }
  assert (Hwf : well_formed strip_5000) by apply well_formed_test_image.
  assert (Hs : StronglySorted Z.lt [1200; 2400; 3600; 4800]).
  { repeat (constructor; [|repeat constructor; lia]). constructor. }
  assert (Hh : Z.of_nat (height strip_5000) = 5000).
  { unfold strip_5000. by rewrite height_test_image. }
  assert (Hr : Forall (fun p => 0 < p < Z.of_nat (height strip_5000))
                 [1200; 2400; 3600; 4800]).
  { rewrite Hh. repeat constructor; lia. }
  destruct (slices_partition_the_image strip_env "strip.png"
              [1200; 2400; 3600; 4800] "out" (QualityName "High") 0 false None true
              strip_5000 empty_world Hready Hwf Hs Hr ltac:(done))
    as (_ & Hlen & Hheights & _ & Hcat).
  rewrite Hh in Hlen, Hheights, Hcat.
  split_and!; try done.
Defined.

(** C6. The slicer first normalises the offsets: the list it validates is
    strictly ascending (sorted, without duplicates) and has the elements of
    the list it was given.  If any normalised offset is [<= 0] or [>= H]
    the plan is rejected: the [ValueError] for cut points outside the image
    is raised and reported, no offset is clamped and no slice is written. *)
Theorem out_of_range_offsets_rejected E src (points : list Z) out quality
    version save_as_png platform progress_callback img w :
  split_ready E src out img ->
  Exists (fun p => p <= 0 \/ p >= Z.of_nat (height img)) (normalize points) ->
  StronglySorted Z.lt (normalize points) /\
  (forall p, p ∈ normalize points <-> p ∈ points) /\
  exists w',
    split_image_at_points E src points out quality version save_as_png platform
      progress_callback w = (Normal tt, w') /\
    trace w' =
      trace w ++ [EvMkdir out;
                  EvShowError "분할 실패"
                    (ValueError "분할점이 이미지 범위를 벗어났습니다")] /\
    saved (trace w') = saved (trace w).
Proof.
  intros Hready Hbad. split_and!.
  - apply normalize_sorted.
  - apply elem_of_normalize.
  - rewrite (split_image_at_points_ready E _ _ _ _ _ _ _ _ img) by done.
    unfold split_body, call, try_except, bind, when.
    apply existsb_out_of_range in Hbad. rewrite Hbad.
    unfold raise, emit, log. cbn [trace live tmp_files tmp_created].
    eexists. split; [reflexivity|]. cbn [trace].
    rewrite <- app_assoc. split; [done|].
    rewrite !saved_app. simpl. by rewrite app_nil_r.
Qed.

Lemma out_of_range_offsets_rejected_witness :
  split_ready small_env "a.png" "out" small_source /\
  Exists (fun p => p <= 0 \/ p >= Z.of_nat (height small_source))
    (normalize [5; 0; 5]) /\
  normalize [5; 0; 5] = [0; 5] /\
  saved (trace (split_image_at_points small_env "a.png" [5; 0; 5] "out"
                  (QualityName "High") 0 false None true empty_world).2) = [].
Proof.
  assert (Hready : split_ready small_env "a.png" "out" small_source).
  { unfold split_ready. split_and!; try reflexivity; done. }
  assert (Hbad : Exists (fun p => p <= 0 \/ p >= Z.of_nat (height small_source))
                   (normalize [5; 0; 5])).
  { apply Exists_exists. exists 0. split; [|lia].
    apply elem_of_normalize. set_solver. }
  destruct (out_of_range_offsets_rejected small_env "a.png" [5; 0; 5] "out"
              (QualityName "High") 0 false None true small_source empty_world
              Hready Hbad) as (_ & _ & w' & Hrun & _ & Hsaved).
  split_and!; [done|done|by vm_compute|].
  rewrite Hrun. exact Hsaved.
Defined.

(** ** Release of the source buffer *)

(** On success the slicer leaves no buffer open that was not open before. *)
Lemma split_success_releases_source E src (points : list Z) out quality version
    save_as_png platform progress_callback img w :
  split_ready E src out img ->
  well_formed img ->
  StronglySorted Z.lt points ->
  Forall (fun p => 0 < p < Z.of_nat (height img)) points ->
  (forall dst im, save_error E dst im = None) ->
  live (split_image_at_points E src points out quality version save_as_png
          platform progress_callback w).2 = live w.
Proof.
  intros. by rewrite (split_image_at_points_valid E src points out quality version
                        save_as_png platform progress_callback img w).
Qed.

(** C9 fails on the code.  When the second of two slices cannot be
    written, [split_image_at_points] reports the failure and returns with
    the source buffer still open: [img.close()] stands after the loop,
    inside the [try] block, and is skipped by the exception. *)
Example source_left_open_when_a_slice_fails :
  exists w',
    split_image_at_points failing_env "a.png" [5] "out" (QualityName "High") 0
      false None true empty_world = (Normal tt, w') /\
    HSource "a.png" ∈ live w' /\
    (exists args part, saved (trace w') = [("out/a_000.jpg", args, part)]) /\
    last (trace w') =
      Some (EvShowError "분할 실패"
              (Wrapped "분할 2/2 처리 중 오류: "
                 (Wrapped "이미지 저장 실패: " (OSError "disk full")))).
Proof.
  eexists. split; [vm_compute; reflexivity|].
  split_and!; [set_solver|by eexists _, _|done].
Qed.

(** The same happens when the cut plan is rejected. *)
Example source_left_open_when_the_plan_is_rejected :
  HSource "a.png" ∈
    live (split_image_at_points small_env "a.png" [0] "out" (QualityName "High") 0
            false None true empty_world).2.
Proof. vm_compute. set_solver. Qed.

(** ** The decode cache *)

Lemma dict_set_absent (d : Dict) key img :
  dict_get d key = None -> dict_set d key img = d ++ [(key, img)].
Proof.
  induction d as [|[k v] d IH]; simpl; [done|].
  destruct (decide (k = key)); [done|]. intros H. by rewrite IH.
Qed.

Lemma dict_get_None (d : Dict) key : dict_get d key = None <-> key ∉ keys d.
Proof.
  unfold keys. induction d as [|[k v] d IH]; simpl.
  - split; [set_solver|done].
  - destruct (decide (k = key)) as [->|Hne].
    + split; [done|]. intros H. exfalso. apply H. left.
    + rewrite IH. rewrite not_elem_of_cons. naive_solver.
Qed.

Lemma total_size_mb_app (d1 d2 : Dict) :
  (total_size_mb (d1 ++ d2) == total_size_mb d1 + total_size_mb d2)%Q.
Proof.
  induction d1 as [|[k v] d1 IH]; simpl; [lra|]. rewrite IH. lra.
Qed.

(** The eviction loop closes a prefix of the dictionary, oldest entry
    first, keeps the size tracked equal to the sum of what is left, and
    stops either because the new entry fits or because nothing is left. *)
Lemma evict_spec (d : Dict) (cur size_mb max_mb : Q) :
  (cur == total_size_mb d)%Q ->
  exists d' cur' closed,
    evict d cur size_mb max_mb = (d', cur', closed) /\
    d = closed ++ d' /\
    (cur' == total_size_mb d')%Q /\
    ((cur' + size_mb <= max_mb)%Q \/ d' = []).
Proof.
  revert cur. induction d as [|[k v] d IH]; intros cur Hcur; simpl.
  - eexists [], cur, []. split_and!; [done|done|done|by right].
  - destruct (Qlt_le_dec max_mb (cur + size_mb)) as [Hgt|Hle].
    + destruct (IH (cur - image_size_mb v)%Q) as (d' & cur' & closed & Hev & Hd & Hc & Hstop).
      { simpl in Hcur. lra. }
      rewrite Hev. eexists d', cur', ((k, v) :: closed).
      split_and!; [done|by rewrite Hd|done|done].
    + eexists ((k, v) :: d), cur, []. split_and!; [done|done|done|by left].
Qed.

(** The eviction loop closes a prefix whatever the sizes are. *)
Lemma evict_prefix (d : Dict) (cur size_mb max_mb : Q) :
  d = (evict d cur size_mb max_mb).2 ++ (evict d cur size_mb max_mb).1.1.
Proof.
  revert cur. induction d as [|[k v] d IH]; intros cur; simpl; [done|].
  destruct (Qlt_le_dec max_mb (cur + size_mb)); [|done].
  specialize (IH (cur - image_size_mb v)%Q).
  destruct (evict d _ size_mb max_mb) as [[d' cur'] closed]. simpl in *.
  by rewrite <- IH.
Qed.

Section CacheProperties.
Context (E : Env).

Lemma add_to_cache_spec self key img :
  consistent self -> dict_get (cache self) key = None ->
  exists closed rest cur',
    _add_to_cache self key img (image_size_mb img) =
      (mkImageCache (rest ++ [(key, img)]) (max_size_mb self) cur', closed) /\
    cache self = closed ++ rest /\
    (cur' == total_size_mb (rest ++ [(key, img)]))%Q /\
    ((cur' <= max_size_mb self)%Q \/ (cur' == image_size_mb img)%Q).
Proof.
  intros Hcons Habsent. unfold _add_to_cache.
  destruct (evict_spec (cache self) (current_size_mb self) (image_size_mb img)
              (max_size_mb self) Hcons) as (d' & cur' & closed & Hev & Hd & Hc & Hstop).
  rewrite Hev. simpl.
  assert (dict_get d' key = None) as Hd'.
  { apply dict_get_None. apply dict_get_None in Habsent. rewrite Hd in Habsent.
    unfold keys in *. rewrite fmap_app in Habsent. set_solver. }
  rewrite (dict_set_absent _ _ _ Hd').
  eexists closed, d', _. split_and!; [done|done| |].
  - rewrite total_size_mb_app. simpl. lra.
  - destruct Hstop as [Hfit| ->]; [by left|right]. simpl in Hc. lra.
Qed.

(** A [get] either leaves the cache as it is and closes nothing (a hit, a
    failed decode, or a buffer too large to cache), or inserts its key,
    which was absent, behind what is left after closing a prefix. *)
Lemma ImageCache_get_spec self path dim :
  consistent self ->
  let key := cache_key path dim in
  let r := ImageCache_get E self path dim in
  (r.1.2 = self /\ r.2 = []) \/
  (dict_get (cache self) key = None /\
   exists img rest cur',
     cache_load E path dim = Some img /\
     (image_size_mb img < 50)%Q /\
     r.1.2 = mkImageCache (rest ++ [(key, img)]) (max_size_mb self) cur' /\
     cache self = r.2 ++ rest /\
     (cur' == total_size_mb (rest ++ [(key, img)]))%Q /\
     ((cur' <= max_size_mb self)%Q \/ (cur' == image_size_mb img)%Q)).
Proof.
  intros Hcons key r. unfold r, ImageCache_get. fold key.
  destruct (dict_get (cache self) key) as [hit|] eqn:Hget; [by left|].
  destruct (cache_load E path dim) as [img|] eqn:Hload; [|by left].
  destruct (Qlt_le_dec (image_size_mb img) 50) as [Hsmall|Hbig]; [|by left].
  right. split; [done|].
  destruct (add_to_cache_spec self key img Hcons Hget)
    as (closed & rest & cur' & Hadd & Hd & Hc & Hb).
  rewrite Hadd. simpl. by eexists img, rest, cur'.
Qed.

Lemma ImageCache_get_hit self path dim :
  cache_key path dim ∈ keys (cache self) ->
  ImageCache_get E self path dim
  = (dict_get (cache self) (cache_key path dim), self, []).
Proof.
  intros Hin. unfold ImageCache_get.
  destruct (dict_get (cache self) (cache_key path dim)) eqn:Hget; [done|].
  by apply dict_get_None in Hget.
Qed.

(** Hits change nothing: neither the entries, nor their order, nor the
    size tracked. *)
Lemma run_gets_hits self (hits : list (string * option Z)) :
  Forall (fun c => cache_key c.1 c.2 ∈ keys (cache self)) hits ->
  run_gets E self hits = (self, []).
Proof.
  induction 1 as [|[path dim] hits Hhit _ IH]; simpl; [done|].
  rewrite ImageCache_get_hit by done. by rewrite IH.
Qed.

Lemma ImageCache_get_preserves self path dim :
  consistent self ->
  (forall img, cache_load E path dim = Some img ->
               (image_size_mb img < 50)%Q ->
               (image_size_mb img <= max_size_mb self)%Q) ->
  (current_size_mb self <= max_size_mb self)%Q ->
  let self' := (ImageCache_get E self path dim).1.2 in
  consistent self' /\ max_size_mb self' = max_size_mb self /\
  (current_size_mb self' <= max_size_mb self')%Q.
Proof.
  intros Hcons Hfits Hle self'.
  destruct (ImageCache_get_spec self path dim Hcons)
    as [[Heq _]|(_ & img & rest & cur' & Hload & Hsmall & Heq & _ & Hc & Hb)];
    unfold self'; rewrite Heq; [done|].
  unfold consistent. simpl. split_and!; [done|done|].
  destruct Hb as [Hb|Hb]; [done|]. rewrite Hb. by apply Hfits.
Qed.

End CacheProperties.

Lemma run_gets_within_budget E (B : Q) (calls : list (string * option Z)) self :
  (forall path dim img,
     (path, dim) ∈ calls -> cache_load E path dim = Some img ->
     (image_size_mb img < 50)%Q -> (image_size_mb img <= B)%Q) ->
  consistent self -> max_size_mb self = B -> (current_size_mb self <= B)%Q ->
  (current_size_mb (run_gets E self calls).1 <= B)%Q.
Proof.
  revert self. induction calls as [|[path dim] l IH]; intros self Hf Hc Hm Hle;
    simpl; [done|].
  destruct (ImageCache_get_preserves E self path dim Hc) as (Hc' & Hm' & Hle').
  { intros img Hload Hsmall. rewrite Hm. eapply Hf; eauto. left. }
  { by rewrite Hm. }
  destruct (ImageCache_get E self path dim) as [[res self'] closed]. simpl in *.
  assert (Hm'' : max_size_mb self' = B) by congruence.
  specialize (IH self' ltac:(intros; eapply Hf; eauto; by right) Hc' Hm''
                ltac:(by rewrite <- Hm'')).
  by destruct (run_gets E self' l).
Qed.

(** C4, as the code has it.  For every budget [B] of at least 50 (MiB),
    the limit above which a buffer is not cached, and every sequence of
    [get] calls on a new cache, the size tracked is within [B] after each
    call of the sequence. *)
Theorem cache_stays_within_budget E (B : Q) (calls : list (string * option Z)) :
  (50 <= B)%Q ->
  forall n,
    (current_size_mb (run_gets E (ImageCache_init B) (take n calls)).1 <= B)%Q.
Proof.
  intros HB n. apply run_gets_within_budget.
  - intros path dim img _ _ Hsmall. lra.
  - unfold consistent. simpl. lra.
  - reflexivity.
  - simpl. lra.
Qed.

Lemma cache_stays_within_budget_witness :
  (50 <= 500)%Q /\
  (current_size_mb
     (run_gets cache_env (ImageCache_init 500)
        (take 3 preview_calls)).1
   <= 500)%Q.
Proof.
  assert (H50 : (50 <= 500)%Q) by (by vm_compute).
  split; [done|].
  apply (cache_stays_within_budget cache_env 500 preview_calls H50 3%nat).
Defined.

(** C4 as stated fails: with a budget of 1 (MiB), a single [get] of a
    buffer of about 1.03 MiB caches it, and the size tracked is above the
    budget. *)
Lemma cache_budget_can_be_exceeded :
  ~ (forall E (B : Q) (calls : list (string * option Z)),
       (current_size_mb (run_gets E (ImageCache_init B) calls).1 <= B)%Q).
Proof.
  intros H. specialize (H cache_env 1%Q [("big.png", None)]).
  vm_compute in H. by apply H.
Qed.

Lemma keys_app (d1 d2 : Dict) : keys (d1 ++ d2) = keys d1 ++ keys d2.
Proof. unfold keys. apply fmap_app. Qed.

(** A prefix of [rest ++ [x]] that holds a key absent from [rest] is the
    whole list. *)
Lemma prefix_reaching_last (closed rest rest' : Dict) (x : string * Image) :
  closed ++ rest' = rest ++ [x] -> x.1 ∈ keys closed -> x.1 ∉ keys rest ->
  closed = rest ++ [x].
Proof.
  intros Heq Hin Hnotin.
  destruct (decide (length closed <= length rest)%nat) as [Hle|Hgt].
  - exfalso. apply Hnotin.
    assert (Hcl : closed = take (length closed) rest).
    { rewrite <- (take_app_le rest [x]) by done.
      rewrite <- Heq. by rewrite take_app_length. }
    rewrite Hcl in Hin. unfold keys in *. apply list_elem_of_fmap in Hin as (e & -> & He).
    apply list_elem_of_fmap. exists e. split; [done|].
    eapply subseteq_take; eauto.
  - assert (Hlen : (length closed + length rest' = length rest + 1)%nat).
    { rewrite <- length_app, Heq, length_app. simpl. lia. }
    assert (rest' = []) as -> by (apply nil_length_inv; lia).
    by rewrite app_nil_r in Heq.
Qed.

(** C7. Eviction follows insertion order, not use.  Let [A] and then [B]
    be requested when neither is cached, and let both be cached
    afterwards.  Then any number of further [get] calls for [A] or [B] are
    hits that change nothing and close nothing, and a following [get] of
    [C] closes a prefix of the cache in insertion order: if it closes [B]
    at all, it has closed [A] before it. *)
Theorem eviction_follows_insertion_order E (self0 : ImageCache)
    (pathA pathB pathC : string) (dimA dimB dimC : option Z)
    (hits : list (string * option Z)) :
  let keyA := cache_key pathA dimA in
  let keyB := cache_key pathB dimB in
  let self1 := (ImageCache_get E self0 pathA dimA).1.2 in
  let self2 := (ImageCache_get E self1 pathB dimB).1.2 in
  let after_hits := run_gets E self2 hits in
  let closed := (ImageCache_get E after_hits.1 pathC dimC).2 in
  consistent self0 ->
  keyA ∉ keys (cache self0) -> keyB ∉ keys (cache self0) -> keyA <> keyB ->
  keyA ∈ keys (cache self2) -> keyB ∈ keys (cache self2) ->
  Forall (fun c => cache_key c.1 c.2 = keyA \/ cache_key c.1 c.2 = keyB) hits ->
  after_hits = (self2, []) /\
  (exists rest, cache self2 = closed ++ rest) /\
  (keyB ∈ keys closed ->
   exists l1 l2, keys closed = l1 ++ keyA :: l2 ++ [keyB]).
Proof.
  intros keyA keyB self1 self2 after_hits closed Hc0 HA0 HB0 Hne HA2 HB2 Hhits.
  (* the first insertion *)
  assert (Hc1 : consistent self1 /\ keyB ∉ keys (cache self1)).
  { destruct (ImageCache_get_spec E self0 pathA dimA Hc0)
      as [[Heq _]|(_ & img & rest & cur' & _ & _ & Heq & Hd & Hc & _)];
      fold self1 in Heq; rewrite Heq; [done|].
    split; [done|]. simpl. rewrite keys_app. simpl.
    rewrite Hd, keys_app in HB0. fold keyA. set_solver. }
  destruct Hc1 as [Hc1 HB1].
  (* the second insertion *)
  assert (Hshape : exists rest imgB,
             cache self2 = rest ++ [(keyB, imgB)] /\ keyB ∉ keys rest /\
             keyA ∈ keys rest /\ consistent self2).
  { destruct (ImageCache_get_spec E self1 pathB dimB Hc1)
      as [[Heq _]|(_ & img & rest & cur' & _ & _ & Heq & Hd & Hc & _)];
      fold self2 in Heq.
    - rewrite Heq in HB2. done.
    - exists rest, img. fold keyB in Heq. rewrite Heq in HA2 |- *. simpl in *.
      rewrite keys_app in HA2. simpl in HA2.
      rewrite Hd, keys_app in HB1.
      split_and!; [done|set_solver|set_solver|done]. }
  destruct Hshape as (rest & imgB & Hcache2 & HBrest & HArest & Hc2).
  (* the hits *)
  assert (Hafter : after_hits = (self2, [])).
  { unfold after_hits. apply run_gets_hits.
    eapply Forall_impl; [exact Hhits|]. intros c [-> | ->]; done. }
  split; [done|].
  unfold closed. rewrite Hafter. simpl.
  destruct (ImageCache_get_spec E self2 pathC dimC Hc2)
    as [[_ Hcl]|(_ & img & rest' & cur' & _ & _ & _ & Hd & _ & _)].
  - rewrite Hcl. split; [by exists (cache self2)|]. unfold keys. set_solver.
  - split; [by exists rest'|]. intros HBclosed.
    rewrite Hcache2 in Hd.
    rewrite (prefix_reaching_last _ rest rest' (keyB, imgB)) by done.
    rewrite keys_app. simpl.
    apply list_elem_of_split in HArest as (l1 & l2 & ->).
    exists l1, l2. by rewrite <- app_assoc.
Qed.

Ltac eval_elem_of :=
  match goal with
  | |- ?k ∈ ?l =>
      let l' := eval vm_compute in l in
      let k' := eval vm_compute in k in
      change (k' ∈ l'); set_solver
  end.

Lemma eviction_follows_insertion_order_witness :
  consistent (ImageCache_init tiny_budget) /\
  keys (run_gets cache_env (ImageCache_init tiny_budget)
          ([("a.png", None); ("b.png", None)] ++ hits_on_a_and_b)).1.(cache)
    = ["a.png_None"; "b.png_None"] /\
  keys (ImageCache_get cache_env
          (run_gets cache_env (ImageCache_init tiny_budget)
             ([("a.png", None); ("b.png", None)] ++ hits_on_a_and_b)).1
          "c.png" None).2 = ["a.png_None"] /\
  (exists rest,
     cache (ImageCache_get cache_env
              (ImageCache_get cache_env (ImageCache_init tiny_budget) "a.png" None).1.2
              "b.png" None).1.2
     = (ImageCache_get cache_env
          (run_gets cache_env
             (ImageCache_get cache_env
                (ImageCache_get cache_env (ImageCache_init tiny_budget) "a.png" None).1.2
                "b.png" None).1.2 hits_on_a_and_b).1 "c.png" None).2 ++ rest).
Proof.
  assert (Hc0 : consistent (ImageCache_init tiny_budget)) by (by vm_compute).
  destruct (eviction_follows_insertion_order cache_env (ImageCache_init tiny_budget)
              "a.png" "b.png" "c.png" None None None hits_on_a_and_b Hc0)
    as (_ & Hprefix & _).
  - apply not_elem_of_nil.
  - apply not_elem_of_nil.
  - done.
  - eval_elem_of.
  - eval_elem_of.
  - unfold hits_on_a_and_b.
    repeat (constructor; [first [by left | by right]|]). constructor.
  - split_and!; [done|by vm_compute|by vm_compute|exact Hprefix].
Defined.

(** ** Merging *)

Section Merge.
Context (E : Env).

Lemma is_set_never cancel_event site w :
  never_set cancel_event ->
  exists evs, saved evs = [] /\
              is_set cancel_event site w = (Normal false, log evs w).
Proof.
  intros Hnever. destruct cancel_event as [ev|]; simpl in *.
  - exists [EvIsSet site false]. split; [done|].
    unfold bind, emit, ret. by rewrite Hnever.
  - exists []. split; [done|]. unfold ret. by rewrite log_nil.
Qed.

Lemma progress_quiet cb p w :
  exists evs, saved evs = [] /\ progress cb p w = (Normal tt, log evs w).
Proof.
  rewrite progress_run. eexists. split; [|done]. by destruct cb.
Qed.

(** A loop whose every turn computes [f] and adds events that write no
    file computes the fold of [f] and writes no file. *)
Lemma foldM_quiet {A S} (l : list A) (body : S -> A -> M S) (f : S -> A -> S) s w :
  (forall s a w, a ∈ l ->
     exists evs, saved evs = [] /\ body s a w = (Normal (f s a), log evs w)) ->
  exists evs, saved evs = [] /\ foldM l body s w = (Normal (foldl f s l), log evs w).
Proof.
  revert s w. induction l as [|a l IH]; intros s w Hbody; simpl.
  - exists []. split; [done|]. unfold ret. by rewrite log_nil.
  - destruct (Hbody s a w ltac:(left)) as (evs1 & Hq1 & Hrun1).
    destruct (IH (f s a) (log evs1 w) ltac:(intros; apply Hbody; by right))
      as (evs2 & Hq2 & Hrun2).
    exists (evs1 ++ evs2). split.
    + by rewrite saved_app, Hq1, Hq2.
    + unfold bind. by rewrite Hrun1, Hrun2, log_log.
Qed.

(** *** The first pass *)

Lemma collect_info_quiet task cb cancel_event st item w :
  never_set cancel_event -> is_Some (Image_open E item.2) ->
  exists evs, saved evs = [] /\
    collect_info E task cb cancel_event st item w = (Normal (info_step E st item), log evs w).
Proof.
  intros Hnever [img Himg]. destruct st as [[infos th] mw]. destruct item as [i fp].
  unfold collect_info, info_step, bind. simpl in *.
  destruct (is_set_never cancel_event (BeforeInfo i) w Hnever) as (evs1 & Hq1 & ->).
  unfold get_image_info. rewrite Himg.
  destruct (progress_quiet cb
              (inject_Z (Z.of_nat i) / inject_Z (Z.of_nat (length (files task))) * 20)%Q
              (log evs1 w)) as (evs2 & Hq2 & ->).
  exists (evs1 ++ evs2). split; [by rewrite saved_app, Hq1, Hq2|].
  unfold ret. by rewrite log_log.
Qed.

Lemma foldl_info_step (items : list (nat * string)) (imgs : list Image) infos th mw :
  Forall2 (fun item img => Image_open E item.2 = Some img) items imgs ->
  0 <= mw ->
  exists infos',
    foldl (info_step E) (infos, th, mw) items =
      (infos ++ infos', th + total_height_of imgs,
       Z.max mw (max_width_of imgs)) /\
    length infos' = length items.
Proof.
  intros H. revert infos th mw.
  induction H as [|[i fp] img items imgs Himg _ IH]; intros infos th mw Hmw; simpl.
  - exists []. split; [|done]. rewrite app_nil_r.
    unfold total_height_of, max_width_of. simpl.
    by rewrite Z.add_0_r, Z.max_l by lia.
  - unfold info_step at 2. unfold get_image_info. simpl in *. rewrite Himg. simpl.
    destruct (IH (infos ++ [mkImageInfo fp (Z.of_nat (width img)) (Z.of_nat (height img))
                              (path_st_size E fp) (file_format E fp)])
                 (th + Z.of_nat (height img)) (Z.max mw (Z.of_nat (width img)))
                 ltac:(lia))
      as (infos' & -> & Hlen).
    eexists (_ :: infos'). split; [|simpl; by rewrite Hlen].
    rewrite <- app_assoc. simpl.
    unfold total_height_of, max_width_of. simpl.
    by rewrite Z.add_assoc, Z.max_assoc.
Qed.

(** *** The last step *)

Lemma save_composite_run task composite w :
  exists evs,
    save_composite E task composite w = ((save_outcome E task composite).1, log evs w) /\
    saved evs = (save_outcome E task composite).2.
Proof.
  unfold save_composite, save_outcome, mkdir, bind.
  destruct (mkdir_error E _) as [e|].
  - exists []. unfold raise. by rewrite log_nil.
  - unfold emit. rewrite save_image_with_quality_run.
    destruct (encoded E composite _ _ _ _ _) as [[dst' args] img'] eqn:Henc. simpl.
    destruct (save_error E dst' img') as [e|].
    + by exists [EvMkdir (path_parent E (output_path task))].
    + exists [EvMkdir (path_parent E (output_path task)); EvSave dst' args img'].
      by rewrite log_log.
Qed.

(** *** The compositing loop *)

Lemma composite_one_run task m max_width merged y_offset fp img w :
  merge_source E fp = Some img ->
  composite_one E task m max_width merged y_offset fp w =
  (Normal (Some (composite_fun E task m max_width (merged, y_offset)
                   (0%nat, (fp, mkImageInfo "" 0 0 0 "")))), w).
Proof.
  intros Hsrc. unfold composite_fun. simpl. rewrite Hsrc.
  unfold merge_source in Hsrc.
  unfold composite_one, try_finally, try_except, bind.
  destruct (is_psd E fp).
  - rewrite load_psd_image_pure.
    destruct (load_psd_image E fp 2048 empty_world) as [[o| |e] w0];
      simpl in *; simplify_eq.
    unfold acquire, ret, release. simpl.
    rewrite decide_True by done. by destruct w.
  - unfold of_option, ret. rewrite Hsrc.
    unfold acquire, ret, release. simpl.
    rewrite decide_True by done. by destruct w.
Qed.

Lemma composite_step_quiet task m max_width cb cancel_event st item w :
  never_set cancel_event -> is_Some (merge_source E item.2.1) ->
  exists evs, saved evs = [] /\
    composite_step E task m max_width cb cancel_event st item w =
      (Normal (composite_fun E task m max_width st item), log evs w).
Proof.
  intros Hnever [img Himg]. destruct st as [merged y]. destruct item as [i [fp info]].
  unfold composite_step, bind. simpl in *.
  destruct (is_set_never cancel_event (BeforeFile i) w Hnever) as (evs1 & Hq1 & ->).
  rewrite (composite_one_run _ _ _ _ _ _ img) by done.
  destruct (progress_quiet cb
              (20 + inject_Z (Z.of_nat i + 1)
                    / inject_Z (Z.of_nat (length (files task))) * 70)%Q
              (log evs1 w)) as (evs2 & Hq2 & ->).
  exists (evs1 ++ evs2). split; [by rewrite saved_app, Hq1, Hq2|].
  unfold ret. rewrite log_log. unfold composite_fun. simpl. by rewrite Himg.
Qed.

Lemma foldl_composite_fun task m max_width
    (items : list (nat * (string * ImageInfo))) (imgs : list Image) merged y :
  Forall2 (fun item img => merge_source E item.2.1 = Some img) items imgs ->
  let imgs' := (fun img => convert_for E m (platform_resize E (platform task) img))
                 <$> imgs in
  foldl (composite_fun E task m max_width) (merged, y) items =
  (foldl (fun acc p => paste E acc p.1 p.2) merged (place_from max_width y imgs'),
   y + total_height_of imgs').
Proof.
  intros H. revert merged y.
  induction H as [|item img items imgs Himg _ IH]; intros merged y; simpl.
  - unfold total_height_of. simpl. by rewrite Z.add_0_r.
  - unfold composite_fun at 2. rewrite Himg. simpl. rewrite IH.
    unfold total_height_of. simpl. by rewrite Z.add_assoc.
Qed.

Lemma placements_place_from (imgs : list Image) :
  placements imgs = place_from (max_width_of imgs) 0 imgs.
Proof.
  unfold placements, y_offset_of. generalize (max_width_of imgs) as mw. intros mw.
  assert (Hgen : forall y0 l,
             imap (fun i img => (img, (x_offset_in mw img, y0 + total_height_of (take i l)))) l
             = place_from mw y0 l).
  { intros y0 l. revert y0. induction l as [|img l IH]; intros y0; [done|].
    rewrite imap_cons. simpl. unfold total_height_of at 1. simpl.
    rewrite Z.add_0_r. f_equal. rewrite <- IH.
    apply imap_ext. intros i x _. simpl. unfold total_height_of. simpl.
    by rewrite Z.add_assoc. }
  rewrite <- Hgen. apply imap_ext. intros. simpl. by rewrite Z.add_0_l.
Qed.

Lemma width_foldl_paste (merged : Image) (ps : list (Image * (Z * Z))) :
  let r := foldl (fun acc p => paste E acc p.1 p.2) merged ps in
  width r = width merged /\ height r = height merged /\ mode r = mode merged.
Proof.
  revert merged. induction ps as [|p ps IH]; intros merged; simpl; [done|].
  destruct (IH (paste E merged p.1 p.2)) as (-> & -> & ->).
  unfold paste, paste_raw, paste_rows, height. simpl. by rewrite length_imap.
Qed.

End Merge.

Lemma Forall2_zip_snd {A B I} (P : A -> B -> Prop) (idxs : list I) (l : list A)
    (k : list B) :
  length idxs = length l -> Forall2 P l k ->
  Forall2 (fun item b => P item.2 b) (zip idxs l) k.
Proof.
  intros Hlen H. revert idxs Hlen.
  induction H as [|a b l k Hab _ IH]; intros [|i idxs] Hlen; simpl in *;
    try done; constructor; [done|]. apply IH. lia.
Qed.

Lemma Forall2_zip_fst {A B C} (P : A -> B -> Prop) (l : list A) (cs : list C)
    (k : list B) :
  length cs = length l -> Forall2 P l k ->
  Forall2 (fun item b => P item.1 b) (zip l cs) k.
Proof.
  intros Hlen H. revert cs Hlen.
  induction H as [|a b l k Hab _ IH]; intros [|c cs] Hlen; simpl in *;
    try done; constructor; [done|]. apply IH. lia.
Qed.

Lemma Forall2_enumerate {A B} (P : A -> B -> Prop) (l : list A) (k : list B) :
  Forall2 P l k -> Forall2 (fun item b => P item.2 b) (enumerate l) k.
Proof. intros. apply Forall2_zip_snd; [by rewrite length_seq|done]. Qed.

Lemma max_width_of_nonneg imgs : 0 <= max_width_of imgs.
Proof. unfold max_width_of. induction imgs; csimpl; lia. Qed.

Lemma total_height_of_nonneg imgs : 0 <= total_height_of imgs.
Proof. unfold total_height_of. induction imgs; csimpl; lia. Qed.

Lemma Image_new_blank m w h :
  0 <= w -> 0 <= h -> Image_new m (w, h) (bg_color m) = Some (blank m w h).
Proof. intros. unfold Image_new. by rewrite decide_False by lia. Qed.

Section MergeRuns.
Context (E : Env).

Lemma convert_for_size m img :
  conversions_keep_size E ->
  width (convert_for E m img) = width img /\
  height (convert_for E m img) = height img.
Proof.
  intros Hkeep. unfold convert_for.
  destruct (Hkeep img M_RGBA) as (? & ? & ? & ?).
  destruct (Hkeep img M_RGB) as (? & ? & _ & _).
  repeat case_decide; done.
Qed.

Lemma convert_for_sizes m imgs :
  conversions_keep_size E ->
  max_width_of (convert_for E m <$> imgs) = max_width_of imgs /\
  total_height_of (convert_for E m <$> imgs) = total_height_of imgs.
Proof.
  intros Hkeep. unfold max_width_of, total_height_of.
  induction imgs as [|img imgs [IH1 IH2]]; csimpl; [done|].
  destruct (convert_for_size m img Hkeep) as [-> ->]. by rewrite IH1, IH2.
Qed.

Lemma platform_resize_none platform img :
  platform_spec E platform = None -> platform_resize E platform img = img.
Proof. intros H. unfold platform_resize. by rewrite H. Qed.

(** The first pass when nothing cancels and every file opens. *)
Lemma info_pass_run task cb cancel_event (imgs : list Image) w :
  never_set cancel_event ->
  Forall2 (fun fp img => Image_open E fp = Some img) (files task) imgs ->
  exists evs infos,
    saved evs = [] /\ length infos = length (files task) /\
    foldM (enumerate (files task)) (collect_info E task cb cancel_event) ([], 0, 0) w
    = (Normal (infos, total_height_of imgs, max_width_of imgs), log evs w).
Proof.
  intros Hnever Hopen.
  pose proof (Forall2_enumerate _ _ _ Hopen) as Hitems.
  destruct (foldM_quiet (enumerate (files task))
              (collect_info E task cb cancel_event) (info_step E) ([], 0, 0) w)
    as (evs & Hq & Hrun).
  { intros st item w' Hin. apply collect_info_quiet; [done|].
    apply list_elem_of_lookup in Hin as (i & Hi).
    destruct (Forall2_lookup_l _ _ _ _ _ Hitems Hi) as (img & _ & Himg). by exists img. }
  destruct (foldl_info_step E _ _ [] 0 0 Hitems ltac:(lia)) as (infos & Hfold & Hlen).
  exists evs, infos. split_and!; [done| |].
  - rewrite Hlen. unfold enumerate. rewrite length_zip_with, length_seq. lia.
  - rewrite Hrun, Hfold. simpl. rewrite Z.max_r by apply max_width_of_nonneg. done.
Qed.

(** The compositing loop when nothing cancels and every file decodes. *)
Lemma composite_pass_run task m cb cancel_event (imgs : list Image)
    (infos : list ImageInfo) max_width merged w :
  never_set cancel_event ->
  length infos = length (files task) ->
  Forall2 (fun fp img => merge_source E fp = Some img) (files task) imgs ->
  platform_spec E (platform task) = None ->
  exists evs,
    saved evs = [] /\
    foldM (enumerate (zip (files task) infos))
      (composite_step E task m max_width cb cancel_event) (merged, 0) w
    = (Normal (foldl (fun acc p => paste E acc p.1 p.2) merged
                 (place_from max_width 0 (convert_for E m <$> imgs)),
               total_height_of (convert_for E m <$> imgs)),
       log evs w).
Proof.
  intros Hnever Hlen Hsrc Hnone.
  assert (Hitems : Forall2 (fun item img => merge_source E item.2.1 = Some img)
                     (enumerate (zip (files task) infos)) imgs).
  { apply (Forall2_enumerate (fun (x : string * ImageInfo) img =>
                                merge_source E x.1 = Some img)).
    by apply (Forall2_zip_fst (fun fp img => merge_source E fp = Some img)). }
  destruct (foldM_quiet (enumerate (zip (files task) infos))
              (composite_step E task m max_width cb cancel_event)
              (composite_fun E task m max_width) (merged, 0) w)
    as (evs & Hq & Hrun).
  { intros st item w' Hin. apply composite_step_quiet; [done|].
    apply list_elem_of_lookup in Hin as (i & Hi).
    destruct (Forall2_lookup_l _ _ _ _ _ Hitems Hi) as (img & _ & Himg). by exists img. }
  exists evs. split; [done|]. rewrite Hrun.
  rewrite (foldl_composite_fun E task m max_width _ imgs merged 0 Hitems). simpl.
  assert (Hid : (fun img => convert_for E m (platform_resize E (platform task) img)) <$> imgs
                = convert_for E m <$> imgs).
  { apply list_fmap_ext. intros i img _. by rewrite platform_resize_none. }
  by rewrite Hid.
Qed.

(** The in-memory path, up to how the last step ends, when converting the
    sources changes neither the largest width nor the sum of the
    heights. *)
Lemma merge_in_memory_run threshold_mb task cb cancel_event (imgs : list Image) w :
  files task <> [] ->
  merge_sources E task imgs ->
  platform_spec E (platform task) = None ->
  never_set cancel_event ->
  max_width_of imgs * total_height_of imgs <= PIL_MAX_PIXELS ->
  max_width_of imgs * total_height_of imgs * 4 <= threshold_mb * MiB ->
  new_error E (max_width_of imgs, total_height_of imgs) = None ->
  let m := composite_mode (save_as_png task) in
  max_width_of (convert_for E m <$> imgs) = max_width_of imgs ->
  total_height_of (convert_for E m <$> imgs) = total_height_of imgs ->
  let composite := stacked E m (convert_for E m <$> imgs) in
  exists w',
    merge_images_advanced_with E threshold_mb task cb cancel_event w
    = ((save_outcome E task composite).1, w') /\
    saved (trace w') = saved (trace w) ++ (save_outcome E task composite).2.
Proof.
  intros Hfiles Hsrc Hnone Hnever Hpix Hmem Hnew m Hmw Hth composite.
  assert (Hopen : Forall2 (fun fp img => Image_open E fp = Some img) (files task) imgs).
  { eapply Forall2_impl; [exact Hsrc|]. by intros ?? [? ?]. }
  assert (Hdec : Forall2 (fun fp img => merge_source E fp = Some img) (files task) imgs).
  { eapply Forall2_impl; [exact Hsrc|]. by intros ?? [? ?]. }
  unfold merge_images_advanced_with, call.
  destruct (files task) as [|fp0 fps] eqn:Hf; [done|]. rewrite <- Hf in *.
  unfold bind at 1.
  destruct (info_pass_run task cb cancel_event imgs w Hnever Hopen)
    as (evs1 & infos & Hq1 & Hlen & ->).
  unfold when, bind.
  rewrite bool_decide_eq_false_2 by lia.
  unfold ret at 1.
  rewrite bool_decide_eq_false_2 by lia.
  unfold merge_in_memory. rewrite Hnone. fold m.
  unfold bind at 1. unfold try_except, new_image. rewrite Hnew.
  rewrite Image_new_blank
    by (apply max_width_of_nonneg || apply total_height_of_nonneg).
  unfold of_option, ret at 1. unfold bind at 1. unfold acquire. unfold bind at 1.
  match goal with
  | |- context [foldM _ _ (?mg, 0) ?w1] =>
      destruct (composite_pass_run task m cb cancel_event imgs infos
                  (max_width_of imgs) mg w1 Hnever Hlen Hdec Hnone)
        as (evs2 & Hq2 & ->)
  end.
  cbn [fst].
  assert (Hcomp : foldl (fun acc p => paste E acc p.1 p.2)
                    (blank m (max_width_of imgs) (total_height_of imgs))
                    (place_from (max_width_of imgs) 0 (convert_for E m <$> imgs))
                  = composite).
  { unfold composite, stacked. by rewrite placements_place_from, Hmw, Hth. }
  rewrite Hcomp.
  unfold try_finally, bind.
  match goal with
  | |- context [save_composite E task composite ?w2] =>
      destruct (save_composite_run E task composite w2) as (evs3 & -> & Hq3)
  end.
  destruct (save_outcome E task composite) as [[[]| |e] out] eqn:Hout; simpl in *.
  - rewrite progress_run. unfold release. simpl.
    eexists. split; [reflexivity|]. simpl.
    rewrite !saved_app, Hq1, Hq2, Hq3.
    assert (saved (if cb then [EvProgress 100%Q] else []) = []) as ->
      by (by destruct cb).
    by rewrite !app_nil_r.
  - exfalso. unfold save_outcome in Hout. repeat case_match; simplify_eq.
  - unfold release. simpl. eexists. split; [reflexivity|]. simpl.
    rewrite !saved_app, Hq1, Hq2, Hq3. by rewrite !app_nil_r.
Qed.

End MergeRuns.

Lemma total_height_of_take_fmap (f : Image -> Image) (imgs : list Image) i :
  (forall img, height (f img) = height img) ->
  total_height_of (take i (f <$> imgs)) = total_height_of (take i imgs).
Proof.
  intros Hf. unfold total_height_of. revert i.
  induction imgs as [|img imgs IH]; intros [|i]; csimpl; try done.
  by rewrite Hf, IH.
Qed.

Lemma width_test_image m w h tag : width (test_image m w h tag) = w.
Proof. reflexivity. Qed.

Lemma total_height_of_cons img imgs :
  total_height_of (img :: imgs) = Z.of_nat (height img) + total_height_of imgs.
Proof. reflexivity. Qed.

Lemma max_width_of_cons img imgs :
  max_width_of (img :: imgs) = Z.max (Z.of_nat (width img)) (max_width_of imgs).
Proof. reflexivity. Qed.

(** *** Where the pixels of a composite come from *)

Lemma lookup_paste_row x (srow drow : list pixel) (X : nat) :
  paste_row x srow drow !! X
  = (fun p => default p (lookupZ srow (Z.of_nat X - x))) <$> drow !! X.
Proof. unfold paste_row. by rewrite list_lookup_imap. Qed.

Lemma lookup_paste_rows x y (srows drows : list (list pixel)) (Y : nat) :
  paste_rows x y srows drows !! Y
  = (fun r => match lookupZ srows (Z.of_nat Y - y) with
              | Some s => paste_row x s r
              | None => r
              end) <$> drows !! Y.
Proof. unfold paste_rows. by rewrite list_lookup_imap. Qed.

Lemma lookupZ_None_outside {A} (l : list A) z :
  z < 0 \/ Z.of_nat (length l) <= z -> lookupZ l z = None.
Proof.
  intros Hz. unfold lookupZ. case_decide; [|done].
  apply lookup_ge_None. lia.
Qed.

(** A row outside the band a paste covers is left as it was. *)
Lemma lookup_paste_raw_outside (dest src : Image) x y (Y : nat) :
  Z.of_nat Y < y \/ y + Z.of_nat (height src) <= Z.of_nat Y ->
  rows (paste_raw dest src (x, y)) !! Y = rows dest !! Y.
Proof.
  intros HY. unfold paste_raw. simpl. rewrite lookup_paste_rows.
  rewrite lookupZ_None_outside by (unfold height in HY; lia).
  by destruct (rows dest !! Y).
Qed.

(** A row inside the band gets the source row pasted at the horizontal
    offset. *)
Lemma lookup_paste_raw_inside (dest src : Image) x y (Y k : nat) srow :
  Z.of_nat Y = y + Z.of_nat k ->
  rows src !! k = Some srow ->
  rows (paste_raw dest src (x, y)) !! Y = paste_row x srow <$> rows dest !! Y.
Proof.
  intros HY Hk. unfold paste_raw. simpl. rewrite lookup_paste_rows.
  replace (Z.of_nat Y - y) with (Z.of_nat k) by lia.
  by rewrite lookupZ_of_nat, Hk.
Qed.

Section Layout.
Context (E : Env).

Lemma paste_same_mode (dest src : Image) xy :
  mode src = mode dest -> paste E dest src xy = paste_raw dest src xy.
Proof. intros Hm. unfold paste. by rewrite decide_True. Qed.

Lemma total_height_of_app (l k : list Image) :
  total_height_of (l ++ k) = total_height_of l + total_height_of k.
Proof.
  unfold total_height_of. induction l as [|a l IH]; csimpl; [done|].
  rewrite IH. lia.
Qed.

(** The band of source [i] lies within the composite. *)
Lemma total_height_of_take_lookup (imgs : list Image) i s :
  imgs !! i = Some s ->
  0 <= total_height_of (take i imgs) /\
  total_height_of (take i imgs) + Z.of_nat (height s) <= total_height_of imgs.
Proof.
  intros Hi. split; [apply total_height_of_nonneg|].
  rewrite <- (take_drop_middle imgs i s Hi) at 2.
  rewrite total_height_of_app, total_height_of_cons.
  pose proof (total_height_of_nonneg (drop (S i) imgs)). lia.
Qed.

Lemma width_le_max_width_of (imgs : list Image) i s :
  imgs !! i = Some s -> Z.of_nat (width s) <= max_width_of imgs.
Proof.
  revert i. induction imgs as [|a imgs IH]; intros [|i] Hi; simplify_eq/=.
  - rewrite max_width_of_cons. lia.
  - rewrite max_width_of_cons. specialize (IH i Hi). lia.
Qed.

(** Pasting sources below one another leaves the rows outside their bands
    as they were. *)
Lemma foldl_paste_outside max_width (imgs : list Image) (merged : Image) y0 (Y : nat) :
  Forall (fun s => mode s = mode merged) imgs ->
  Z.of_nat Y < y0 \/ y0 + total_height_of imgs <= Z.of_nat Y ->
  rows (foldl (fun acc p => paste E acc p.1 p.2) merged (place_from max_width y0 imgs)) !! Y
  = rows merged !! Y.
Proof.
  revert merged y0. induction imgs as [|a imgs IH]; intros merged y0 Hmode HY; [done|].
  apply Forall_cons in Hmode as [Ha Hmode]. cbn [place_from foldl fst snd].
  rewrite total_height_of_cons in HY.
  pose proof (total_height_of_nonneg imgs).
  rewrite paste_same_mode by done.
  rewrite IH; [|done|lia].
  apply lookup_paste_raw_outside. lia.
Qed.

(** Row [k] of source [i] is pasted, at the horizontal offset of the
    source, into the row of the composite that lies [k] below the sum of
    the heights of the sources before it. *)
Lemma foldl_paste_inside max_width (imgs : list Image) (merged : Image) y0 i s k srow
    (Y : nat) :
  Forall (fun s => mode s = mode merged) imgs ->
  imgs !! i = Some s ->
  rows s !! k = Some srow ->
  Z.of_nat Y = y0 + total_height_of (take i imgs) + Z.of_nat k ->
  rows (foldl (fun acc p => paste E acc p.1 p.2) merged (place_from max_width y0 imgs)) !! Y
  = paste_row (x_offset_in max_width s) srow <$> rows merged !! Y.
Proof.
  revert merged y0 i. induction imgs as [|a imgs IH]; intros merged y0 i Hmode Hi Hk HY;
    [done|].
  apply Forall_cons in Hmode as [Ha Hmode]. cbn [place_from foldl fst snd].
  rewrite paste_same_mode by done.
  assert (Hklt : (k < height s)%nat) by (by apply lookup_lt_Some in Hk).
  destruct i as [|i]; simplify_eq/=.
  - unfold total_height_of in HY. simpl in HY.
    rewrite foldl_paste_outside; [|done|lia].
    by apply (lookup_paste_raw_inside _ _ _ _ _ k); [lia|].
  - rewrite total_height_of_cons in HY.
    pose proof (total_height_of_nonneg (take i imgs)).
    rewrite (IH _ (y0 + Z.of_nat (height a)) i); [|done|done|done|lia].
    f_equal. apply lookup_paste_raw_outside. lia.
Qed.

(** The pixels of a band of the stacked composite: those of the source
    within its columns, the background beside it. *)
Lemma stacked_pixel m (sources : list Image) i s (X y : Z) :
  Forall (fun s => mode s = m) sources ->
  Forall well_formed sources ->
  sources !! i = Some s ->
  0 <= y < Z.of_nat (height s) ->
  0 <= X < max_width_of sources ->
  pixel_at (stacked E m sources) X (total_height_of (take i sources) + y)
  = if decide (x_offset_in (max_width_of sources) s <= X
               < x_offset_in (max_width_of sources) s + Z.of_nat (width s))
    then pixel_at s (X - x_offset_in (max_width_of sources) s) y
    else bg_color m.
Proof.
  intros Hmode Hwf Hi Hy HX.
  destruct (total_height_of_take_lookup sources i s Hi) as [Hy0 Hy1].
  destruct (lookup_lt_is_Some_2 (rows s) (Z.to_nat y)) as [srow Hrow];
    [unfold height in Hy; lia|].
  assert (Hlen : length srow = width s).
  { rewrite Forall_forall in Hwf. specialize (Hwf s (list_elem_of_lookup_2 _ _ _ Hi)).
    unfold well_formed in Hwf. rewrite Forall_forall in Hwf.
    apply Hwf. by eapply list_elem_of_lookup_2. }
  set (Y := Z.to_nat (total_height_of (take i sources) + y)).
  assert (Hcomp : rows (stacked E m sources) !! Y
                  = Some (paste_row (x_offset_in (max_width_of sources) s) srow
                            (replicate (Z.to_nat (max_width_of sources)) (bg_color m)))).
  { unfold stacked. rewrite placements_place_from.
    rewrite (foldl_paste_inside _ _ _ 0 i s (Z.to_nat y) srow Y); [|done|done|done|lia].
    unfold blank. simpl. rewrite lookup_replicate_2 by lia. done. }
  unfold pixel_at at 1.
  replace (total_height_of (take i sources) + y) with (Z.of_nat Y) by lia.
  rewrite lookupZ_of_nat, Hcomp.
  replace X with (Z.of_nat (Z.to_nat X)) at 1 by lia.
  rewrite lookupZ_of_nat, lookup_paste_row, lookup_replicate_2 by lia. simpl.
  rewrite Z2Nat.id by lia.
  case_decide as Hin.
  - assert (Hrow' : lookupZ (rows s) y = Some srow).
    { unfold lookupZ. by rewrite decide_True by lia. }
    unfold pixel_at. rewrite Hrow'.
    destruct (lookup_lt_is_Some_2 srow (Z.to_nat (X - x_offset_in (max_width_of sources) s)))
      as [p Hp]; [lia|].
    unfold lookupZ. rewrite decide_True by lia. by rewrite Hp.
  - rewrite lookupZ_None_outside by lia. done.
Qed.

Lemma convert_for_mode m img :
  conversions_give_mode E -> m = M_RGB \/ m = M_RGBA -> mode (convert_for E m img) = m.
Proof.
  intros [Hconv Hflat] Hm. unfold convert_for.
  repeat case_decide; rewrite ?Hconv, ?Hflat; destruct Hm; congruence.
Qed.

Lemma x_offset_in_bounds max_width s :
  Z.of_nat (width s) <= max_width ->
  0 <= x_offset_in max_width s /\
  x_offset_in max_width s + Z.of_nat (width s) <= max_width.
Proof.
  intros Hw. unfold x_offset_in.
  pose proof (Z.div_pos (max_width - Z.of_nat (width s)) 2 ltac:(lia) ltac:(lia)).
  pose proof (Z.mul_div_le (max_width - Z.of_nat (width s)) 2 ltac:(lia)). lia.
Qed.

End Layout.

(** C5. An in-memory merge with no platform constraint that runs to its
    end (no cancellation, every file decodes to the buffer whose size was
    read, the composite is within the pixel limit and the streaming
    threshold, and the output can be written) writes one file, the
    encoding of a composite whose width is the largest source width and
    whose height is the sum of the source heights.  Every pixel of every
    source, as converted to the mode of the composite, is found in the
    composite at the horizontal offset [(max_width - width) // 2] and at
    the vertical offset that is the sum of the heights of the sources
    before it; beside a source the composite shows the background. *)
Theorem in_memory_merge_layout E task cb cancel_event (imgs : list Image) w :
  files task <> [] ->
  merge_sources E task imgs ->
  platform_spec E (platform task) = None ->
  never_set cancel_event ->
  conversions_keep_size E ->
  conversions_give_mode E ->
  max_width_of imgs * total_height_of imgs <= PIL_MAX_PIXELS ->
  max_width_of imgs * total_height_of imgs * 4 <= 1000 * MiB ->
  new_error E (max_width_of imgs, total_height_of imgs) = None ->
  mkdir_error E (path_parent E (output_path task)) = None ->
  (forall dst im, save_error E dst im = None) ->
  let m := composite_mode (save_as_png task) in
  let sources := convert_for E m <$> imgs in
  Forall well_formed sources ->
  let composite := stacked E m sources in
  (exists w',
     merge_images_advanced E task cb cancel_event w = (Normal tt, w') /\
     saved (trace w') =
       saved (trace w) ++
       [encoded E composite (output_path task) (quality task) (save_as_png task)
          (platform task) None]) /\
  Z.of_nat (width composite) = max_width_of imgs /\
  Z.of_nat (height composite) = total_height_of imgs /\
  (forall i s x y,
     sources !! i = Some s ->
     0 <= x < Z.of_nat (width s) -> 0 <= y < Z.of_nat (height s) ->
     pixel_at composite
       ((max_width_of imgs - Z.of_nat (width s)) `div` 2 + x)
       (total_height_of (take i imgs) + y)
     = pixel_at s x y) /\
  (forall i s X y,
     sources !! i = Some s ->
     0 <= y < Z.of_nat (height s) ->
     0 <= X < (max_width_of imgs - Z.of_nat (width s)) `div` 2 \/
     (max_width_of imgs - Z.of_nat (width s)) `div` 2 + Z.of_nat (width s) <= X
       < max_width_of imgs ->
     pixel_at composite X (total_height_of (take i imgs) + y) = bg_color m).
Proof.
  intros Hfiles Hsrc Hnone Hnever Hkeep Hgive Hpix Hmem Hnew Hmkdir Hsave m sources Hwf
    composite.
  destruct (convert_for_sizes E m imgs Hkeep) as [Hmw Hth].
  fold sources in Hmw, Hth.
  assert (Hstacked : composite =
            foldl (fun acc p => paste E acc p.1 p.2)
              (blank m (max_width_of imgs) (total_height_of imgs)) (placements sources)).
  { unfold composite, stacked. by rewrite Hmw, Hth. }
  assert (Hmode : Forall (fun s => mode s = m) sources).
  { unfold sources. apply Forall_fmap, Forall_forall. intros img _. simpl.
    apply convert_for_mode; [done|]. unfold m, composite_mode.
    destruct (save_as_png task); auto. }
  assert (Htake : forall i, total_height_of (take i sources) = total_height_of (take i imgs)).
  { intros i. unfold sources. apply total_height_of_take_fmap.
    intros img'. by destruct (convert_for_size E m img' Hkeep). }
  split_and!.
  - destruct (merge_in_memory_run E 1000 task cb cancel_event imgs w)
      as (w' & Hrun & Hsaved); try done.
    fold m sources composite in Hrun, Hsaved.
    unfold save_outcome in Hrun, Hsaved. rewrite Hmkdir, Hsave in Hrun, Hsaved.
    by exists w'.
  - rewrite Hstacked.
    destruct (width_foldl_paste E (blank m (max_width_of imgs) (total_height_of imgs))
                (placements sources)) as (-> & _ & _).
    simpl. pose proof (max_width_of_nonneg imgs). lia.
  - rewrite Hstacked.
    destruct (width_foldl_paste E (blank m (max_width_of imgs) (total_height_of imgs))
                (placements sources)) as (_ & -> & _).
    unfold height, blank. simpl. rewrite length_replicate.
    pose proof (total_height_of_nonneg imgs). lia.
  - intros i s x y Hi Hx Hy.
    pose proof (width_le_max_width_of sources i s Hi) as Hle.
    destruct (x_offset_in_bounds (max_width_of sources) s Hle) as [Hx0 Hx1].
    rewrite <- Htake, <- Hmw. fold (x_offset_in (max_width_of sources) s).
    unfold composite. rewrite (stacked_pixel E m sources i s) by (done || lia).
    rewrite decide_True by lia. f_equal. lia.
  - intros i s X y Hi Hy HX.
    pose proof (width_le_max_width_of sources i s Hi) as Hle.
    destruct (x_offset_in_bounds (max_width_of sources) s Hle) as [Hx0 Hx1].
    rewrite <- Htake. rewrite <- Hmw in HX.
    fold (x_offset_in (max_width_of sources) s) in HX.
    unfold composite. rewrite (stacked_pixel E m sources i s) by (done || lia).
    rewrite decide_False by lia. done.
Qed.

Lemma conversions_keep_size_example fs err : conversions_keep_size (example_env fs err).
Proof. intros img m. done. Qed.

Lemma conversions_give_mode_example fs err :
  conversions_give_mode (example_env fs err).
Proof. by split. Qed.

(** The worked example: pages 600 x 1000, 800 x 1500 and 600 x 800. *)
Lemma pages_sizes :
  max_width_of [page1; page2; page3] = 800 /\
  total_height_of [page1; page2; page3] = 3300 /\
  snd <$> placements [page1; page2; page3] = [(100, 0); (0, 1000); (100, 2500)].
Proof.
  assert (Hmw : max_width_of [page1; page2; page3] = 800).
  { rewrite !max_width_of_cons. unfold page1, page2, page3.
    rewrite !width_test_image. reflexivity. }
  split_and!; [exact Hmw| |].
  - rewrite !total_height_of_cons. unfold page1, page2, page3.
    rewrite !height_test_image. reflexivity.
  - rewrite placements_place_from, Hmw.
    cbn [place_from fmap list_fmap snd]. unfold x_offset_in, page1, page2, page3.
    rewrite !width_test_image, !height_test_image. reflexivity.
Qed.

Lemma pages_within_limits :
  max_width_of [page1; page2; page3] * total_height_of [page1; page2; page3]
    <= PIL_MAX_PIXELS /\
  max_width_of [page1; page2; page3] * total_height_of [page1; page2; page3] * 4
    <= 1000 * MiB.
Proof.
  destruct pages_sizes as (Hmw & Hth & _). rewrite Hmw, Hth. split; by vm_compute.
Qed.

Lemma pages_merge_sources : merge_sources pages_env pages_task [page1; page2; page3].
Proof.
  unfold merge_sources. repeat (constructor; [split; reflexivity|]). constructor.
Qed.

Lemma pages_need_no_conversion :
  convert_for pages_env (composite_mode (save_as_png pages_task))
    <$> [page1; page2; page3] = [page1; page2; page3].
Proof. reflexivity. Qed.

Lemma pages_composite_mode : composite_mode (save_as_png pages_task) = M_RGB.
Proof. reflexivity. Qed.

Lemma pages_composite_size :
  Z.of_nat (width (stacked pages_env (composite_mode (save_as_png pages_task))
                     (convert_for pages_env (composite_mode (save_as_png pages_task))
                        <$> [page1; page2; page3])))
    = max_width_of [page1; page2; page3] ->
  Z.of_nat (height (stacked pages_env (composite_mode (save_as_png pages_task))
                      (convert_for pages_env (composite_mode (save_as_png pages_task))
                         <$> [page1; page2; page3])))
    = total_height_of [page1; page2; page3] ->
  Z.of_nat (width (stacked pages_env M_RGB [page1; page2; page3])) = 800 /\
  Z.of_nat (height (stacked pages_env M_RGB [page1; page2; page3])) = 3300.
Proof.
  intros Hw Hh. destruct pages_sizes as (Hmw & Hth & _).
  rewrite pages_need_no_conversion, pages_composite_mode in Hw, Hh.
  rewrite Hmw in Hw. rewrite Hth in Hh. by split.
Qed.

Lemma pages_well_formed : Forall well_formed [page1; page2; page3].
Proof.
  apply Forall_cons; split; [apply well_formed_test_image|].
  apply Forall_cons; split; [apply well_formed_test_image|].
  apply Forall_cons; split; [apply well_formed_test_image|]. apply Forall_nil_2.
Qed.

Lemma pages_sources_well_formed :
  Forall well_formed
    (convert_for pages_env (composite_mode (save_as_png pages_task))
       <$> [page1; page2; page3]).
Proof. rewrite pages_need_no_conversion. apply pages_well_formed. Qed.

(** The layout of the worked example, read off the general statement. *)
Lemma pages_layout (composite : Image) :
  (forall i s x y,
     [page1; page2; page3] !! i = Some s ->
     0 <= x < Z.of_nat (width s) -> 0 <= y < Z.of_nat (height s) ->
     pixel_at composite
       ((max_width_of [page1; page2; page3] - Z.of_nat (width s)) `div` 2 + x)
       (total_height_of (take i [page1; page2; page3]) + y)
     = pixel_at s x y) ->
  (forall x y, 0 <= x < 600 -> 0 <= y < 1000 ->
     pixel_at composite (100 + x) (0 + y) = pixel_at page1 x y) /\
  (forall x y, 0 <= x < 800 -> 0 <= y < 1500 ->
     pixel_at composite (0 + x) (1000 + y) = pixel_at page2 x y) /\
  (forall x y, 0 <= x < 600 -> 0 <= y < 800 ->
     pixel_at composite (100 + x) (2500 + y) = pixel_at page3 x y).
Proof.
  intros Hpix. destruct pages_sizes as (Hmw & _ & _). rewrite Hmw in Hpix.
  assert (Hw1 : Z.of_nat (width page1) = 600) by (unfold page1; by rewrite width_test_image).
  assert (Hw2 : Z.of_nat (width page2) = 800) by (unfold page2; by rewrite width_test_image).
  assert (Hw3 : Z.of_nat (width page3) = 600) by (unfold page3; by rewrite width_test_image).
  assert (Hh1 : Z.of_nat (height page1) = 1000)
    by (unfold page1; by rewrite height_test_image).
  assert (Hh2 : Z.of_nat (height page2) = 1500)
    by (unfold page2; by rewrite height_test_image).
  assert (Hh3 : Z.of_nat (height page3) = 800)
    by (unfold page3; by rewrite height_test_image).
  split_and!; intros x y Hx Hy.
  - specialize (Hpix 0%nat page1 x y eq_refl). rewrite Hw1, Hh1 in Hpix.
    cbn [take] in Hpix. change (total_height_of []) with 0 in Hpix.
    apply Hpix; lia.
  - specialize (Hpix 1%nat page2 x y eq_refl). rewrite Hw2, Hh2 in Hpix.
    cbn [take] in Hpix. rewrite total_height_of_cons, Hh1 in Hpix.
    change (total_height_of []) with 0 in Hpix.
    apply Hpix; lia.
  - specialize (Hpix 2%nat page3 x y eq_refl). rewrite Hw3, Hh3 in Hpix.
    cbn [take] in Hpix. rewrite !total_height_of_cons, Hh1, Hh2 in Hpix.
    change (total_height_of []) with 0 in Hpix.
    apply Hpix; lia.
Qed.

(** The worked example of C5: the three pages give a composite 800 wide
    and 3300 tall; page 1 is found in it at (100, 0), page 2 at (0, 1000)
    and page 3 at (100, 2500). *)
Lemma in_memory_merge_layout_witness :
  files pages_task <> [] /\
  merge_sources pages_env pages_task [page1; page2; page3] /\
  platform_spec pages_env (platform pages_task) = None /\
  never_set None /\
  conversions_keep_size pages_env /\
  conversions_give_mode pages_env /\
  max_width_of [page1; page2; page3] * total_height_of [page1; page2; page3]
    <= PIL_MAX_PIXELS /\
  max_width_of [page1; page2; page3] * total_height_of [page1; page2; page3] * 4
    <= 1000 * MiB /\
  Forall well_formed [page1; page2; page3] /\
  Z.of_nat (width (stacked pages_env M_RGB [page1; page2; page3])) = 800 /\
  Z.of_nat (height (stacked pages_env M_RGB [page1; page2; page3])) = 3300 /\
  (forall x y, 0 <= x < 600 -> 0 <= y < 1000 ->
     pixel_at (stacked pages_env M_RGB [page1; page2; page3]) (100 + x) (0 + y)
     = pixel_at page1 x y) /\
  (forall x y, 0 <= x < 800 -> 0 <= y < 1500 ->
     pixel_at (stacked pages_env M_RGB [page1; page2; page3]) (0 + x) (1000 + y)
     = pixel_at page2 x y) /\
  (forall x y, 0 <= x < 600 -> 0 <= y < 800 ->
     pixel_at (stacked pages_env M_RGB [page1; page2; page3]) (100 + x) (2500 + y)
     = pixel_at page3 x y).
Proof.
  assert (Hfiles : files pages_task <> []) by discriminate.
  destruct (in_memory_merge_layout pages_env pages_task true None
              [page1; page2; page3] empty_world Hfiles pages_merge_sources
              eq_refl I (conversions_keep_size_example _ _)
              (conversions_give_mode_example _ _)
              (proj1 pages_within_limits) (proj2 pages_within_limits)
              eq_refl eq_refl ltac:(intros; reflexivity) pages_sources_well_formed)
    as (_ & Hw & Hh & Hpix & _).
  exact (conj Hfiles (conj pages_merge_sources (conj eq_refl (conj I
    (conj (conversions_keep_size_example _ _) (conj (conversions_give_mode_example _ _)
    (conj (proj1 pages_within_limits) (conj (proj2 pages_within_limits)
    (conj pages_well_formed (conj (proj1 (pages_composite_size Hw Hh))
    (conj (proj2 (pages_composite_size Hw Hh)) (pages_layout _ Hpix)))))))))))).
Defined.

(** ** Cancellation *)

Lemma cancel_seen_nil : ~ cancel_seen [].
Proof. intros (site & Hin & _). by apply elem_of_nil in Hin. Qed.

Lemma cancel_seen_app evs1 evs2 :
  cancel_seen (evs1 ++ evs2) <-> cancel_seen evs1 \/ cancel_seen evs2.
Proof.
  unfold cancel_seen. split.
  - intros (site & [Hin|Hin]%elem_of_app & Hs); [left|right]; eauto.
  - intros [(site & Hin & Hs)|(site & Hin & Hs)]; exists site;
      (split; [|done]); apply elem_of_app; eauto.
Qed.

Section Combinators.
Context {A B : Type}.

Lemma silent_ret (a : A) : silent (ret a).
Proof. done. Qed.

Lemma silent_raise e : silent (@raise A e).
Proof. done. Qed.

Lemma silent_of_option (o : option A) e : silent (of_option o e).
Proof. by destruct o. Qed.

Lemma silent_bind (m : M A) (k : A -> M B) :
  silent m -> (forall a, silent (k a)) -> silent (bind m k).
Proof.
  intros Hm Hk w. unfold bind. specialize (Hm w).
  destruct (m w) as [[a| |e] w']; simpl in *; [|done..].
  by rewrite Hk.
Qed.

Lemma silent_try_except (m : M A) handler :
  silent m -> (forall e, silent (handler e)) -> silent (try_except m handler).
Proof.
  intros Hm Hh w. unfold try_except. specialize (Hm w).
  destruct (m w) as [[a| |e] w']; simpl in *; [done..|].
  by rewrite Hh.
Qed.

Lemma silent_try_finally (m : M A) fin :
  silent m -> silent fin -> silent (try_finally m fin).
Proof.
  intros Hm Hf w. unfold try_finally. specialize (Hm w).
  destruct (m w) as [r w']. specialize (Hf w').
  destruct (fin w') as [[[]| |e] w'']; simpl in *; congruence.
Qed.


Lemma silent_stops_when_cancelled (m : M A) : silent m -> stops_when_cancelled m.
Proof.
  intros Hm w. exists []. rewrite Hm, app_nil_r. split_and!; [done|done|].
  intros H. by apply cancel_seen_nil in H.
Qed.


Lemma stops_when_cancelled_cleanly (m : M A) :
  stops_when_cancelled m -> cancels_cleanly m.
Proof.
  intros Hm w. destruct (Hm w) as (evs & Htr & Hq & Hret). exists evs. split; [done|].
  intros Hseen. split; [by rewrite Hret|done].
Qed.


Lemma stops_when_cancelled_bind (m : M A) (k : A -> M B) :
  stops_when_cancelled m -> (forall a, stops_when_cancelled (k a)) ->
  stops_when_cancelled (bind m k).
Proof.
  intros Hm Hk w. unfold bind. destruct (Hm w) as (evs1 & Htr1 & Hq1 & Hret1).
  destruct (m w) as [[a| |e] w']; simpl in *.
  - destruct (Hk a w') as (evs2 & Htr2 & Hq2 & Hret2).
    exists (evs1 ++ evs2). rewrite Htr2, Htr1, app_assoc, saved_app, Hq1, Hq2.
    split_and!; [done|done|]. rewrite cancel_seen_app. intros [H|H]; [|by apply Hret2].
    by specialize (Hret1 H).
  - exists evs1. split_and!; auto.
  - exists evs1. split_and!; [done|done|]. intros H. by specialize (Hret1 H).
Qed.




End Combinators.


Lemma silent_foldM {A S} (l : list A) (body : S -> A -> M S) s :
  (forall s a, silent (body s a)) -> silent (foldM l body s).
Proof.
  intros Hbody. revert s. induction l as [|a l IH]; intros s; simpl.
  - done.
  - apply silent_bind; [apply Hbody|]. intros s'. apply IH.
Qed.


Lemma stops_when_cancelled_foldM {A S} (l : list A) (body : S -> A -> M S) s :
  (forall s a, stops_when_cancelled (body s a)) ->
  stops_when_cancelled (foldM l body s).
Proof.
  intros Hbody. revert s. induction l as [|a l IH]; intros s; simpl.
  - by apply silent_stops_when_cancelled.
  - apply stops_when_cancelled_bind; [apply Hbody|]. intros s'. apply IH.
Qed.

Lemma silent_acquire h : silent (acquire h).
Proof. done. Qed.

Lemma silent_release h : silent (release h).
Proof. done. Qed.

Lemma harmless_release h : harmless (release h).
Proof. done. Qed.

Lemma returns_return_ {A} : returns (@return_ A).
Proof. done. Qed.

Lemma not_cancel_seen_progress (cb : bool) (p : Q) :
  ~ cancel_seen (if cb then [EvProgress p] else []).
Proof.
  intros (site & Hin & _). destruct cb.
  - apply list_elem_of_singleton in Hin. done.
  - by apply elem_of_nil in Hin.
Qed.

Lemma progress_stops cb p : stops_when_cancelled (progress cb p).
Proof.
  intros w. rewrite progress_run. eexists. split_and!; [done|by destruct cb|].
  intros H. by apply not_cancel_seen_progress in H.
Qed.


(** A check before a file: if the flag is set the function returns, if
    not the turn goes on. *)
Lemma poll_stops {A} cancel_event site (kt kf : M A) :
  match site with BeforeChunk _ => False | _ => True end ->
  returns kt -> stops_when_cancelled kf ->
  stops_when_cancelled (c <- is_set cancel_event site ;; if c : bool then kt else kf).
Proof.
  intros Hsite Hkt Hkf w. unfold bind, is_set.
  destruct cancel_event as [ev|]; simpl.
  - unfold bind, emit, ret. destruct (ev (trace w)) eqn:Hev.
    + destruct (Hkt (log [EvIsSet site true] w)) as [Hret Htr].
      exists [EvIsSet site true]. rewrite Htr. split_and!; [done|done|]. by rewrite Hret.
    + destruct (Hkf (log [EvIsSet site false] w)) as (evs & Htr & Hq & Hret).
      exists ([EvIsSet site false] ++ evs). rewrite Htr. simpl.
      rewrite <- app_assoc. split_and!; [done|done|].
      intros (site' & Hin & Hs'). apply Hret. exists site'. split; [|done].
      apply elem_of_cons in Hin as [Heq|Hin]; [done|done].
  - unfold ret. apply Hkf.
Qed.


Section Cancellation.
Context (E : Env).

Lemma silent_load_psd_image path limit : silent (load_psd_image E path limit).
Proof. intros w. by rewrite load_psd_image_pure. Qed.

Lemma silent_new_image m size : silent (new_image E m size).
Proof.
  unfold new_image. destruct (new_error E size); [done|]. apply silent_of_option.
Qed.

Lemma silent_composite_one task m max_width merged y_offset fp :
  silent (composite_one E task m max_width merged y_offset fp).
Proof.
  unfold composite_one.
  apply silent_try_finally; [|apply silent_release].
  apply silent_try_except.
  - apply silent_bind.
    + destruct (is_psd E fp); [apply silent_load_psd_image|].
      apply silent_bind; [apply silent_of_option|done].
    + intros [img|]; [|done]. apply silent_bind; [apply silent_acquire|done].
  - intros e. apply silent_bind; [apply silent_release|done].
Qed.

Lemma silent_save_temp chunk : silent (save_temp chunk).
Proof. intros w. unfold save_temp. by case_decide. Qed.

Lemma silent_open_temp name : silent (open_temp name).
Proof. intros w. unfold open_temp. by repeat case_match. Qed.

Lemma silent_spill_chunk img y_offset temp_files y :
  silent (spill_chunk img y_offset temp_files y).
Proof.
  unfold spill_chunk. apply silent_bind; [apply silent_of_option|].
  intros chunk. apply silent_bind; [apply silent_save_temp|done].
Qed.

Lemma harmless_bind (m k : M unit) : harmless m -> harmless k -> harmless (m ;; k).
Proof.
  intros Hm Hk w. unfold bind. destruct (Hm w) as [Hn Htr].
  destruct (m w) as [o w']. simpl in *. subst o.
  destruct (Hk w') as [Hn' Htr']. by rewrite Hn', Htr', Htr.
Qed.

Lemma harmless_for_unlink (names : list nat) : harmless (for_ names unlink_temp).
Proof.
  induction names as [|name names IH]; simpl; [done|].
  by apply harmless_bind.
Qed.

Lemma harmless_cleanup_temp : harmless cleanup_temp.
Proof. intros w. unfold cleanup_temp. apply harmless_for_unlink. Qed.

Lemma collect_info_stops task cb cancel_event st item :
  stops_when_cancelled (collect_info E task cb cancel_event st item).
Proof.
  destruct st as [[infos th] mw]. destruct item as [i fp]. unfold collect_info.
  apply poll_stops; [done|apply returns_return_|].
  destruct (get_image_info E fp); [|by apply silent_stops_when_cancelled].
  apply stops_when_cancelled_bind; [apply progress_stops|].
  intros _. by apply silent_stops_when_cancelled.
Qed.

Lemma composite_step_stops task m max_width cb cancel_event st item :
  stops_when_cancelled (composite_step E task m max_width cb cancel_event st item).
Proof.
  destruct st as [merged y]. destruct item as [i [fp info]]. unfold composite_step.
  apply poll_stops; [done| |].
  - intros w. done.
  - apply stops_when_cancelled_bind.
    + apply silent_stops_when_cancelled, silent_composite_one.
    + intros [st'|]; [|by apply silent_stops_when_cancelled].
      apply stops_when_cancelled_bind; [apply progress_stops|].
      intros _. by apply silent_stops_when_cancelled.
Qed.

Lemma spill_step_stops task cb cancel_event st item :
  stops_when_cancelled (spill_step E task cb cancel_event st item).
Proof.
  destruct st as [temp_files y]. destruct item as [i [fp info]]. unfold spill_step.
  apply poll_stops; [done|apply returns_return_|].
  apply stops_when_cancelled_bind;
    [apply silent_stops_when_cancelled, silent_of_option|].
  intros img. apply stops_when_cancelled_bind;
    [apply silent_stops_when_cancelled, silent_acquire|].
  intros _. apply stops_when_cancelled_bind.
  - apply silent_stops_when_cancelled, silent_try_finally; [|apply silent_release].
    apply silent_foldM. intros. apply silent_spill_chunk.
  - intros tf. apply stops_when_cancelled_bind; [apply progress_stops|].
    intros _. by apply silent_stops_when_cancelled.
Qed.









End Cancellation.

Lemma call_outcome (body : M unit) w :
  not_raised (call body w).1 -> (call body w).1 = Normal tt.
Proof. unfold call. by destruct (body w) as [[[]| |e] w']. Qed.






(** In the reassembly loop of the streaming path the flag is checked too,
    but there the loop is left with [break], and the composite built so
    far is written all the same: with the streaming path forced and the
    flag set after two chunks have been pasted back, the output holds two
    of the five pages. *)
Example cancellation_during_reassembly_writes_a_partial_composite :
  exists dst args composite,
    saved (trace (merge_images_advanced_with five_env 0 five_task true (set_at 22)
                    empty_world).2) = [(dst, args, composite)] /\
    EvIsSet (BeforeChunk 2) true ∈
      trace (merge_images_advanced_with five_env 0 five_task true (set_at 22)
               empty_world).2 /\
    rows composite =
      [[[0; 0; 1]; [1; 0; 1]]; [[0; 0; 2]; [1; 0; 2]];
       [[255; 255; 255]; [255; 255; 255]]; [[255; 255; 255]; [255; 255; 255]];
       [[255; 255; 255]; [255; 255; 255]]].
Proof.
  eexists _, _, _. split_and!.
  - vm_compute. reflexivity.
  - vm_compute. set_solver.
  - reflexivity.
Qed.

(** ** The streaming path *)

(** *** Pasting a buffer in chunks *)






Section Chunks.
Context (E : Env).




Lemma mode_paste (dest src : Image) xy : mode (paste E dest src xy) = mode dest.
Proof. reflexivity. Qed.


End Chunks.

(** *** Runs of the streaming path *)

Lemma entries_for_app base (p1 p2 : list (Image * Z)) :
  entries_for base (p1 ++ p2)
  = entries_for base p1 ++ entries_for (base + length p1) p2.
Proof.
  unfold entries_for. rewrite imap_app. f_equal.
  apply imap_ext. intros k c _. simpl. do 3 f_equal. lia.
Qed.

Lemma entries_for_cons base (c : Image * Z) (plan : list (Image * Z)) :
  entries_for base (c :: plan)
  = (base, Z.of_nat (width c.1), Z.of_nat (height c.1), c.2)
      :: entries_for (S base) plan.
Proof.
  change (c :: plan) with ([c] ++ plan). rewrite entries_for_app. simpl.
  by rewrite Nat.add_0_r, Nat.add_1_r.
Qed.


Lemma store_chunks_app (cs1 cs2 : list Image) w :
  store_chunks (cs1 ++ cs2) w = store_chunks cs2 (store_chunks cs1 w).
Proof.
  unfold store_chunks. simpl. rewrite imap_app, length_app, <- app_assoc. f_equal.
  - do 2 f_equal. apply imap_ext. intros k c _. simpl. f_equal. lia.
  - lia.
Qed.

Lemma store_chunks_cons (c : Image) (cs : list Image) w :
  store_chunks (c :: cs) w = store_chunks cs (store_chunks [c] w).
Proof. change (c :: cs) with ([c] ++ cs). apply store_chunks_app. Qed.



Section StreamingRuns.
Context (E : Env).






End StreamingRuns.

Section StreamingMerge.
Context (E : Env).

Lemma composite_mode_cases save_as_png :
  composite_mode save_as_png = M_RGB \/ composite_mode save_as_png = M_RGBA.
Proof. destruct save_as_png; auto. Qed.



End StreamingMerge.







(** * Further properties *)

(** ** Cutting at a fixed interval *)

Lemma StronglySorted_lookup_2 {A} (R : relation A) (l : list A) :
  (forall i j a b, l !! i = Some a -> l !! j = Some b -> (i < j)%nat -> R a b) ->
  StronglySorted R l.
Proof.
  induction l as [|x l IH]; intros H; constructor.
  - apply IH. intros i j a b Hi Hj Hlt. apply (H (S i) (S j)); simpl; auto with lia.
  - apply Forall_forall. intros y Hy. apply list_elem_of_lookup in Hy as [j Hj].
    apply (H 0%nat (S j)); simpl; auto with lia.
Qed.

Lemma range_up_lookup start stop step (i : nat) :
  0 < step ->
  range start stop step !! i =
    if decide (Z.of_nat i < (stop - start + step - 1) `div` step)
    then Some (start + Z.of_nat i * step) else None.
Proof.
  intros Hstep. unfold range. rewrite decide_True by done.
  rewrite list_lookup_fmap. case_decide.
  - rewrite lookup_seqZ_lt by lia. simpl. f_equal.
  - rewrite lookup_seqZ_ge by lia. done.
Qed.

Lemma range_up_sorted start stop step :
  0 < step -> StronglySorted Z.lt (range start stop step).
Proof.
  intros Hstep. apply StronglySorted_lookup_2. intros i j a b Hi Hj Hlt.
  rewrite range_up_lookup in Hi, Hj by done.
  repeat case_decide; simplify_eq. nia.
Qed.

Lemma range_up_bounds start stop step :
  0 < step -> Forall (fun p => start <= p < stop) (range start stop step).
Proof.
  intros Hstep. apply Forall_forall. intros p Hp.
  apply list_elem_of_lookup in Hp as [i Hi].
  rewrite range_up_lookup in Hi by done. case_decide; simplify_eq.
  pose proof (Z.mul_div_le (stop - start + step - 1) step ltac:(lia)).
  nia.
Qed.

Lemma length_range_up start stop step :
  0 < step ->
  Z.of_nat (length (range start stop step))
  = Z.max 0 ((stop - start + step - 1) `div` step).
Proof.
  intros Hstep. unfold range. rewrite decide_True by done.
  rewrite length_fmap, length_seqZ. lia.
Qed.

(** What a valid cut plan writes: the encoding of each slice under its
    name, in order. *)
Lemma saved_slice_events_valid E img (points : list Z) src out quality version
    save_as_png platform progress_callback :
  well_formed img ->
  StronglySorted Z.lt points ->
  Forall (fun p => 0 < p < Z.of_nat (height img)) points ->
  let seq := boundaries points (Z.of_nat (height img)) in
  saved (concat (slice_events E img seq src out quality version save_as_png
                   platform progress_callback <$> List.seq 0 (length seq - 1)))
  = imap (slice_file E src out quality version save_as_png platform)
      (slices img seq).
Proof.
  intros Hwf Hs Hr seq.
  destruct (slices_valid_plan img points Hwf Hs Hr) as (Hparts & Hslice & _).
  fold seq in Hparts, Hslice.
  rewrite saved_slice_events_seq. apply list_eq. intros i.
  rewrite list_lookup_imap, Hparts.
  rewrite (omap_Some_fmap _
             (fun i => slice_file E src out quality version save_as_png platform i
                         (band img (boundary seq i) (boundary seq (i + 1))))).
  2:{ intros k Hk. apply list_elem_of_lookup in Hk as (j & Hj).
      apply lookup_seq in Hj as [Heq Hj]. simpl in Heq. subst j.
      by rewrite (Hslice k Hj). }
  rewrite !list_lookup_fmap.
  destruct (List.seq 0 (length seq - 1) !! i) as [k|] eqn:Hk; simpl; [|done].
  apply lookup_seq in Hk as [Heq Hk]. simpl in Heq. by subst k.
Qed.

(** The boundaries of a cut at a fixed interval. *)
Lemma boundary_interval (interval h : Z) (i : nat) :
  0 < interval < h ->
  let seq := boundaries (range interval h interval) h in
  length seq = S (S (Z.to_nat ((h - 1) `div` interval))) /\
  ((i < length seq - 1)%nat ->
   boundary seq i = Z.of_nat i * interval /\
   boundary seq (i + 1) = Z.min (Z.of_nat (i + 1) * interval) h /\
   Z.of_nat i * interval < h).
Proof.
  intros Hint seq.
  assert (Hq : (h - interval + interval - 1) `div` interval = (h - 1) `div` interval)
    by (f_equal; lia).
  pose proof (Z.div_pos (h - 1) interval ltac:(lia) ltac:(lia)) as Hq0.
  pose proof (Z.mul_div_le (h - 1) interval ltac:(lia)) as Hlo.
  pose proof (Z.mul_succ_div_gt (h - 1) interval ltac:(lia)) as Hhi.
  assert (Hlen : length (range interval h interval) = Z.to_nat ((h - 1) `div` interval)).
  { pose proof (length_range_up interval h interval ltac:(lia)) as Hl.
    rewrite Hq in Hl. lia. }
  assert (Hseq : length seq = S (S (Z.to_nat ((h - 1) `div` interval)))).
  { unfold seq, boundaries. simpl. rewrite length_app, Hlen. simpl. lia. }
  split; [done|]. intros Hi. rewrite Hseq in Hi.
  assert (Hpt : forall k : nat, (k < Z.to_nat ((h - 1) `div` interval))%nat ->
                seq !! S k = Some (Z.of_nat (S k) * interval)).
  { intros k Hk. unfold seq, boundaries. simpl.
    rewrite lookup_app_l by lia. rewrite range_up_lookup by lia.
    rewrite Hq. rewrite decide_True by lia. f_equal. lia. }
  assert (Hend : seq !! S (Z.to_nat ((h - 1) `div` interval)) = Some h).
  { unfold seq, boundaries. simpl. rewrite lookup_app_r by lia.
    rewrite Hlen, Nat.sub_diag. done. }
  assert (Hb : boundary seq i = Z.of_nat i * interval).
  { unfold boundary. destruct i as [|k]; [done|]. rewrite Hpt by lia. done. }
  split; [done|]. split; [|nia].
  unfold boundary. replace (i + 1)%nat with (S i) by lia.
  destruct (decide (i < Z.to_nat ((h - 1) `div` interval))%nat) as [Hlt|Hge].
  - rewrite Hpt by lia. simpl. nia.
  - replace i with (Z.to_nat ((h - 1) `div` interval)) by lia.
    rewrite Hend. simpl. nia.
Qed.

(** X1. An interval that is not positive.  [split_image_by_interval]
    rejects it before it creates the output directory or opens the source:
    the only thing that happens is the error dialog with the [ValueError]. *)
Theorem interval_not_positive_is_rejected E src (interval : Z) out quality version
    save_as_png platform progress_callback w :
  interval <= 0 ->
  split_image_by_interval E src interval out quality version save_as_png platform
    progress_callback w
  = (Normal tt,
     log [EvShowError "분할 실패" (ValueError "간격은 0보다 커야 합니다")] w).
Proof.
  intros Hint. unfold split_image_by_interval, call, try_except, bind, when.
  rewrite bool_decide_eq_true_2 by done. done.
Qed.

Lemma interval_not_positive_is_rejected_witness :
  -5 <= 0 /\
  split_image_by_interval small_env "a.png" (-5) "out" (QualityName "High") 0 false
    None true empty_world
  = (Normal tt,
     log [EvShowError "분할 실패" (ValueError "간격은 0보다 커야 합니다")]
       empty_world).
Proof.
  assert (H : -5 <= 0) by lia.
  split; [exact H|].
  exact (interval_not_positive_is_rejected small_env "a.png" (-5) "out"
           (QualityName "High") 0 false None true empty_world H).
Defined.

(** X2. An interval that is not below the height of the image.  The output
    directory has been created and the source decoded when
    [split_image_by_interval] finds this out; it reports the [ValueError],
    writes no slice, and leaves the decoded source open, since
    [img.close()] comes after the check. *)
Theorem interval_not_below_height_is_rejected E src (interval : Z) out quality
    version save_as_png platform progress_callback img w :
  0 < interval ->
  mkdir_error E out = None ->
  decoded E src = Some img ->
  Z.of_nat (height img) <= interval ->
  split_image_by_interval E src interval out quality version save_as_png platform
    progress_callback w
  = (Normal tt,
     mkWorld (trace w ++ [EvMkdir out;
                          EvShowError "분할 실패"
                            (ValueError "간격이 이미지 높이보다 큽니다")])
       (HSource src :: live w) (tmp_files w) (tmp_created w)).
Proof.
  intros Hint Hmk Hdec Hh.
  unfold split_image_by_interval, call, try_except, bind, when.
  rewrite bool_decide_eq_false_2 by lia. simpl.
  unfold mkdir. rewrite Hmk. unfold emit.
  rewrite (open_source_decoded E _ _ _ Hdec). simpl.
  rewrite bool_decide_eq_true_2 by lia. simpl.
  unfold log. simpl. by rewrite <- app_assoc.
Qed.

Lemma interval_not_below_height_is_rejected_witness :
  0 < 10 /\
  mkdir_error small_env "out" = None /\
  decoded small_env "a.png" = Some small_source /\
  Z.of_nat (height small_source) <= 10 /\
  split_image_by_interval small_env "a.png" 10 "out" (QualityName "High") 0 false
    None true empty_world
  = (Normal tt,
     mkWorld [EvMkdir "out";
              EvShowError "분할 실패" (ValueError "간격이 이미지 높이보다 큽니다")]
       [HSource "a.png"] [] 0%nat).
Proof.
  assert (H1 : 0 < 10) by lia.
  assert (H2 : mkdir_error small_env "out" = None) by reflexivity.
  assert (H3 : decoded small_env "a.png" = Some small_source) by reflexivity.
  assert (H4 : Z.of_nat (height small_source) <= 10) by (vm_compute; discriminate).
  split_and!; [exact H1|exact H2|exact H3|exact H4|].
  exact (interval_not_below_height_is_rejected small_env "a.png" 10 "out"
           (QualityName "High") 0 false None true small_source empty_world
           H1 H2 H3 H4).
Defined.

(** X3. Cutting at a fixed interval.  For [0 < interval < H] on a decodable,
    well-formed source, [split_image_by_interval] closes the buffer it
    opened to read the height and hands the cut points
    [interval, 2*interval, ...] below [H] to [split_image_at_points]; the
    run succeeds and writes [ceil(H / interval)] slices, slice [i] being
    [min(interval, H - i*interval)] rows tall, which stack back to the
    image; no buffer stays open. *)
Theorem interval_split_slices E src (interval : Z) out quality version save_as_png
    platform progress_callback img w :
  split_ready E src out img ->
  mkdir_error E out = None ->
  well_formed img ->
  0 < interval < Z.of_nat (height img) ->
  (forall dst im, save_error E dst im = None) ->
  let h := Z.of_nat (height img) in
  let parts := slices img (boundaries (range interval h interval) h) in
  (exists w',
     split_image_by_interval E src interval out quality version save_as_png
       platform progress_callback w = (Normal tt, w') /\
     live w' = live w /\
     saved (trace w') =
       saved (trace w)
       ++ imap (slice_file E src out quality version save_as_png platform) parts) /\
  Z.of_nat (length parts) = (h + interval - 1) `div` interval /\
  (forall i part, parts !! i = Some part ->
     Z.of_nat (height part) = Z.min interval (h - Z.of_nat i * interval)) /\
  vconcat parts = rows img.
Proof.
  intros Hready Hmk Hwf Hint Hsave h parts.
  pose proof (range_up_sorted interval h interval ltac:(lia)) as Hs.
  assert (Hr : Forall (fun p => 0 < p < h) (range interval h interval)).
  { eapply Forall_impl; [apply range_up_bounds; lia|]. simpl. intros; lia. }
  destruct (slices_valid_plan img _ Hwf Hs Hr) as (Hparts & Hslice & Hcat).
  fold h in Hparts, Hslice, Hcat. fold parts in Hparts, Hcat.
  split_and!.
  - unfold split_image_by_interval, call at 1, try_except at 1, bind, when.
    rewrite bool_decide_eq_false_2 by lia. simpl.
    unfold mkdir. rewrite Hmk. unfold emit.
    destruct Hready as (Hex & Hfile & Hsize & Hprobe & Hdec).
    rewrite (open_source_decoded E _ _ _ Hdec). simpl.
    rewrite bool_decide_eq_false_2 by (fold h; lia). simpl.
    unfold release. cbn [live trace tmp_files tmp_created log remove_first].
    rewrite decide_True by done. fold h.
    rewrite (split_image_at_points_valid E src (range interval h interval) out
               quality version save_as_png platform progress_callback img);
      [|done|done|done|done|done].
    fold h. eexists. split; [reflexivity|]. split; [done|].
    cbn [trace log].
    rewrite !saved_app.
    rewrite (saved_slice_events_valid E img (range interval h interval)) by done.
    fold h. fold parts.
    assert (saved (if progress_callback then [EvProgress 100%Q] else []) = []) as ->
      by (by destruct progress_callback).
    simpl. by rewrite !app_nil_r.
  - destruct (boundary_interval interval h 0 ltac:(lia)) as [Hlen _].
    rewrite Hparts, length_fmap, length_seq, Hlen.
    replace (h + interval - 1) with ((h - 1) + 1 * interval) by lia.
    rewrite Z.div_add by lia.
    pose proof (Z.div_pos (h - 1) interval ltac:(lia) ltac:(lia)). lia.
  - intros i part Hi. rewrite Hparts in Hi.
    rewrite list_lookup_fmap in Hi.
    destruct (List.seq 0 _ !! i) as [k|] eqn:Hk; simpl in Hi; [|done].
    apply lookup_seq in Hk as [Heq Hk]. simpl in Heq. subst k. simplify_eq.
    destruct (boundary_interval interval h i ltac:(lia)) as [_ Hb].
    destruct (Hb Hk) as (Ha & Hb' & Hlt).
    rewrite height_band; fold h; rewrite ?Ha, ?Hb'; lia.
  - done.
Qed.

Lemma interval_split_slices_witness :
  split_ready small_env "a.png" "out" small_source /\
  mkdir_error small_env "out" = None /\
  well_formed small_source /\
  0 < 4 < Z.of_nat (height small_source) /\
  (forall dst im, save_error small_env dst im = None) /\
  Z.of_nat (length (slices small_source
                      (boundaries (range 4 (Z.of_nat (height small_source)) 4)
                         (Z.of_nat (height small_source)))))
  = (Z.of_nat (height small_source) + 4 - 1) `div` 4 /\
  vconcat (slices small_source
             (boundaries (range 4 (Z.of_nat (height small_source)) 4)
                (Z.of_nat (height small_source))))
  = rows small_source.
Proof.
  assert (Hready : split_ready small_env "a.png" "out" small_source).
  { unfold split_ready. split_and!; try reflexivity; done. }
  assert (Hmk : mkdir_error small_env "out" = None) by reflexivity.
  assert (Hwf : well_formed small_source) by apply well_formed_test_image.
  assert (Hint : 0 < 4 < Z.of_nat (height small_source)) by (vm_compute; done).
  assert (Hsave : forall dst im, save_error small_env dst im = None) by done.
  destruct (interval_split_slices small_env "a.png" 4 "out" (QualityName "High") 0
              false None true small_source empty_world Hready Hmk Hwf Hint Hsave)
    as (_ & Hlen & _ & Hcat).
  exact (conj Hready (conj Hmk (conj Hwf (conj Hint (conj Hsave
           (conj Hlen Hcat)))))).
Defined.

(** ** Slices under a custom name *)

Lemma slice_name_custom_3 base ext version i :
  slice_name_custom base ext version 3 i = Some (slice_name base ext version i).
Proof. unfold slice_name_custom, slice_name. simpl. by case_decide. Qed.

Lemma split_slice_custom_3 E img w seq total base ext out quality version
    save_as_png platform progress_callback i w0 :
  split_slice_custom E img w seq total base ext out quality version save_as_png
    platform progress_callback 3 i w0
  = split_slice E img w seq total base ext out quality version save_as_png
      platform progress_callback i w0.
Proof.
  unfold split_slice_custom, split_slice. rewrite slice_name_custom_3. reflexivity.
Qed.

Lemma for_ext {A} (l : list A) (f g : A -> M unit) w :
  (forall a w', f a w' = g a w') -> for_ l f w = for_ l g w.
Proof.
  intros Hfg. revert w. induction l as [|a l IH]; intros w; simpl; [done|].
  unfold bind. rewrite Hfg. destruct (g a w) as [[[]| |e] w']; simpl; auto.
Qed.

(** X4. The custom-name slicer without a custom name.  With a custom file
    name that is empty or white space and three digits,
    [split_image_at_points_custom] does exactly what
    [split_image_at_points] does. *)
Theorem custom_split_with_blank_name E src (points : list Z) out quality version
    save_as_png platform progress_callback (custom_filename : string) w :
  strip custom_filename = "" ->
  split_image_at_points_custom E src points out quality version save_as_png
    platform progress_callback custom_filename 3 w
  = split_image_at_points E src points out quality version save_as_png platform
      progress_callback w.
Proof.
  intros Hblank.
  unfold split_image_at_points_custom, split_image_at_points, custom_base_name.
  rewrite decide_False by (by rewrite Hblank; intros []).
  unfold call, try_except, bind.
  destruct (when (negb (path_exists E src)) _ w) as [[[]| |e] w1]; done.
Qed.

Lemma custom_split_with_blank_name_witness :
  strip "  " = "" /\
  split_image_at_points_custom small_env "a.png" [5] "out" (QualityName "High") 0
    false None true "  " 3 empty_world
  = split_image_at_points small_env "a.png" [5] "out" (QualityName "High") 0 false
      None true empty_world.
Proof.
  assert (H : strip "  " = "") by (vm_compute; reflexivity).
  split; [exact H|].
  exact (custom_split_with_blank_name small_env "a.png" [5] "out"
           (QualityName "High") 0 false None true "  " empty_world H).
Defined.

(** ** File names *)

Local Arguments chars : simpl never.

Lemma chars_String c s : chars (String c s) = c :: chars s.
Proof. reflexivity. Qed.

Lemma chars_empty : chars "" = [].
Proof. reflexivity. Qed.



Lemma chars_string_of_list l : chars (string_of_list l) = l.
Proof. apply String.list_ascii_of_string_of_list_ascii. Qed.

Lemma string_of_list_chars s : string_of_list (chars s) = s.
Proof. apply String.string_of_list_ascii_of_string. Qed.

Lemma chars_replace_char old new s :
  chars (replace_char old new s)
  = (fun c => if decide (c = old) then new else c) <$> chars s.
Proof. induction s as [|c s IH]; [done|]. simpl. by rewrite !chars_String, IH. Qed.

Lemma replace_char_removes old new s :
  old <> new -> old ∉ chars (replace_char old new s).
Proof.
  intros Hne. rewrite chars_replace_char. intros Hin.
  apply list_elem_of_fmap in Hin as (c & Hc & _). by case_decide; simplify_eq.
Qed.

Lemma replace_char_keeps_out c old new s :
  c ∉ chars s -> c <> new -> c ∉ chars (replace_char old new s).
Proof.
  intros Hnot Hne. rewrite chars_replace_char. intros Hin.
  apply list_elem_of_fmap in Hin as (c' & Hc & Hin). by case_decide; simplify_eq.
Qed.

Lemma replace_char_absent old new s :
  old ∉ chars s -> replace_char old new s = s.
Proof.
  induction s as [|c s IH]; [done|]. rewrite chars_String, not_elem_of_cons.
  intros [Hne Hnot]. simpl. rewrite decide_False by done. by rewrite IH.
Qed.

Lemma foldl_replace_keeps_out c new (cs : list ascii) s :
  c ∉ chars s -> c <> new ->
  c ∉ chars (foldl (fun s c => replace_char c new s) s cs).
Proof.
  revert s. induction cs as [|c0 cs IH]; intros s Hnot Hne; simpl; [done|].
  apply IH; [|done]. by apply replace_char_keeps_out.
Qed.

Lemma foldl_replace_removes c new (cs : list ascii) s :
  c ∈ cs -> c <> new ->
  c ∉ chars (foldl (fun s c => replace_char c new s) s cs).
Proof.
  revert s. induction cs as [|c0 cs IH]; intros s Hin Hne; [by inversion Hin|].
  simpl. destruct (decide (c = c0)) as [->|Hc0].
  - apply foldl_replace_keeps_out; [|done]. by apply replace_char_removes.
  - apply IH; [|done]. set_solver.
Qed.

Lemma foldl_replace_absent new (cs : list ascii) s :
  Forall (fun c => c ∉ chars s) cs ->
  foldl (fun s c => replace_char c new s) s cs = s.
Proof.
  induction 1 as [|c cs Hc _ IH]; simpl; [done|].
  by rewrite replace_char_absent.
Qed.

Lemma lstrip_chars_suffix cs s : chars (lstrip_chars cs s) `suffix_of` chars s.
Proof.
  induction s as [|c s IH]; simpl; [done|]. case_bool_decide; [|done].
  rewrite chars_String. by apply suffix_cons_r.
Qed.

Lemma rstrip_chars_prefix cs s : chars (rstrip_chars cs s) `prefix_of` chars s.
Proof.
  induction s as [|c s IH]; simpl; [done|].
  destruct (rstrip_chars cs s) as [|c' r] eqn:Hr.
  - case_bool_decide; [apply prefix_nil|].
    rewrite !chars_String. apply prefix_cons, prefix_nil.
  - rewrite !chars_String in *. by apply prefix_cons.
Qed.

Lemma lstrip_chars_head cs s c : head (chars (lstrip_chars cs s)) = Some c -> c ∉ cs.
Proof.
  induction s as [|c0 s IH]; simpl; [done|]. case_bool_decide as Hc; [done|].
  rewrite chars_String. simpl. by intros [= ->].
Qed.

Lemma rstrip_chars_last cs s c : last (chars (rstrip_chars cs s)) = Some c -> c ∉ cs.
Proof.
  induction s as [|c0 s IH]; simpl; [done|].
  destruct (rstrip_chars cs s) as [|c' r] eqn:Hr.
  - case_bool_decide as Hc; rewrite ?chars_String, chars_empty; [done|].
    by intros [= ->].
  - rewrite !chars_String. rewrite chars_String in IH.
    by rewrite last_cons_cons.
Qed.

Lemma lstrip_chars_id cs s :
  (forall c, head (chars s) = Some c -> c ∉ cs) -> lstrip_chars cs s = s.
Proof.
  destruct s as [|c s]; simpl; [done|]. intros H.
  rewrite bool_decide_eq_false_2; [done|]. by apply H.
Qed.

Lemma rstrip_chars_id cs s :
  (forall c, last (chars s) = Some c -> c ∉ cs) -> rstrip_chars cs s = s.
Proof.
  induction s as [|c s IH]; simpl; [done|]. intros H.
  rewrite chars_String, last_cons in H.
  destruct s as [|c' s].
  - simpl in *. rewrite bool_decide_eq_false_2; [done|]. by apply H.
  - rewrite IH.
    + done.
    + intros c0 Hc0. apply H. by rewrite Hc0.
Qed.

(** What [strip(chars)] leaves neither starts nor ends with one of the
    characters, and holds no character the string did not hold. *)
Lemma strip_chars_spec cs s :
  (forall c, head (chars (strip_chars cs s)) = Some c -> c ∉ cs) /\
  (forall c, last (chars (strip_chars cs s)) = Some c -> c ∉ cs) /\
  (forall c, c ∈ chars (strip_chars cs s) -> c ∈ chars s).
Proof.
  unfold strip_chars. split_and!.
  - intros c Hc. apply (lstrip_chars_head cs s).
    destruct (rstrip_chars_prefix cs (lstrip_chars cs s)) as [k Hk].
    rewrite Hk. destruct (chars (rstrip_chars cs (lstrip_chars cs s))); [done|].
    done.
  - apply rstrip_chars_last.
  - intros c Hc.
    destruct (rstrip_chars_prefix cs (lstrip_chars cs s)) as [k Hk].
    destruct (lstrip_chars_suffix cs s) as [k' Hk'].
    rewrite Hk', Hk. set_solver.
Qed.

Lemma strip_chars_idemp cs s : strip_chars cs (strip_chars cs s) = strip_chars cs s.
Proof.
  destruct (strip_chars_spec cs s) as (Hh & Hl & _).
  unfold strip_chars at 1. rewrite lstrip_chars_id by done.
  by rewrite rstrip_chars_id.
Qed.

Lemma replace_forbidden_spec s c :
  c ∈ forbidden_chars -> c ∉ chars (replace_forbidden s).
Proof.
  intros Hc. apply foldl_replace_removes; [done|].
  intros ->. revert Hc. vm_compute. set_solver.
Qed.

Lemma space_forbidden_cleaned s :
  let name := strip_chars [" "; "."; "_"]%char
                (replace_char " " "_" (replace_forbidden s)) in
  name <> "" -> clean_name name.
Proof.
  intros name Hne.
  destruct (strip_chars_spec [" "; "."; "_"]%char
              (replace_char " " "_" (replace_forbidden s))) as (Hh & Hl & Hsub).
  fold name in Hh, Hl, Hsub. split_and!.
  - done.
  - intros c Hc Hin. apply Hsub in Hin. revert Hin.
    apply replace_char_keeps_out; [by apply replace_forbidden_spec|].
    intros ->. revert Hc. vm_compute. set_solver.
  - intros Hin. apply Hsub in Hin. revert Hin. by apply replace_char_removes.
  - intros c [Hc|Hc]; auto.
Qed.

(** X5. The base name of custom-named slices.  Whatever the user typed,
    the base name [split_image_at_points_custom] uses is either the stem
    of the source file or a non-empty name that holds none of the
    characters < > : / \ | ? * and the double quote, no space, and
    neither starts nor ends with a space, a dot or an underscore. *)
Theorem custom_base_name_is_clean (custom_filename stem : string) :
  custom_base_name custom_filename stem = stem \/
  clean_name (custom_base_name custom_filename stem).
Proof.
  unfold custom_base_name. case_decide; [|by left].
  case_decide; [by left|]. right. by apply space_forbidden_cleaned.
Qed.

Lemma clean_name_fixed name :
  clean_name name ->
  strip_chars [" "; "."; "_"]%char (replace_char " " "_" (replace_forbidden name))
  = name.
Proof.
  intros (Hne & Hforb & Hsp & Hends).
  unfold replace_forbidden. rewrite foldl_replace_absent.
  2:{ apply Forall_forall. intros c Hc. by apply Hforb. }
  rewrite replace_char_absent by done.
  unfold strip_chars. rewrite lstrip_chars_id by (intros; apply Hends; by left).
  rewrite rstrip_chars_id by (intros; apply Hends; by right). done.
Qed.

Lemma clean_name_image : clean_name "image".
Proof.
  split_and!; [done|..].
  - intros c Hc Hin. revert c Hc Hin. vm_compute. set_solver.
  - vm_compute. set_solver.
  - intros c [Hc|Hc]; vm_compute in Hc; simplify_eq; vm_compute; set_solver.
Qed.

(** X6. Cleaning a file name ([FileRow._clean_split_filename]).  The result
    is never empty, holds none of the characters < > : / \ | ? * and the
    double quote and no space, neither starts nor ends with a space, a dot
    or an underscore, and cleaning it again changes nothing. *)
Theorem clean_split_filename_is_clean_and_stable (filename : string) :
  clean_name (_clean_split_filename filename) /\
  _clean_split_filename (_clean_split_filename filename)
  = _clean_split_filename filename.
Proof.
  assert (Hclean : clean_name (_clean_split_filename filename)).
  { unfold _clean_split_filename. case_decide; [apply clean_name_image|].
    by apply space_forbidden_cleaned. }
  split; [done|].
  unfold _clean_split_filename at 1.
  rewrite (clean_name_fixed _ Hclean).
  rewrite decide_False; [done|]. by destruct Hclean.
Qed.

(** *** [str.strip()] *)

Lemma strip_prefixes_suffix fuel pats l : strip_prefixes fuel pats l `suffix_of` l.
Proof.
  revert l. induction fuel as [|fuel IH]; intros l; simpl; [done|].
  destruct (list_find _ pats) as [[i p]|]; [|done].
  etrans; [apply IH|]. apply suffix_drop.
Qed.

Lemma strip_prefixes_done fuel pats l :
  Forall (fun p => ~ p `prefix_of` l) pats -> strip_prefixes fuel pats l = l.
Proof.
  intros H. destruct fuel as [|fuel]; simpl; [done|].
  by rewrite (proj2 (list_find_None _ _) H).
Qed.

(** With fuel for every element, nothing is left to strip. *)
Lemma strip_prefixes_stripped fuel pats l :
  Forall (fun p => p <> []) pats -> (length l <= fuel)%nat ->
  Forall (fun p => ~ p `prefix_of` strip_prefixes fuel pats l) pats.
Proof.
  intros Hne. revert l. induction fuel as [|fuel IH]; intros l Hlen; simpl.
  - destruct l; [|simpl in Hlen; lia].
    eapply Forall_impl; [exact Hne|]. intros p Hp Hpre.
    by apply prefix_nil_inv in Hpre.
  - destruct (list_find _ pats) as [[i p]|] eqn:Hfind.
    + apply list_find_Some in Hfind as (Hi & Hpre & _).
      apply IH. rewrite length_drop.
      assert (p <> []).
      { rewrite Forall_forall in Hne. apply Hne. by eapply list_elem_of_lookup_2. }
      destruct p; [done|]. apply prefix_length in Hpre. simpl in *. lia.
    + by apply list_find_None in Hfind.
Qed.

Lemma whitespace_nonempty :
  Forall (fun p => p <> []) whitespace /\
  Forall (fun p => p <> []) (reverse <$> whitespace).
Proof. split; vm_compute; repeat constructor; done. Qed.

Lemma strip_idemp s : strip (strip s) = strip s.
Proof.
  unfold strip. fold (chars s).
  set (l1 := strip_prefixes (length (chars s)) whitespace (chars s)).
  set (r := strip_prefixes (length l1) (reverse <$> whitespace) (reverse l1)).
  fold (chars (string_of_list (reverse r))). rewrite chars_string_of_list.
  destruct whitespace_nonempty as [Hne Hner].
  assert (H1 : Forall (fun p => ~ p `prefix_of` l1) whitespace).
  { by apply strip_prefixes_stripped. }
  assert (H2 : Forall (fun p => ~ p `prefix_of` r) (reverse <$> whitespace)).
  { apply strip_prefixes_stripped; [done|]. by rewrite length_reverse. }
  assert (H3 : reverse r `prefix_of` l1).
  { rewrite <- (reverse_involutive l1). apply suffix_prefix_reverse.
    apply strip_prefixes_suffix. }
  rewrite (strip_prefixes_done _ whitespace (reverse r)).
  2:{ eapply Forall_impl; [exact H1|]. intros p Hp Hpre. apply Hp. by etrans. }
  rewrite reverse_involutive. by rewrite strip_prefixes_done.
Qed.

(** X7. The file-name example and the names written.  The base name that
    the row shows as an example for a custom file name is the base name
    the slicer then uses, except when cleaning leaves nothing of the name:
    then the example shows [image] while the slicer falls back to the stem
    of the source file.  Without a custom name both use the source. *)
Theorem filename_example_agrees_with_split (split_filename stem : string) :
  match example_base_name split_filename with
  | Some shown =>
      custom_base_name (strip split_filename) stem = shown \/
      (shown = "image" /\ custom_base_name (strip split_filename) stem = stem)
  | None => custom_base_name (strip split_filename) stem = stem
  end.
Proof.
  unfold example_base_name, custom_base_name, _clean_split_filename.
  rewrite strip_idemp.
  destruct (decide (strip split_filename <> "")); [|done].
  case_decide; [by right|by left].
Qed.

(** *** Numbered names *)











(** ** A fresh output directory *)

Lemma unique_dir_from_spec E (k : nat) : forall (fuel i : nat) base,
  (1 <= i)%nat ->
  (forall j, (i <= j < i + k)%nat -> path_exists E (candidate base j) = true) ->
  path_exists E (candidate base (i + k)) = false ->
  (k < fuel)%nat ->
  unique_dir_from E fuel base (Z.of_nat i) = Some (candidate base (i + k)).
Proof.
  induction k as [|k IH]; intros fuel i base Hi Hex Hfree Hfuel;
    (destruct fuel as [|fuel]; [lia|]); simpl.
  - rewrite Nat.add_0_r in Hfree. destruct i as [|i]; [lia|].
    simpl in Hfree. rewrite Hfree. simpl. by rewrite Nat.add_0_r.
  - pose proof (Hex i ltac:(lia)) as Hexi. destruct i as [|i]; [lia|].
    simpl in Hexi. rewrite Hexi. simpl.
    replace (Z.of_nat (S i) + 1) with (Z.of_nat (S (S i))) by lia.
    rewrite (IH fuel (S (S i)) base); [|lia| | |lia].
    + by replace (S (S i) + k)%nat with (S (i + S k)) by lia.
    + intros j Hj. apply Hex. lia.
    + replace (S (S i) + k)%nat with (S i + S k)%nat by lia. done.
Qed.

(** X9. [unique_dir].  The candidates [base], [base_001], [base_002], ...
    are tried in this order, and the first one that does not exist is
    returned: if candidate [k] is free and all candidates before it are
    taken, the search ends after [k] steps with candidate [k]. *)
Theorem unique_dir_returns_first_free E (fuel : nat) base (k : nat) :
  path_exists E (candidate base k) = false ->
  (forall j, (j < k)%nat -> path_exists E (candidate base j) = true) ->
  (k <= fuel)%nat ->
  unique_dir E fuel base = Some (candidate base k).
Proof.
  intros Hfree Hex Hfuel. unfold unique_dir.
  destruct k as [|k].
  - simpl in Hfree. by rewrite Hfree.
  - pose proof (Hex 0%nat ltac:(lia)) as H0. simpl in H0. rewrite H0. simpl.
    apply (unique_dir_from_spec E k fuel 1 base); [lia| |done|lia].
    intros j Hj. apply Hex. lia.
Qed.

Lemma unique_dir_returns_first_free_witness :
  path_exists taken_env (candidate "slices" 2) = false /\
  (forall j, (j < 2)%nat -> path_exists taken_env (candidate "slices" j) = true) /\
  (2 <= 5)%nat /\
  unique_dir taken_env 5 "slices" = Some "slices_002".
Proof.
  assert (H1 : path_exists taken_env (candidate "slices" 2) = false)
    by (vm_compute; reflexivity).
  assert (H2 : forall j, (j < 2)%nat ->
                         path_exists taken_env (candidate "slices" j) = true).
  { intros j Hj. destruct j as [|[|j]]; [vm_compute; reflexivity..|lia]. }
  assert (H3 : (2 <= 5)%nat) by lia.
  split_and!; [exact H1|exact H2|exact H3|].
  exact (unique_dir_returns_first_free taken_env 5 "slices" 2 H1 H2 H3).
Defined.

(** ** Decoding a layered document *)

(** X10. [load_psd_image].  It touches nothing outside, and it either
    returns a buffer or raises: it never returns [None], so the check for
    [None] its callers make can never fire.  A buffer it returns comes
    from a file within the size limit, has at most [PIL_MAX_PIXELS] pixels
    and an estimated size within the memory limit; every exception it
    raises is wrapped as a PSD load failure. *)
Theorem load_psd_image_outcomes E path (memory_limit : Z) w :
  (load_psd_image E path memory_limit w).2 = w /\
  match (load_psd_image E path memory_limit w).1 with
  | Normal (Some img) =>
      psd_compose E path = Some img /\
      path_st_size E path <= memory_limit * MiB /\
      Z.of_nat (width img) * Z.of_nat (height img) <= PIL_MAX_PIXELS /\
      Z.of_nat (width img) * Z.of_nat (height img)
        * Z.of_nat (getbands (mode img)) * 4 <= memory_limit * MiB
  | Normal None | Returned => False
  | Raised e => exists cause, e = Wrapped "PSD 파일 로드 실패: " cause
  end.
Proof.
  unfold load_psd_image, try_except, bind, when, raise, of_option, ret.
  case_bool_decide as H1; simpl; [by eauto|].
  destruct (psd_compose E path) as [img|]; simpl; [|by eauto].
  case_bool_decide as H2; simpl; [by eauto|].
  case_bool_decide as H3; simpl; [by eauto|].
  split_and!; [done|done|lia|lia|lia].
Qed.

(** ** The encoder *)

(** X11. What [save_image_with_quality] writes.  Pillow's conversions giving
    the mode asked for, a call either writes exactly one file and falls
    through, or writes nothing and raises an exception wrapped as a save
    failure.  The file is a PNG in mode RGBA under the destination with
    the suffix [.png], or a JPEG in mode RGB (never with an alpha band)
    under the destination with the suffix [.jpg]; it is optimised and
    carries the resolution it was given. *)
Theorem encoder_writes_png_or_jpeg E img dst quality save_as_png platform dpi w :
  conversions_give_mode E ->
  let r := save_image_with_quality E img dst quality save_as_png platform dpi w in
  match r.1 with
  | Normal _ =>
      exists dst' args out,
        r.2 = log [EvSave dst' args out] w /\
        sa_optimize args = true /\ sa_dpi args = dpi /\
        ((sa_format args = "PNG" /\ dst' = path_with_suffix E dst ".png" /\
          mode out = M_RGBA) \/
         (sa_format args = "JPEG" /\ dst' = path_with_suffix E dst ".jpg" /\
          mode out = M_RGB))
  | Returned => False
  | Raised e => r.2 = w /\ exists cause, e = Wrapped "이미지 저장 실패: " cause
  end.
Proof.
  intros [Hconv Hflat] r. unfold r. rewrite save_image_with_quality_run.
  unfold encoded.
  set (img1 := match platform_spec E platform with
               | Some spec => _
               | None => img
               end).
  destruct (if match platform_spec E platform with
               | Some spec => bool_decide (spec_format spec = "jpg")
               | None => false
               end then false else save_as_png); simpl.
  - destruct (save_error E _ _); simpl; [by eauto|].
    eexists _, _, _. split_and!; [done..|]. left. split_and!; [done..|].
    case_decide; [apply Hconv|]. by destruct (decide (mode img1 = M_RGBA)).
  - destruct (save_error E _ _); simpl; [by eauto|].
    eexists _, _, _. split_and!; [done..|]. right. split_and!; [done..|].
    repeat case_decide; auto.
Qed.

Lemma encoder_writes_png_or_jpeg_witness :
  conversions_give_mode small_env /\
  exists dst' args out,
    (save_image_with_quality small_env small_source "out/a.bmp" (QualityName "Low")
       true None None empty_world).2 = log [EvSave dst' args out] empty_world /\
    sa_optimize args = true /\ sa_dpi args = None /\
    ((sa_format args = "PNG" /\ dst' = path_with_suffix small_env "out/a.bmp" ".png" /\
      mode out = M_RGBA) \/
     (sa_format args = "JPEG" /\ dst' = path_with_suffix small_env "out/a.bmp" ".jpg" /\
      mode out = M_RGB)).
Proof.
  assert (H : conversions_give_mode small_env)
    by apply conversions_give_mode_example.
  split; [exact H|].
  exact (encoder_writes_png_or_jpeg small_env small_source "out/a.bmp"
           (QualityName "Low") true None None empty_world H).
Defined.

(** ** The decode cache, continued *)

Lemma dict_get_app_last (d : Dict) key img :
  key ∉ keys d -> dict_get (d ++ [(key, img)]) key = Some img.
Proof.
  unfold keys. induction d as [|[k v] d IH]; simpl; intros Hnot.
  - by rewrite decide_True.
  - rewrite decide_False by set_solver. apply IH. set_solver.
Qed.

Lemma ImageCache_get_invariant E self path dim :
  consistent self -> NoDup (keys (cache self)) ->
  consistent (ImageCache_get E self path dim).1.2 /\
  NoDup (keys (cache (ImageCache_get E self path dim).1.2)) /\
  max_size_mb (ImageCache_get E self path dim).1.2 = max_size_mb self.
Proof.
  intros Hcons Hnd.
  destruct (ImageCache_get_spec E self path dim Hcons)
    as [[-> _]|(Habs & img & rest & cur' & _ & _ & -> & Hd & Hc & _)]; [done|].
  split_and!; [done| |done]. simpl.
  apply dict_get_None in Habs. rewrite Hd, keys_app in Habs, Hnd.
  rewrite keys_app. simpl. apply NoDup_app in Hnd as (_ & _ & Hrest).
  apply NoDup_app. split_and!; [done| |apply NoDup_singleton].
  intros k Hk ->%list_elem_of_singleton. set_solver.
Qed.

(** X12. The bookkeeping of the cache.  After any sequence of [get] calls on
    a new cache the size it tracks is the sum of the sizes of the buffers
    it holds, no key is held twice, and the budget is the one it was
    created with. *)
Theorem cache_tracks_what_it_holds E (B : Q) (calls : list (string * option Z)) :
  consistent (run_gets E (ImageCache_init B) calls).1 /\
  NoDup (keys (cache (run_gets E (ImageCache_init B) calls).1)) /\
  max_size_mb (run_gets E (ImageCache_init B) calls).1 = B.
Proof.
  assert (Hgen : forall self,
            consistent self -> NoDup (keys (cache self)) ->
            consistent (run_gets E self calls).1 /\
            NoDup (keys (cache (run_gets E self calls).1)) /\
            max_size_mb (run_gets E self calls).1 = max_size_mb self).
  { induction calls as [|[path dim] calls IH]; intros self Hc Hnd; simpl; [done|].
    destruct (ImageCache_get_invariant E self path dim Hc Hnd) as (Hc' & Hnd' & Hm').
    destruct (ImageCache_get E self path dim) as [[res self'] closed]. simpl in *.
    destruct (IH self' Hc' Hnd') as (? & ? & ?).
    destruct (run_gets E self' calls). simpl in *. split_and!; congruence. }
  apply Hgen.
  - unfold consistent. simpl. lra.
  - constructor.
Qed.

(** X13. A cached buffer is served again.  When a [get] returns a buffer of
    less than 50 MiB, the next [get] of the same path and size limit
    returns the same buffer from the cache: nothing is decoded, the cache
    does not change and no buffer is closed. *)
Theorem cached_buffer_is_served_again E self path dim img :
  consistent self ->
  (ImageCache_get E self path dim).1.1 = Some img ->
  (image_size_mb img < 50)%Q ->
  ImageCache_get E (ImageCache_get E self path dim).1.2 path dim
  = (Some img, (ImageCache_get E self path dim).1.2, []).
Proof.
  intros Hcons Hres Hsmall.
  destruct (dict_get (cache self) (cache_key path dim)) as [hit|] eqn:Hget.
  - assert (Hr : ImageCache_get E self path dim = (Some hit, self, []))
      by (unfold ImageCache_get; by rewrite Hget).
    rewrite Hr in *. simpl in *. by simplify_eq.
  - destruct (cache_load E path dim) as [img0|] eqn:Hload.
    2:{ unfold ImageCache_get in Hres. by rewrite Hget, Hload in Hres. }
    destruct (Qlt_le_dec (image_size_mb img0) 50) as [Hlt|Hge].
    + destruct (add_to_cache_spec self (cache_key path dim) img0 Hcons Hget)
        as (closed & rest & cur' & Hadd & Hd & _ & _).
      assert (Hr : ImageCache_get E self path dim
                   = (Some img0,
                      mkImageCache (rest ++ [(cache_key path dim, img0)])
                        (max_size_mb self) cur', closed)).
      { unfold ImageCache_get. rewrite Hget, Hload.
        destruct (Qlt_le_dec (image_size_mb img0) 50); [by rewrite Hadd|lra]. }
      rewrite Hr in *. simpl in *. simplify_eq.
      unfold ImageCache_get. simpl.
      rewrite dict_get_app_last; [done|].
      apply dict_get_None in Hget. rewrite Hd, keys_app in Hget. set_solver.
    + assert (Hr : ImageCache_get E self path dim = (Some img0, self, [])).
      { unfold ImageCache_get. rewrite Hget, Hload.
        destruct (Qlt_le_dec (image_size_mb img0) 50); [lra|done]. }
      rewrite Hr in *. simpl in *. simplify_eq. lra.
Qed.

Lemma cached_buffer_is_served_again_witness :
  consistent (ImageCache_init 500) /\
  (ImageCache_get cache_env (ImageCache_init 500) "a.png" None).1.1
    = Some (test_image M_RGB 2 2 1) /\
  (image_size_mb (test_image M_RGB 2 2 1) < 50)%Q /\
  ImageCache_get cache_env
    (ImageCache_get cache_env (ImageCache_init 500) "a.png" None).1.2 "a.png" None
  = (Some (test_image M_RGB 2 2 1),
     (ImageCache_get cache_env (ImageCache_init 500) "a.png" None).1.2, []).
Proof.
  assert (H1 : consistent (ImageCache_init 500)) by (by vm_compute).
  assert (H2 : (ImageCache_get cache_env (ImageCache_init 500) "a.png" None).1.1
               = Some (test_image M_RGB 2 2 1)) by (vm_compute; reflexivity).
  assert (H3 : (image_size_mb (test_image M_RGB 2 2 1) < 50)%Q) by (by vm_compute).
  split_and!; [exact H1|exact H2|exact H3|].
  exact (cached_buffer_is_served_again cache_env (ImageCache_init 500) "a.png" None
           (test_image M_RGB 2 2 1) H1 H2 H3).
Defined.

(** ** Merging, continued *)

(** X14. A composite that would be too large.  When every file can be read
    and the composite would have more than [PIL_MAX_PIXELS] pixels (the
    largest width times the sum of the heights), [merge_images_advanced]
    raises its size exception straight after the first pass: no buffer is
    created, no temporary file, and nothing is written. *)
Theorem merge_rejects_oversized_composite E threshold_mb task cb cancel_event
    (imgs : list Image) w :
  files task <> [] ->
  never_set cancel_event ->
  Forall2 (fun fp img => Image_open E fp = Some img) (files task) imgs ->
  max_width_of imgs * total_height_of imgs > PIL_MAX_PIXELS ->
  exists evs,
    merge_images_advanced_with E threshold_mb task cb cancel_event w
    = (Raised (Exception "이미지 크기 초과"), log evs w) /\
    saved evs = [].
Proof.
  intros Hfiles Hnever Hopen Hbig.
  unfold merge_images_advanced_with, call.
  destruct (files task) as [|fp0 fps] eqn:Hf; [done|]. rewrite <- Hf in *.
  unfold bind at 1.
  destruct (info_pass_run E task cb cancel_event imgs w Hnever Hopen)
    as (evs & infos & Hq & Hlen & ->).
  unfold when, bind. rewrite bool_decide_eq_true_2 by done.
  exists evs. by split.
Qed.

Lemma huge_image_is_oversized :
  max_width_of [huge_image] * total_height_of [huge_image] > PIL_MAX_PIXELS.
Proof.
  unfold max_width_of, total_height_of, huge_image. cbn [fmap list_fmap foldr].
  rewrite height_test_image, width_test_image. by vm_compute.
Qed.

Lemma merge_rejects_oversized_composite_witness :
  files huge_task <> [] /\
  never_set None /\
  Forall2 (fun fp img => Image_open huge_env fp = Some img) (files huge_task)
    [huge_image] /\
  max_width_of [huge_image] * total_height_of [huge_image] > PIL_MAX_PIXELS /\
  exists evs,
    merge_images_advanced_with huge_env 1000 huge_task true None empty_world
    = (Raised (Exception "이미지 크기 초과"), log evs empty_world) /\
    saved evs = [].
Proof.
  assert (H1 : files huge_task <> []) by done.
  assert (H2 : never_set None) by done.
  assert (H3 : Forall2 (fun fp img => Image_open huge_env fp = Some img)
                 (files huge_task) [huge_image]).
  { repeat constructor. }
  pose proof huge_image_is_oversized as H4.
  split_and!; [exact H1|exact H2|exact H3|exact H4|].
  exact (merge_rejects_oversized_composite huge_env 1000 huge_task true None
           [huge_image] empty_world H1 H2 H3 H4).
Defined.

Section Writes.
Context (E : Env) (task : MergeTask).

Lemma silent_writes_nothing {A} (m : M A) : silent m -> writes_nothing m.
Proof. intros Hm w. exists []. by rewrite Hm, app_nil_r. Qed.

Lemma stops_writes_nothing {A} (m : M A) : stops_when_cancelled m -> writes_nothing m.
Proof. intros Hm w. destruct (Hm w) as (evs & Htr & Hq & _). by exists evs. Qed.

Lemma writes_nothing_bind {A B} (m : M A) (k : A -> M B) :
  writes_nothing m -> (forall a, writes_nothing (k a)) -> writes_nothing (bind m k).
Proof.
  intros Hm Hk w. unfold bind. destruct (Hm w) as (evs1 & Htr1 & Hq1).
  destruct (m w) as [[a| |e] w']; simpl in *; [|by exists evs1..].
  destruct (Hk a w') as (evs2 & Htr2 & Hq2).
  exists (evs1 ++ evs2). by rewrite Htr2, Htr1, app_assoc, saved_app, Hq1, Hq2.
Qed.

Lemma writes_nothing_output {A} (m : M A) : writes_nothing m -> writes_output E task m.
Proof. intros Hm w. destruct (Hm w) as (evs & Htr & Hq). exists evs. auto. Qed.

Lemma writes_output_bind {A B} (m : M A) (k : A -> M B) :
  writes_nothing m -> (forall a, writes_output E task (k a)) ->
  writes_output E task (bind m k).
Proof.
  intros Hm Hk w. unfold bind. destruct (Hm w) as (evs1 & Htr1 & Hq1).
  destruct (m w) as [[a| |e] w']; simpl in *; [|exists evs1; auto..].
  destruct (Hk a w') as (evs2 & Htr2 & Hout).
  exists (evs1 ++ evs2). rewrite Htr2, Htr1, app_assoc, saved_app, Hq1. auto.
Qed.

Lemma writes_output_then_calm (m k : M unit) :
  writes_output E task m -> calm k -> writes_output E task (m ;; k).
Proof.
  intros Hm Hk w. unfold bind. destruct (Hm w) as (evs1 & Htr1 & Hout).
  destruct (m w) as [[[]| |e] w']; simpl in *; [|exists evs1; auto..].
  destruct (Hk w') as (Hn & evs2 & Htr2 & Hq2).
  exists (evs1 ++ evs2). rewrite Htr2, Htr1, app_assoc, saved_app, Hq2, app_nil_r.
  split; [done|]. rewrite Hn. destruct Hout as [?|[_ ?]]; [by left|by right].
Qed.

Lemma writes_output_then_returns {A} (m : M unit) :
  writes_output E task m -> writes_output E task (m ;; @return_ A).
Proof.
  intros Hm w. unfold bind, return_. destruct (Hm w) as (evs & Htr & Hout).
  destruct (m w) as [[[]| |e] w']; simpl in *; exists evs; (split; [done|]);
    (destruct Hout as [?|[Hnr ?]]; [by left|by right]).
Qed.

Lemma writes_output_try_finally {A} (m : M A) fin :
  writes_output E task m -> harmless fin -> writes_output E task (try_finally m fin).
Proof.
  intros Hm Hf w. unfold try_finally. destruct (Hm w) as (evs & Htr & Hout).
  destruct (m w) as [r w']. destruct (Hf w') as [Hn Htr'].
  destruct (fin w') as [o w'']. simpl in *. subst o. simpl.
  exists evs. by rewrite Htr', Htr.
Qed.

Lemma writes_output_call (body : M unit) :
  writes_output E task body -> writes_output E task (call body).
Proof.
  intros Hm w. unfold call. destruct (Hm w) as (evs & Htr & Hout).
  destruct (body w) as [[[]| |e] w']; simpl in *; exists evs; (split; [done|]);
    (destruct Hout as [?|[Hnr ?]]; [by left|by right]).
Qed.

Lemma calm_progress cb p : calm (progress cb p).
Proof.
  intros w. rewrite progress_run. split; [done|]. eexists. split; [done|].
  by destruct cb.
Qed.

Lemma calm_release_then (h : handle) (k : M unit) : calm k -> calm (release h ;; k).
Proof.
  intros Hk w. unfold bind, release. simpl.
  exact (Hk (mkWorld (trace w) (remove_first h (live w)) (tmp_files w)
               (tmp_created w))).
Qed.

Lemma is_set_writes_nothing cancel_event site : writes_nothing (is_set cancel_event site).
Proof.
  intros w. destruct cancel_event as [ev|]; simpl.
  - by exists [EvIsSet site (ev (trace w))].
  - exists []. by rewrite app_nil_r.
Qed.

Lemma reassemble_writes_nothing max_width cancel_event temp_files final_img :
  writes_nothing (reassemble E max_width cancel_event temp_files final_img).
Proof.
  revert final_img.
  induction temp_files as [|[[[name wd] ht] y_pos] rest IH]; intros final_img; simpl.
  - by apply silent_writes_nothing.
  - apply writes_nothing_bind; [apply is_set_writes_nothing|].
    intros [|]; [by apply silent_writes_nothing|].
    apply writes_nothing_bind; [apply silent_writes_nothing, silent_open_temp|].
    intros chunk. apply IH.
Qed.

Lemma save_composite_writes_output composite :
  writes_output E task (save_composite E task composite).
Proof.
  intros w. destruct (save_composite_run E task composite w) as (evs & Hrun & Hq).
  exists evs. rewrite Hrun. split; [done|]. rewrite Hq.
  unfold save_outcome. destruct (mkdir_error E _); simpl; [by left|].
  destruct (save_error E _ _); simpl; [by left|]. right. split; [done|]. by eexists.
Qed.

Lemma merge_in_memory_writes_output images_info max_width total_height cb
    cancel_event :
  writes_output E task (merge_in_memory E task images_info max_width total_height cb
                          cancel_event).
Proof.
  unfold merge_in_memory.
  destruct (match platform_spec E (platform task) with
            | Some spec => _ | None => _ end) as [mw th].
  apply writes_output_bind.
  { apply silent_writes_nothing, silent_try_except; [apply silent_new_image|].
    intros e. by destruct e. }
  intros merged. apply writes_output_bind.
  { apply silent_writes_nothing, silent_acquire. }
  intros _. apply writes_output_bind.
  { apply stops_writes_nothing, stops_when_cancelled_foldM.
    intros. apply composite_step_stops. }
  intros st. apply writes_output_try_finally; [|apply harmless_release].
  apply writes_output_then_calm;
    [apply save_composite_writes_output|apply calm_progress].
Qed.

Lemma merge_images_streaming_writes_output images_info max_width total_height cb
    cancel_event :
  writes_output E task (_merge_images_streaming E task images_info max_width
                          total_height cb cancel_event).
Proof.
  unfold _merge_images_streaming.
  apply writes_output_call, writes_output_try_finally;
    [|apply harmless_cleanup_temp].
  apply writes_output_bind.
  { apply stops_writes_nothing, stops_when_cancelled_foldM.
    intros. apply spill_step_stops. }
  intros st. apply writes_output_bind;
    [apply silent_writes_nothing, silent_new_image|].
  intros final_img. apply writes_output_bind;
    [apply silent_writes_nothing, silent_acquire|].
  intros _. apply writes_output_bind; [apply reassemble_writes_nothing|].
  intros final. apply writes_output_then_calm;
    [apply save_composite_writes_output|].
  apply calm_release_then, calm_progress.
Qed.

Lemma merge_images_advanced_writes_output threshold_mb cb cancel_event :
  writes_output E task (merge_images_advanced_with E threshold_mb task cb cancel_event).
Proof.
  unfold merge_images_advanced_with. apply writes_output_call.
  destruct (files task) as [|fp fps] eqn:Hfiles.
  { by apply writes_nothing_output, silent_writes_nothing. }
  rewrite <- Hfiles. apply writes_output_bind.
  { apply stops_writes_nothing, stops_when_cancelled_foldM.
    intros. apply collect_info_stops. }
  intros [[images_info total_height] max_width].
  apply writes_output_bind.
  { apply silent_writes_nothing. unfold when. by case_match. }
  intros _. case_match.
  - apply writes_output_then_returns, merge_images_streaming_writes_output.
  - apply merge_in_memory_writes_output.
Qed.

End Writes.

(** X15. What a merge can write.  Whatever happens in a run of
    [merge_images_advanced] (a file that cannot be read, a failed
    allocation, a cancellation, a full disk), on either path and with any
    streaming threshold, the run writes at most one file: the encoding of
    a composite at the output path of the task.  It writes that file only
    if it ends normally; a run that raises has written nothing. *)
Theorem merge_writes_at_most_its_output E threshold_mb task cb cancel_event w :
  exists evs,
    trace (merge_images_advanced_with E threshold_mb task cb cancel_event w).2
      = trace w ++ evs /\
    (saved evs = [] \/
     ((merge_images_advanced_with E threshold_mb task cb cancel_event w).1
        = Normal tt /\
      exists composite,
        saved evs = [encoded E composite (output_path task) (quality task)
                       (save_as_png task) (platform task) None])).
Proof.
  destruct (merge_images_advanced_writes_output E task threshold_mb cb cancel_event w)
    as (evs & Htr & Hout).
  exists evs. split; [done|]. destruct Hout as [?|[Hnr ?]]; [by left|right].
  split; [|done]. unfold merge_images_advanced_with in *. by apply call_outcome.
Qed.
